(** * open-dan: the agent loop, the provider fallback chain, the tool
      sandboxes and the PII sanitizer, embedded from the Go sources.

    Go strings are byte sequences and are modelled as [string] (a list of
    8-bit [ascii]); Go [int] values that only count or compare are [Z];
    Go maps are stdpp [gmap]s; a Go [(value, error)] result pair is a pair
    of options, [nil] being [None]. *)

From Stdlib Require Import ZArith QArith Ascii.
From Stdlib Require String.
From stdpp Require Import base option list strings gmap pretty.

Open Scope Z_scope.
Open Scope list_scope.
Open Scope stdpp_scope.

(* ================================================================== *)
(** * internal/llm: neutral message types, error kinds, fallback chain *)
(* ================================================================== *)

Module LLM.

(** [json.RawMessage] is a byte slice. *)
Definition RawMessage := string.

Record ToolCall := {
  tc_ID : string;
  tc_Name : string;
  tc_Arguments : RawMessage
}.

Record Message := {
  Role : string;
  Content : string;
  ToolCalls : list ToolCall;
  ToolCallID : string
}.

(** A composite literal [llm.Message{Role: r, Content: c}]: the other
    fields take their zero values. *)
Definition msg (r c : string) : Message :=
  {| Role := r; Content := c; ToolCalls := []; ToolCallID := "" |}.

Record ToolDefinition := {
  td_Name : string;
  td_Description : string;
  td_Parameters : RawMessage
}.

Record Usage := { InputTokens : Z; OutputTokens : Z }.

Record LLMResponse := {
  resp_Content : string;
  resp_ToolCalls : list ToolCall;
  resp_Usage : Usage;
  resp_StopReason : string
}.

(** [Temperature] is a float64 that is only carried along, never computed
    with; it is kept as a rational. *)
Record ChatRequest := {
  req_Model : string;
  req_Messages : list Message;
  req_Tools : list ToolDefinition;
  req_MaxTokens : Z;
  req_Temperature : Q;
  req_SystemPrompt : string
}.

(** [type ErrorType int] with its [iota] constants. *)
Definition ErrorType := Z.
Definition ErrorUnknown : ErrorType := 0.
Definition ErrorRateLimit : ErrorType := 1.
Definition ErrorAuth : ErrorType := 2.
Definition ErrorInvalidInput : ErrorType := 3.
Definition ErrorServerError : ErrorType := 4.
Definition ErrorTimeout : ErrorType := 5.
Definition ErrorNetwork : ErrorType := 6.

(** Go [error] values as far as this program builds and inspects them: a
    leaf error, an error wrapped with [fmt.Errorf("...: %w", inner)], and
    [*LLMError], whose [Unwrap] returns its [Err] field. *)
#[warnings="-register-all"]
Inductive error :=
| PlainError (text : string)
| WrapError (prefix : string) (inner : error)
| LLMError (Type_ : ErrorType) (Message_ : string) (Err : option error).

(** [err.Error()]. *)
Fixpoint Error (e : error) : string :=
  match e with
  | PlainError text => text
  | WrapError prefix inner => prefix +:+ Error inner
  | LLMError _ m None => m
  | LLMError _ m (Some inner) => m +:+ ": " +:+ Error inner
  end.

(** [errors.As(err, &llmErr)]: the first [*LLMError] on the [Unwrap]
    chain, if any; the result is its [Type]. *)
Fixpoint asLLMError (e : error) : option ErrorType :=
  match e with
  | PlainError _ => None
  | WrapError _ inner => asLLMError inner
  | LLMError t _ _ => Some t
  end.

Definition isRetryable (err : error) : bool :=
  match asLLMError err with
  | None => true
  | Some t =>
      if bool_decide (t = ErrorAuth ∨ t = ErrorInvalidInput) then false
      else if bool_decide (t = ErrorRateLimit ∨ t = ErrorServerError
                           ∨ t = ErrorTimeout ∨ t = ErrorNetwork) then true
      else true
  end.

(** The [Provider] interface. A call may do anything to the outside world
    [W] (network traffic, quota, a scripted mock's cursor); the result is
    the Go pair of a response pointer and an error. *)
Record Provider (W : Type) := {
  Name : string;
  DefaultModel : string;
  Chat : ChatRequest → W → (option LLMResponse * option error) * W
}.
Arguments Name {W} _.
Arguments DefaultModel {W} _.
Arguments Chat {W} _ _ _.

Section Fallback.
Context {W : Type}.

(** The body of [FallbackProvider.Chat]: the [for _, p := range
    f.providers] loop, with the local [lastErr] as accumulator
    (the [log.Printf] line has no effect on the result). *)
Fixpoint chatLoop (lastErr : option error) (providers : list (Provider W))
    (req : ChatRequest) (w : W) : (option LLMResponse * option error) * W :=
  match providers with
  | [] => ((None, lastErr), w)
  | p :: rest =>
      match Chat p req w with
      | ((resp, None), w') => ((resp, None), w')
      | ((_, Some err), w') =>
          if negb (isRetryable err) then ((None, Some err), w')
          else chatLoop (Some err) rest req w'
      end
  end.

Definition FallbackChat (providers : list (Provider W)) :=
  chatLoop None providers.

Definition FallbackName (providers : list (Provider W)) : string :=
  match providers with
  | p :: _ => Name p +:+ "+fallback"
  | [] => "fallback"
  end.

Definition FallbackDefaultModel (providers : list (Provider W)) : string :=
  match providers with
  | p :: _ => DefaultModel p
  | [] => ""
  end.

(** [FallbackProvider] is itself a [Provider]. *)
Definition FallbackProvider (providers : list (Provider W)) : Provider W :=
  {| Name := FallbackName providers;
     DefaultModel := FallbackDefaultModel providers;
     Chat := FallbackChat providers |}.

(** The error kinds after which the chain stops, and the ones after
    which it goes on, as the specification lists them. *)
Definition terminal (e : error) : Prop :=
  asLLMError e = Some ErrorAuth ∨ asLLMError e = Some ErrorInvalidInput.

Definition retryable (e : error) : Prop :=
  asLLMError e = None ∨
  ∃ t, asLLMError e = Some t ∧ t ≠ ErrorAuth ∧ t ≠ ErrorInvalidInput.

(** The fallback rule in the specification's words: providers are tried
    from the head of the list; a success or a terminal error ends the
    walk at that provider ([rest] is never consulted); a retryable error
    moves on to [rest], and when nothing is left it is the answer. *)
Inductive chain_spec :
  list (Provider W) → ChatRequest → W →
  (option LLMResponse * option error) * W → Prop :=
| chain_success p rest req w resp w' :
    Chat p req w = ((resp, None), w') →
    chain_spec (p :: rest) req w ((resp, None), w')
| chain_terminal p rest req w resp e w' :
    Chat p req w = ((resp, Some e), w') →
    terminal e →
    chain_spec (p :: rest) req w ((None, Some e), w')
| chain_last p req w resp e w' :
    Chat p req w = ((resp, Some e), w') →
    retryable e →
    chain_spec [p] req w ((None, Some e), w')
| chain_next p q rest req w resp e w' out :
    Chat p req w = ((resp, Some e), w') →
    retryable e →
    chain_spec (q :: rest) req w' out →
    chain_spec (p :: q :: rest) req w out.

End Fallback.

Lemma isRetryable_false_iff e : isRetryable e = false ↔ terminal e.
Proof.
  unfold isRetryable, terminal.
  destruct (asLLMError e) as [t|]; [|naive_solver].
  repeat case_bool_decide; naive_solver.
Qed.

Lemma isRetryable_true_iff e : isRetryable e = true ↔ retryable e.
Proof.
  unfold isRetryable, retryable.
  destruct (asLLMError e) as [t|]; [|naive_solver].
  repeat case_bool_decide; naive_solver.
Qed.

Lemma chatLoop_cons_spec {W} (p : Provider W) rest req w lastErr :
  chain_spec (p :: rest) req w (chatLoop lastErr (p :: rest) req w).
Proof.
  revert p w lastErr. induction rest as [|q rest IH]; intros p w lastErr; simpl.
  - destruct (Chat p req w) as [[resp [e|]] w'] eqn:Hp.
    + destruct (isRetryable e) eqn:Hr; simpl.
      * eapply chain_last; [done|]. by apply isRetryable_true_iff.
      * eapply chain_terminal; [done|]. by apply isRetryable_false_iff.
    + by apply chain_success.
  - destruct (Chat p req w) as [[resp [e|]] w'] eqn:Hp.
    + destruct (isRetryable e) eqn:Hr; simpl.
      * eapply chain_next; [done| |].
        { by apply isRetryable_true_iff. }
        apply (IH q w' (Some e)).
      * eapply chain_terminal; [done|]. by apply isRetryable_false_iff.
    + by apply chain_success.
Qed.

(** A scripted provider for the examples: the world is the list of the
    names of the providers called so far. *)
Definition scripted (name : string) (out : option LLMResponse * option error)
  : Provider (list string) :=
  {| Name := name; DefaultModel := "";
     Chat := fun _ calls => (out, calls ++ [name]) |}.

Definition textResponse (c : string) : LLMResponse :=
  {| resp_Content := c; resp_ToolCalls := [];
     resp_Usage := {| InputTokens := 0; OutputTokens := 0 |};
     resp_StopReason := "" |}.

Definition emptyRequest : ChatRequest :=
  {| req_Model := ""; req_Messages := []; req_Tools := [];
     req_MaxTokens := 0; req_Temperature := 0%Q; req_SystemPrompt := "" |}.

Example fallback_on_rate_limit :
  FallbackChat
    [scripted "primary" (None, Some (LLMError ErrorRateLimit "429" None));
     scripted "secondary" (Some (textResponse "ok"), None)]
    emptyRequest []
  = ((Some (textResponse "ok"), None), ["primary"; "secondary"]).
Proof. reflexivity. Qed.

Example no_fallback_on_auth :
  FallbackChat
    [scripted "primary"
       (None, Some (LLMError ErrorAuth "401 unauthorized" None));
     scripted "secondary" (Some (textResponse "ok"), None)]
    emptyRequest []
  = ((None, Some (LLMError ErrorAuth "401 unauthorized" None)), ["primary"]).
Proof. reflexivity. Qed.

Example fallback_on_wrapped_plain_error :
  FallbackChat
    [scripted "primary" (None, Some (WrapError "dial: " (PlainError "refused")));
     scripted "secondary" (None, Some (LLMError ErrorTimeout "deadline" None))]
    emptyRequest []
  = ((None, Some (LLMError ErrorTimeout "deadline" None)),
     ["primary"; "secondary"]).
Proof. reflexivity. Qed.

(** C2. [FallbackProvider.Chat] walks the providers in list order. A
    provider answering without error ends the walk with its response. An
    error whose [LLMError] kind is [Auth] or [InvalidInput] ends the walk
    with that error, whatever providers follow. Any other error (kinds
    [RateLimit], [ServerError], [Timeout], [Network], [Unknown], or no
    [LLMError] at all) hands over to the next provider, and when it came
    from the last provider it is the error returned. With no provider at
    all the result is the nil pair. *)
Theorem fallback_chat_follows_chain_rule {W} :
  (∀ req (w : W), FallbackChat [] req w = ((None, None), w)) ∧
  (∀ (p : Provider W) rest req w,
     chain_spec (p :: rest) req w (FallbackChat (p :: rest) req w)) ∧
  (∀ e, terminal e ↔ isRetryable e = false) ∧
  (∀ e, isRetryable e = true ↔
        asLLMError e = None ∨
        ∃ t, asLLMError e = Some t ∧
             (t ∈ [ErrorRateLimit; ErrorServerError; ErrorTimeout;
                   ErrorNetwork; ErrorUnknown]
              ∨ (t ≠ ErrorAuth ∧ t ≠ ErrorInvalidInput))).
Proof.
  split_and!.
  - done.
  - intros. apply chatLoop_cons_spec.
  - intros e. by rewrite isRetryable_false_iff.
  - intros e. rewrite isRetryable_true_iff. unfold retryable.
    split; (intros [Hn | (t & Ht & Hk)]; [by left | right; exists t]).
    + naive_solver.
    + split; [done|]. destruct Hk as [Hin | Hk]; [|done].
      repeat (apply elem_of_cons in Hin as [-> | Hin]); try done.
      by apply elem_of_nil in Hin.
Qed.

(** ** Chains of chains *)

Section Chains.
Context {W : Type}.

(** With a provider to call, the error carried in is never looked at. *)
Lemma chatLoop_forgets (lastErr lastErr' : option error)
    (ps : list (Provider W)) req w :
  ps ≠ [] → chatLoop lastErr ps req w = chatLoop lastErr' ps req w.
Proof. by destruct ps. Qed.

(** An error comes without a response. *)
Lemma chatLoop_error (ps : list (Provider W)) : ∀ lastErr req w resp e w',
  chatLoop lastErr ps req w = ((resp, Some e), w') → resp = None.
Proof.
  induction ps as [|p ps IH]; intros lastErr req w resp e w'; simpl.
  { by intros [= <- _ _]. }
  destruct (Chat p req w) as [[r [e0|]] w0]; [|by intros [=]].
  destruct (isRetryable e0); simpl; [apply IH | by intros [= <- _ _]].
Qed.

Lemma chatLoop_app (ps qs : list (Provider W)) : ∀ lastErr req w,
  qs ≠ [] →
  chatLoop lastErr (ps ++ qs) req w =
    match ps with
    | [] => chatLoop lastErr qs req w
    | _ =>
        match chatLoop lastErr ps req w with
        | ((resp, None), w') => ((resp, None), w')
        | ((_, Some e), w') =>
            if isRetryable e then chatLoop (Some e) qs req w'
            else ((None, Some e), w')
        end
    end.
Proof.
  induction ps as [|p ps IH]; intros lastErr req w Hqs; [done|].
  simpl. destruct (Chat p req w) as [[r [e0|]] w0]; [|done].
  destruct (isRetryable e0) eqn:Hr; simpl; [|by rewrite Hr].
  rewrite IH by done. destruct ps as [|p' ps]; [simpl; by rewrite Hr | done].
Qed.

(** X1.  A chain can be cut in two.  Running the providers [ps ++ qs],
    neither list empty, is running [ps] and, if that ends in an error
    after which the walk goes on, running [qs] from the world [ps] left
    behind; a response from [ps], or an [Auth] or [InvalidInput] error,
    is the result whatever [qs] holds, and no provider of [qs] is
    called. *)
Theorem fallback_chain_splits (ps qs : list (Provider W)) req w :
  ps ≠ [] → qs ≠ [] →
  FallbackChat (ps ++ qs) req w =
    match FallbackChat ps req w with
    | ((resp, None), w') => ((resp, None), w')
    | ((_, Some e), w') =>
        if isRetryable e then FallbackChat qs req w'
        else ((None, Some e), w')
    end.
Proof.
  intros Hps Hqs. unfold FallbackChat. rewrite chatLoop_app by done.
  destruct ps as [|p ps]; [done|].
  destruct (chatLoop None (p :: ps) req w) as [[resp [e|]] w']; [|done].
  destruct (isRetryable e); [|done]. by apply chatLoop_forgets.
Qed.

(** X2.  A fallback provider may stand in a chain: with [qs] not empty,
    the chain that ends in the provider [FallbackProvider qs] answers
    every request as the chain with the providers [qs] written out in
    its place. *)
Theorem fallback_chains_nest (ps qs : list (Provider W)) req w :
  qs ≠ [] →
  FallbackChat (ps ++ [FallbackProvider qs]) req w
  = FallbackChat (ps ++ qs) req w.
Proof.
  intros Hqs. unfold FallbackChat. generalize (@None error) as lastErr.
  revert w. induction ps as [|p ps IH]; intros w lastErr.
  - simpl. unfold FallbackChat.
    rewrite (chatLoop_forgets lastErr None qs) by done.
    destruct (chatLoop None qs req w) as [[resp [e|]] w'] eqn:Hqsrun; [|done].
    apply chatLoop_error in Hqsrun as ->. by destruct (isRetryable e).
  - simpl. destruct (Chat p req w) as [[r [e0|]] w0]; [|done].
    destruct (isRetryable e0); simpl; [apply IH | done].
Qed.

End Chains.

Lemma fallback_chain_splits_witness :
  FallbackChat
    ([scripted "primary" (None, Some (LLMError ErrorRateLimit "429" None))]
     ++ [scripted "secondary" (Some (textResponse "ok"), None)])
    emptyRequest []
  = match FallbackChat
            [scripted "primary"
               (None, Some (LLMError ErrorRateLimit "429" None))]
            emptyRequest [] with
    | ((resp, None), w') => ((resp, None), w')
    | ((_, Some e), w') =>
        if isRetryable e
        then FallbackChat [scripted "secondary" (Some (textResponse "ok"), None)]
               emptyRequest w'
        else ((None, Some e), w')
    end.
Proof.
  apply (fallback_chain_splits
           [scripted "primary" (None, Some (LLMError ErrorRateLimit "429" None))]
           [scripted "secondary" (Some (textResponse "ok"), None)]
           emptyRequest []); discriminate.
Defined.

Lemma fallback_chains_nest_witness :
  FallbackChat
    ([scripted "primary" (None, Some (LLMError ErrorTimeout "deadline" None))]
     ++ [FallbackProvider
           [scripted "second" (None, Some (PlainError "refused"));
            scripted "third" (Some (textResponse "ok"), None)]])
    emptyRequest []
  = FallbackChat
      ([scripted "primary" (None, Some (LLMError ErrorTimeout "deadline" None))]
       ++ [scripted "second" (None, Some (PlainError "refused"));
           scripted "third" (Some (textResponse "ok"), None)])
      emptyRequest [].
Proof.
  apply (fallback_chains_nest
           [scripted "primary"
              (None, Some (LLMError ErrorTimeout "deadline" None))]
           [scripted "second" (None, Some (PlainError "refused"));
            scripted "third" (Some (textResponse "ok"), None)]
           emptyRequest []).
  discriminate.
Defined.

End LLM.

(* ================================================================== *)
(** * internal/tool: the tool interface and the registry               *)
(* ================================================================== *)

Module Tool.
Import LLM.

Record Result := {
  Output : string;
  Error_ : string;
  IsError : bool
}.

(** The [Tool] interface; [Execute] returns the Go pair of a result
    pointer and an error, and may act on the outside world [W]. *)
Record Tool (W : Type) := {
  Name : string;
  Description : string;
  Parameters : RawMessage;
  Execute : RawMessage → W → (option Result * option error) * W
}.
Arguments Name {W} _.
Arguments Description {W} _.
Arguments Parameters {W} _.
Arguments Execute {W} _ _ _.

Abbreviation Registry W := (gmap string (Tool W)).

Definition NewRegistry {W} : Registry W := ∅.

Definition Register {W} (t : Tool W) (r : Registry W) : Registry W :=
  <[Name t := t]> r.

Definition Unregister {W} (name : string) (r : Registry W) : Registry W :=
  delete name r.

Definition Get {W} (r : Registry W) (name : string)
  : option (Tool W) * option error :=
  match r !! name with
  | Some t => (Some t, None)
  | None => (None, Some (PlainError ("tool not found: " +:+ name)))
  end.

(** [Definitions] ranges over a Go map, whose iteration order is not
    specified; the model enumerates the table in the order of
    [map_to_list]. *)
Definition Definitions {W} (r : Registry W) : list ToolDefinition :=
  (λ kt, {| td_Name := Name kt.2;
            td_Description := Description kt.2;
            td_Parameters := Parameters kt.2 |}) <$> map_to_list r.

(** [List], in the order of [map_to_list] as well. *)
Definition List {W} (r : Registry W) : list (Tool W) :=
  snd <$> map_to_list r.

(** ** Registries as the program builds them *)

(** The calls that change a registry. *)
Inductive change (W : Type) :=
| Registered (t : Tool W)
| Unregistered (name : string).
Arguments Registered {W} _.
Arguments Unregistered {W} _.

Definition apply {W} (r : Registry W) (c : change W) : Registry W :=
  match c with
  | Registered t => Register t r
  | Unregistered name => Unregister name r
  end.

(** [NewRegistry] followed by the calls [cs], first to last. *)
Definition built {W} (cs : list (change W)) : Registry W :=
  foldl apply NewRegistry cs.

(** Every tool sits under its own name. *)
Definition keyed {W} (r : Registry W) : Prop :=
  ∀ k t, r !! k = Some t → Name t = k.

Lemma keyed_built {W} (cs : list (change W)) : keyed (built cs).
Proof.
  unfold built. induction cs as [|c cs IH] using rev_ind.
  { intros k t. simpl. unfold NewRegistry. by rewrite lookup_empty. }
  rewrite foldl_app. simpl. intros k t. destruct c as [t0|name]; simpl.
  - unfold Register. intros [[<- <-]|[_ H]]%lookup_insert_Some; [done|].
    by apply IH.
  - unfold Unregister. intros [_ H]%lookup_delete_Some. by apply IH.
Qed.

Lemma Definitions_names {W} (r : Registry W) :
  keyed r → td_Name <$> Definitions r = (map_to_list r).*1.
Proof.
  intros Hk. unfold Definitions. rewrite <-list_fmap_compose.
  apply Forall_fmap_ext, Forall_forall.
  intros [k t] Hin%elem_of_map_to_list. simpl. by apply Hk.
Qed.

(** [Register], [Unregister] and [Get].  A tool just registered
    is the one [Get] finds under its name, taking the place of any tool
    that had the name before; a name just unregistered is not found, and
    the error says so; neither call changes what [Get] finds under any
    other name. *)
Theorem registered_tool_is_found {W} (t : Tool W) (r : Registry W)
    (name : string) :
  Get (Register t r) (Name t) = (Some t, None) ∧
  (name ≠ Name t → Get (Register t r) name = Get r name) ∧
  Get (Unregister name r) name
    = (None, Some (PlainError ("tool not found: " +:+ name))) ∧
  (∀ other, other ≠ name → Get (Unregister name r) other = Get r other).
Proof.
  unfold Get, Register, Unregister. split_and!.
  - by rewrite lookup_insert_eq.
  - intros Hne. by rewrite lookup_insert_ne.
  - by rewrite lookup_delete_eq.
  - intros other Hne. by rewrite lookup_delete_ne.
Qed.

(** X3.  What the provider is offered is what [Get] finds.  In a
    registry made by [NewRegistry] and any calls of [Register] and
    [Unregister], [Definitions] has one entry for each registered tool,
    no name occurs in it twice, and a name is in it exactly when [Get]
    finds a tool under that name; that tool is the one described. *)
Theorem definitions_are_the_tools_found {W} (cs : list (change W)) :
  let r := built cs in
  length (Definitions r) = size r ∧
  NoDup (td_Name <$> Definitions r) ∧
  ∀ d, d ∈ Definitions r ↔
       ∃ t, Get r (td_Name d) = (Some t, None) ∧
            d = {| td_Name := Name t; td_Description := Description t;
                   td_Parameters := Parameters t |}.
Proof.
  intros r. pose proof (keyed_built cs) as Hk. fold r in Hk. split_and!.
  - unfold Definitions. by rewrite length_fmap, length_map_to_list.
  - rewrite Definitions_names by done. apply NoDup_fst_map_to_list.
  - intros d. unfold Definitions, Get. rewrite list_elem_of_fmap. split.
    + intros ([k t] & -> & Hin%elem_of_map_to_list). simpl.
      exists t. rewrite (Hk _ _ Hin), Hin. done.
    + intros (t & Hget & ->). simpl in Hget.
      destruct (r !! Name t) as [t'|] eqn:Hlook; [|done].
      injection Hget as ->. exists (Name t, t).
      split; [done | by apply elem_of_map_to_list].
Qed.

End Tool.

(* ================================================================== *)
(** * internal/memory: the conversation store                          *)
(* ================================================================== *)

Module Memory.
Import LLM.

(** The [Memory] interface over a store state [M]. Every operation may
    fail, and returns the store it leaves behind. *)
Class Memory (M : Type) := {
  SaveMessage : string → Message → M → option error * M;
  GetHistory : string → Z → M → (list Message * option error) * M;
  SaveSummary : string → string → M → option error * M;
  GetSummary : string → M → (string * option error) * M
}.

(** [SQLiteMemory] on a database that answers every statement: the
    [messages] table in [id] order and the [summaries] table keyed by
    [chat_id]. *)
Record Row := {
  chat_id : string;
  role : string;
  content : string;
  tool_calls : option string;
  tool_call_id : option string
}.

Record DB := {
  messages : list Row;
  summaries : gmap string string
}.

Definition emptyDB : DB := {| messages := []; summaries := ∅ |}.

Section SQLite.
(** [json.Marshal] and [json.Unmarshal] on a [[]ToolCall]. *)
Variable marshal : list ToolCall → string.
Variable unmarshal : string → list ToolCall.

Definition sqlite_SaveMessage (chatID : string) (m : Message) (db : DB)
  : option error * DB :=
  let toolCallsJSON :=
    if bool_decide (0 < length (ToolCalls m))%nat
    then Some (marshal (ToolCalls m)) else None in
  let toolCallID :=
    if bool_decide (ToolCallID m ≠ "") then Some (ToolCallID m) else None in
  (None,
   {| messages := messages db ++
        [{| chat_id := chatID; role := Role m; content := Content m;
            tool_calls := toolCallsJSON; tool_call_id := toolCallID |}];
      summaries := summaries db |}).

Definition scanRow (r : Row) : Message :=
  {| Role := role r; Content := content r;
     ToolCalls := match tool_calls r with
                  | Some js => unmarshal js
                  | None => []
                  end;
     ToolCallID := default "" (tool_call_id r) |}.

(** [ORDER BY id DESC LIMIT ?] then [ORDER BY id ASC]: the last [limit]
    rows of the chat, oldest first; SQLite reads a negative [LIMIT] as
    no limit. *)
Definition lastRows (limit : Z) (rows : list Row) : list Row :=
  if bool_decide (limit < 0) then rows
  else drop (length rows - Z.to_nat limit) rows.

Definition sqlite_GetHistory (chatID : string) (limit : Z) (db : DB)
  : (list Message * option error) * DB :=
  let rows := filter (λ r, chat_id r = chatID) (messages db) in
  ((scanRow <$> lastRows limit rows, None), db).

Definition sqlite_SaveSummary (chatID summary : string) (db : DB)
  : option error * DB :=
  (None, {| messages := messages db;
            summaries := <[chatID := summary]> (summaries db) |}).

Definition sqlite_GetSummary (chatID : string) (db : DB)
  : (string * option error) * DB :=
  ((default "" (summaries db !! chatID), None), db).

Definition SQLiteMemory : Memory DB :=
  {| SaveMessage := sqlite_SaveMessage;
     GetHistory := sqlite_GetHistory;
     SaveSummary := sqlite_SaveSummary;
     GetSummary := sqlite_GetSummary |}.
End SQLite.

(** ** What the SQLite store keeps *)

Section Stored.
Variable marshal : list ToolCall → string.
Variable unmarshal : string → list ToolCall.

(** The row [SaveMessage] inserts for a message. *)
Definition rowOf (chatID : string) (m : Message) : Row :=
  {| chat_id := chatID; role := Role m; content := Content m;
     tool_calls := if bool_decide (0 < length (ToolCalls m))%nat
                   then Some (marshal (ToolCalls m)) else None;
     tool_call_id := if bool_decide (ToolCallID m ≠ "")
                     then Some (ToolCallID m) else None |}.

(** The whole conversation of a chat as the table holds it, oldest
    message first. *)
Definition conversation (chatID : string) (db : DB) : list Message :=
  scanRow unmarshal <$> filter (λ r, chat_id r = chatID) (messages db).

(** The newest [limit] entries of a list; all of it under a negative
    [limit]. *)
Definition newest {A} (limit : Z) (l : list A) : list A :=
  if bool_decide (limit < 0) then l
  else drop (length l - Z.to_nat limit) l.

Lemma sqlite_SaveMessage_rowOf chatID m db :
  sqlite_SaveMessage marshal chatID m db
  = (None, {| messages := messages db ++ [rowOf chatID m];
              summaries := summaries db |}).
Proof. done. Qed.

Lemma sqlite_GetHistory_newest chatID limit db :
  sqlite_GetHistory unmarshal chatID limit db
  = ((newest limit (conversation chatID db), None), db).
Proof.
  unfold sqlite_GetHistory, lastRows, newest, conversation.
  case_bool_decide; [done|]. by rewrite fmap_drop, length_fmap.
Qed.

(** A message comes back from its row as it went in, provided its tool
    calls survive the JSON round trip. *)
Lemma scanRow_rowOf chatID m :
  (ToolCalls m ≠ [] → unmarshal (marshal (ToolCalls m)) = ToolCalls m) →
  scanRow unmarshal (rowOf chatID m) = m.
Proof.
  intros Hjson. destruct m as [r c tcs id]. unfold scanRow, rowOf. simpl in *.
  f_equal.
  - case_bool_decide as Hlen.
    + apply Hjson. by destruct tcs; [simpl in Hlen; lia|].
    + destruct tcs; [done | simpl in Hlen; lia].
  - case_bool_decide as Hid; [done|].
    simpl. destruct (decide (id = "")); [done|]. by destruct Hid.
Qed.

Lemma conversation_append chatID c rows db :
  conversation chatID
    {| messages := messages db ++ rows; summaries := c |}
  = conversation chatID db
    ++ (scanRow unmarshal <$> filter (λ r, chat_id r = chatID) rows).
Proof. unfold conversation. simpl. by rewrite filter_app, fmap_app. Qed.

(** X4.  [SaveMessage] and [GetHistory] on the SQLite store.  Saving
    never fails on a database that answers; the message is appended to
    the conversation of its chat and to no other, the summaries stay as
    they are, and, for a message whose tool calls survive the JSON round
    trip, [GetHistory] with a positive or a negative limit returns it as
    its last message. *)
Theorem saved_message_ends_history chatID m db limit :
  (ToolCalls m ≠ [] → unmarshal (marshal (ToolCalls m)) = ToolCalls m) →
  limit ≠ 0 →
  let db' := (sqlite_SaveMessage marshal chatID m db).2 in
  (sqlite_SaveMessage marshal chatID m db).1 = None ∧
  conversation chatID db' = conversation chatID db ++ [m] ∧
  last (sqlite_GetHistory unmarshal chatID limit db').1.1 = Some m ∧
  (∀ other, other ≠ chatID →
     conversation other db' = conversation other db) ∧
  summaries db' = summaries db.
Proof.
  intros Hjson Hlimit. rewrite sqlite_SaveMessage_rowOf. cbn [fst snd].
  cbv zeta.
  assert (conversation chatID
            {| messages := messages db ++ [rowOf chatID m];
               summaries := summaries db |}
          = conversation chatID db ++ [m]) as Hconv.
  { rewrite conversation_append, filter_cons_True, filter_nil by done.
    simpl. by rewrite scanRow_rowOf. }
  split_and!; [done | done | | | done].
  - rewrite sqlite_GetHistory_newest, Hconv. cbn [fst snd]. unfold newest.
    case_bool_decide; [by rewrite last_snoc|].
    rewrite length_app. simpl.
    replace (length (conversation chatID db) + 1 - Z.to_nat limit)%nat
      with (length (conversation chatID db) - (Z.to_nat limit - 1))%nat by lia.
    rewrite drop_app_le by lia. by rewrite last_snoc.
  - intros other Hother. rewrite conversation_append.
    rewrite filter_cons_False, filter_nil by (simpl; congruence).
    by rewrite app_nil_r.
Qed.

(** [GetHistory] neither changes the store nor fails, and for a
    limit that is not negative it returns the newest [limit] messages of
    the chat and no more, in the order they were saved; under limit zero
    it returns none. *)
Theorem history_is_newest_of_conversation chatID limit db :
  0 ≤ limit →
  let r := sqlite_GetHistory unmarshal chatID limit db in
  r.2 = db ∧ r.1.2 = None ∧
  Z.of_nat (length r.1.1) ≤ limit ∧
  (∃ older, conversation chatID db = older ++ r.1.1) ∧
  (Z.of_nat (length r.1.1) < limit → r.1.1 = conversation chatID db).
Proof.
  intros Hlimit. rewrite sqlite_GetHistory_newest. cbn [fst snd]. cbv zeta.
  unfold newest. rewrite bool_decide_false by lia.
  set (l := conversation chatID db). split_and!; [done | done | | |].
  - rewrite length_drop. lia.
  - exists (take (length l - Z.to_nat limit) l). by rewrite take_drop.
  - rewrite length_drop. intros Hshort.
    replace (length l - Z.to_nat limit)%nat with 0%nat by lia. done.
Qed.

(** X5.  The summary of a chat is what was saved for it last: after
    [SaveSummary] the chat's [GetSummary] returns that text, the summary
    of every other chat and all conversations are as before, and a chat
    without a summary reads as the empty string, without error. *)
Theorem saved_summary_is_read_back chatID summary db :
  let db' := (sqlite_SaveSummary chatID summary db).2 in
  (sqlite_SaveSummary chatID summary db).1 = None ∧
  sqlite_GetSummary chatID db' = ((summary, None), db') ∧
  (∀ other, other ≠ chatID →
     (sqlite_GetSummary other db').1 = (sqlite_GetSummary other db).1) ∧
  messages db' = messages db ∧
  (summaries db !! chatID = None →
   (sqlite_GetSummary chatID db).1 = ("", None)).
Proof.
  unfold sqlite_SaveSummary, sqlite_GetSummary. simpl.
  split_and!; [done | | | done |].
  - by rewrite lookup_insert_eq.
  - intros other Hother. by rewrite lookup_insert_ne.
  - by intros ->.
Qed.

End Stored.

(** A store in use: a stand-in for the JSON encoding that writes the
    names of the calls, the one call the example message carries, and a
    table with an older message of another chat. *)
Definition lookup_call : ToolCall :=
  {| tc_ID := "call_1"; tc_Name := "search"; tc_Arguments := "{}" |}.

Definition names (calls : list ToolCall) : string :=
  foldr (λ c s, tc_Name c +:+ ";" +:+ s) "" calls.

Definition read_names (s : string) : list ToolCall :=
  if bool_decide (s = "search;") then [lookup_call] else [].

Definition asking : Message :=
  {| Role := "assistant"; Content := ""; ToolCalls := [lookup_call];
     ToolCallID := "" |}.

Definition in_use : DB :=
  (sqlite_SaveMessage names "c2" (msg "user" "hello")
     {| messages := []; summaries := ∅ |}).2.

Lemma saved_message_ends_history_witness :
  let db' := (sqlite_SaveMessage names "c1" asking in_use).2 in
  (sqlite_SaveMessage names "c1" asking in_use).1 = None ∧
  conversation read_names "c1" db'
    = conversation read_names "c1" in_use ++ [asking] ∧
  last (sqlite_GetHistory read_names "c1" 50 db').1.1 = Some asking ∧
  (∀ other, other ≠ "c1" →
     conversation read_names other db'
     = conversation read_names other in_use) ∧
  summaries db' = summaries in_use.
Proof.
  apply (saved_message_ends_history names read_names "c1" asking in_use 50).
  - intros _. vm_compute. reflexivity.
  - lia.
Defined.

End Memory.

(* ================================================================== *)
(** * internal/channel: messages and the channel table                 *)
(* ================================================================== *)

Module Channel.
Import LLM.

Record InboundMessage := {
  ChannelName : string;
  SenderID : string;
  SenderName : string;
  ChatID : string;
  Text : string;
  Timestamp : Z
}.

Record OutboundMessage := {
  out_ChatID : string;
  out_Text : string;
  out_ReplyTo : string
}.

(** The part of the [Channel] interface the agent calls. *)
Record Channel (W : Type) := {
  Name : string;
  Send : OutboundMessage → W → option error * W
}.
Arguments Name {W} _.
Arguments Send {W} _ _ _.

Abbreviation Manager W := (gmap string (Channel W)).

Definition Get {W} (m : Manager W) (name : string) : option (Channel W) :=
  m !! name.

End Channel.

(* ================================================================== *)
(** * Go values and the monad of the agent's runs                      *)
(* ================================================================== *)

Module Go.

(** Arithmetic on Go's 64-bit [int]. *)
Definition wrap64 (z : Z) : Z := (z + 2 ^ 63) `mod` 2 ^ 64 - 2 ^ 63.
Definition int_add (a b : Z) : Z := wrap64 (a + b).

(** [len(s)] of a string or a slice. *)
Definition len (s : string) : Z := Z.of_nat (String.length s).
Definition llen {A} (l : list A) : Z := Z.of_nat (length l).

Lemma wrap64_small z : - 2 ^ 63 ≤ z < 2 ^ 63 → wrap64 z = z.
Proof. intros H. unfold wrap64. rewrite Z.mod_small; lia. Qed.

(** How a run ends: with a value, with a nil-pointer panic, or cut off by
    the model's iteration bound. *)
Inductive outcome (A : Type) :=
| Done (a : A)
| Panicked
| Starved.
Arguments Done {A} _.
Arguments Panicked {A}.
Arguments Starved {A}.

Definition Run (S A : Type) := S → outcome A * S.

Definition ret {S A} (a : A) : Run S A := λ s, (Done a, s).

Definition bind {S A B} (c : Run S A) (k : A → Run S B) : Run S B :=
  λ s, match c s with
       | (Done a, s') => k a s'
       | (Panicked, s') => (Panicked, s')
       | (Starved, s') => (Starved, s')
       end.

(** Dereferencing a pointer that may be nil. *)
Definition deref {S A} (p : option A) : Run S A :=
  λ s, match p with
       | Some a => (Done a, s)
       | None => (Panicked, s)
       end.

End Go.

Notation "'let*' p := c 'in' k" := (Go.bind c (λ p, k))
  (at level 10, p pattern, c at level 100, k at level 200, only parsing).

(* ================================================================== *)
(** * internal/agent: the context manager and the agent loop           *)
(* ================================================================== *)

Module Agent.
Import LLM Go.

Record AgentConfig := {
  SystemPrompt : string;
  MaxTokens : Z;
  Temperature : Q;
  MaxToolCalls : Z;
  ContextWindow : Z;
  SummarizeAt : Z
}.

(** What [bus.Publish] is handed as payload; the response is the
    pointer the provider returned, which may be nil. *)
Inductive Payload :=
| PRequest (req : ChatRequest)
| PResponse (resp : option LLMResponse)
| PToolCall (tc : ToolCall)
| PToolResult (id result : string)
| PError (e : error)
| PInbound (m : Channel.InboundMessage)
| POutbound (m : Channel.OutboundMessage).

(** The calls a run makes on its collaborators, in the order it makes
    them. *)
Inductive Effect :=
| GetHistoryCall (chatID : string) (limit : Z)
| GetSummaryCall (chatID : string)
| SaveMessageCall (chatID : string) (m : Message)
| SaveSummaryCall (chatID summary : string)
| ChatCall (req : ChatRequest)
| ExecuteCall (name : string) (args : RawMessage)
| PublishCall (topic : string) (payload : Payload)
| SendCall (channel : string) (m : Channel.OutboundMessage).

(** The state a run threads: the conversation store, the outside world
    the provider, the tools and the channels act on, and the calls made
    so far. *)
Record State (M W : Type) := {
  memory : M;
  world : W;
  trace : list Effect
}.
Arguments memory {M W} _.
Arguments world {M W} _.
Arguments trace {M W} _.

Section Agent.
Context {M W : Type} `{Mem : Memory.Memory M}.

Definition record (e : Effect) (s : State M W) : State M W :=
  {| memory := memory s; world := world s; trace := trace s ++ [e] |}.

(** ** Calls on the collaborators *)

Definition publish (topic : string) (p : Payload) : Run (State M W) unit :=
  λ s, (Done (), record (PublishCall topic p) s).

Definition memory_GetHistory (chatID : string) (limit : Z)
  : Run (State M W) (list Message * option error) :=
  λ s, let '(r, m') := Memory.GetHistory chatID limit (memory s) in
       (Done r, {| memory := m'; world := world s;
                   trace := trace s ++ [GetHistoryCall chatID limit] |}).

Definition memory_GetSummary (chatID : string)
  : Run (State M W) (string * option error) :=
  λ s, let '(r, m') := Memory.GetSummary chatID (memory s) in
       (Done r, {| memory := m'; world := world s;
                   trace := trace s ++ [GetSummaryCall chatID] |}).

Definition memory_SaveMessage (chatID : string) (m : Message)
  : Run (State M W) (option error) :=
  λ s, let '(r, m') := Memory.SaveMessage chatID m (memory s) in
       (Done r, {| memory := m'; world := world s;
                   trace := trace s ++ [SaveMessageCall chatID m] |}).

Definition memory_SaveSummary (chatID summary : string)
  : Run (State M W) (option error) :=
  λ s, let '(r, m') := Memory.SaveSummary chatID summary (memory s) in
       (Done r, {| memory := m'; world := world s;
                   trace := trace s ++ [SaveSummaryCall chatID summary] |}).

Definition provider_Chat (p : Provider W) (req : ChatRequest)
  : Run (State M W) (option LLMResponse * option error) :=
  λ s, let '(r, w') := Chat p req (world s) in
       (Done r, {| memory := memory s; world := w';
                   trace := trace s ++ [ChatCall req] |}).

Definition tool_Execute (t : Tool.Tool W) (args : RawMessage)
  : Run (State M W) (option Tool.Result * option error) :=
  λ s, let '(r, w') := Tool.Execute t args (world s) in
       (Done r, {| memory := memory s; world := w';
                   trace := trace s ++ [ExecuteCall (Tool.Name t) args] |}).

Definition channel_Send (c : Channel.Channel W)
    (m : Channel.OutboundMessage) : Run (State M W) (option error) :=
  λ s, let '(r, w') := Channel.Send c m (world s) in
       (Done r, {| memory := memory s; world := w';
                   trace := trace s ++ [SendCall (Channel.Name c) m] |}).

(** ** context.go *)

Record contextManager := {
  cm_provider : Provider W;
  contextWindow : Z;
  summarizeAt : Z
}.

Definition newContextManager (provider : Provider W)
    (contextWindow summarizeAt : Z) : contextManager :=
  {| cm_provider := provider; contextWindow := contextWindow;
     summarizeAt := summarizeAt |}.

Definition estimateTokens (messages : list Message) : Z :=
  foldl (λ total m,
           foldl (λ total tc, int_add total (len (tc_Arguments tc) `quot` 4))
                 (int_add total (len (Content m) `quot` 4))
                 (ToolCalls m))
        0 messages.

Definition shouldSummarize (cm : contextManager) (messages : list Message)
  : bool :=
  bool_decide (estimateTokens messages > summarizeAt cm).

Definition summaryText (toSummarize : list Message) : string :=
  foldl (λ text m, text +:+ (Role m +:+ ": " +:+ Content m +:+ "
")) "" toSummarize.

Definition summaryRequest (toSummarize : list Message) : ChatRequest :=
  {| req_Model := "";
     req_Messages :=
       [msg "user"
          ("Summarize this conversation concisely, preserving key facts, decisions, and context:

" +:+ summaryText toSummarize)];
     req_Tools := [];
     req_MaxTokens := 1024;
     req_Temperature := (3 # 10)%Q;
     req_SystemPrompt :=
       "You are a conversation summarizer. Create a brief, factual summary." |}.

Definition summarize (cm : contextManager) (messages : list Message)
  : Run (State M W) (string * list Message * option error) :=
  if bool_decide (llen messages ≤ 4) then ret ("", messages, None)
  else
    let cutoff := (length messages - 4)%nat in
    let toSummarize := take cutoff messages in
    let recent := drop cutoff messages in
    let summaryReq := summaryRequest toSummarize in
    let* (resp, err) := provider_Chat (cm_provider cm) summaryReq in
    match err with
    | Some _ => ret ("", recent, None)
    | None =>
        let* resp := deref resp in
        ret (resp_Content resp, recent, None)
    end.

(** ** agent.go and the loop *)

Record Agent := {
  cfg : AgentConfig;
  provider : Provider W;
  tools : Tool.Registry W;
  chanMgr : Channel.Manager W;
  ctxManager : contextManager
}.

Definition New (cfg : AgentConfig) (provider : Provider W)
    (tools : Tool.Registry W) (chanMgr : Channel.Manager W) : Agent :=
  {| cfg := cfg; provider := provider; tools := tools; chanMgr := chanMgr;
     ctxManager :=
       newContextManager provider (ContextWindow cfg) (SummarizeAt cfg) |}.

(** "Check context window, summarize if needed": the first block of the
    loop body. *)
Definition summarizeIfNeeded (a : Agent) (chatID : string)
    (messages : list Message) : Run (State M W) (list Message) :=
  if shouldSummarize (ctxManager a) messages then
    let* (newSummary, recent, err) := summarize (ctxManager a) messages in
    if bool_decide (err = None ∧ newSummary ≠ "") then
      let* _ := memory_SaveSummary chatID newSummary in
      ret ([msg "user" ("[Conversation summary]: " +:+ newSummary);
            msg "assistant" "I understand the context. Continuing..."]
           ++ recent)
    else ret messages
  else ret messages.

(** The [llm.Message{Role: "tool", ...}] literal of the "Observe" step. *)
Definition toolMessage (tc : ToolCall) (result : string) : Message :=
  {| Role := "tool"; Content := result; ToolCalls := [];
     ToolCallID := tc_ID tc |}.

(** "Act: execute each tool call": the body of the inner [for] loop,
    returning the working list with the tool message appended. *)
Definition executeToolCall (a : Agent) (messages : list Message)
    (tc : ToolCall) : Run (State M W) (list Message) :=
  let* _ := publish "tool_call" (PToolCall tc) in
  let '(t, err) := Tool.Get (tools a) (tc_Name tc) in
  let* result :=
    match err with
    | Some _ => ret ("Error: tool '" +:+ tc_Name tc +:+ "' not found")
    | None =>
        let* t := deref t in
        let* (res, err) := tool_Execute t (tc_Arguments tc) in
        match err with
        | Some err => ret ("Error executing tool: " +:+ Error err)
        | None =>
            let* res := deref res in
            if Tool.IsError res then ret ("Error: " +:+ Tool.Error_ res)
            else ret (Tool.Output res)
        end
    end in
  let* _ := publish "tool_result" (PToolResult (tc_ID tc) result) in
  let toolMsg := toolMessage tc result in
  ret (messages ++ [toolMsg]).

Fixpoint executeToolCalls (a : Agent) (messages : list Message)
    (toolCalls : list ToolCall) : Run (State M W) (list Message) :=
  match toolCalls with
  | [] => ret messages
  | tc :: rest =>
      let* messages := executeToolCall a messages tc in
      executeToolCalls a messages rest
  end.

(** "Think: send to LLM": the request built from the working list. *)
Definition chatRequest (a : Agent) (messages : list Message) : ChatRequest :=
  {| req_Model := "";
     req_Messages := messages;
     req_Tools := Tool.Definitions (tools a);
     req_MaxTokens := MaxTokens (cfg a);
     req_Temperature := Temperature (cfg a);
     req_SystemPrompt := SystemPrompt (cfg a) |}.

(** One pass through the body of the [for] loop either returns from
    [processMessage] or goes round again with the new locals. *)
Inductive step :=
| Return (text : string) (err : option error)
| Continue (messages : list Message) (toolCallCount : Z).

Definition truncationPrefix : string :=
  "I've reached the maximum number of tool calls for this request.".

Definition loopBody (a : Agent) (chatID : string)
    (messages : list Message) (toolCallCount : Z)
  : Run (State M W) step :=
  let* messages := summarizeIfNeeded a chatID messages in
  let req := chatRequest a messages in
  let* _ := publish "llm_request" (PRequest req) in
  let* (resp, err) := provider_Chat (provider a) req in
  match err with
  | Some err => ret (Return "" (Some (WrapError "LLM error: " err)))
  | None =>
      let* _ := publish "llm_response" (PResponse resp) in
      let* resp := deref resp in
      if bool_decide (llen (resp_ToolCalls resp) = 0) then
        let* _ := memory_SaveMessage chatID
                    (msg "assistant" (resp_Content resp)) in
        ret (Return (resp_Content resp) None)
      else
        let toolCallCount :=
          int_add toolCallCount (llen (resp_ToolCalls resp)) in
        if bool_decide (toolCallCount > MaxToolCalls (cfg a)) then
          let m := truncationPrefix +:+ " Here's what I have so far: "
                   +:+ resp_Content resp in
          let* _ := memory_SaveMessage chatID (msg "assistant" m) in
          ret (Return m None)
        else
          let assistantMsg :=
            {| Role := "assistant"; Content := resp_Content resp;
               ToolCalls := resp_ToolCalls resp; ToolCallID := "" |} in
          let messages := messages ++ [assistantMsg] in
          let* messages := executeToolCalls a messages (resp_ToolCalls resp) in
          ret (Continue messages toolCallCount)
  end.

(** The [for { ... }] loop; [fuel] bounds the number of passes the
    model follows. *)
Fixpoint agentLoop (fuel : nat) (a : Agent) (chatID : string)
    (messages : list Message) (toolCallCount : Z)
  : Run (State M W) (string * option error) :=
  match fuel with
  | O => λ s, (Starved, s)
  | S fuel =>
      let* r := loopBody a chatID messages toolCallCount in
      match r with
      | Return text err => ret (text, err)
      | Continue messages toolCallCount =>
          agentLoop fuel a chatID messages toolCallCount
      end
  end.

(** The part of [processMessage] before the loop: the working list
    that enters the first pass. *)
Definition prepareMessages (chatID userText : string)
  : Run (State M W) (list Message) :=
  let* (history, err) := memory_GetHistory chatID 50 in
  let history := match err with Some _ => [] | None => history end in
  let* (summary, _) := memory_GetSummary chatID in
  let messages := [] in
  let messages :=
    if bool_decide (summary ≠ "") then
      (messages ++ [msg "user" ("[Previous conversation summary]: " +:+ summary)])
      ++ [msg "assistant" "I understand the previous context. How can I help?"]
    else messages in
  let messages := messages ++ history in
  let messages := messages ++ [msg "user" userText] in
  let* _ := memory_SaveMessage chatID (msg "user" userText) in
  ret messages.

Definition processMessage (fuel : nat) (a : Agent)
    (chatID userText : string) : Run (State M W) (string * option error) :=
  let* messages := prepareMessages chatID userText in
  agentLoop fuel a chatID messages 0.

Definition HandleDirectMessage := processMessage.

Definition apology : string :=
  "Sorry, I encountered an error processing your message. Please try again.".

(** [handleMessage], with the [OnMessage] closure's publish in front
    of it ([log.Printf] left out). *)
Definition handleMessage (fuel : nat) (a : Agent)
    (m : Channel.InboundMessage) : Run (State M W) unit :=
  let* (response, err) :=
    processMessage fuel a (Channel.ChatID m) (Channel.Text m) in
  let* response :=
    match err with
    | Some err => let* _ := publish "error" (PError err) in ret apology
    | None => ret response
    end in
  match Channel.Get (chanMgr a) (Channel.ChannelName m) with
  | None => ret ()
  | Some ch =>
      let outMsg := {| Channel.out_ChatID := Channel.ChatID m;
                       Channel.out_Text := response;
                       Channel.out_ReplyTo := "" |} in
      let* _ := publish "outbound_message" (POutbound outMsg) in
      let* _ := channel_Send ch outMsg in
      ret ()
  end.

Definition onMessage (fuel : nat) (a : Agent)
    (m : Channel.InboundMessage) : Run (State M W) unit :=
  let* _ := publish "inbound_message" (PInbound m) in
  handleMessage fuel a m.

(** ** Reasoning about runs *)

Lemma bind_Done_inv {A B} (c : Run (State M W) A)
    (k : A → Run (State M W) B) s b s' :
  bind c k s = (Done b, s') →
  ∃ a s1, c s = (Done a, s1) ∧ k a s1 = (Done b, s').
Proof.
  unfold bind. destruct (c s) as [[a| |] s1]; [eauto | done | done].
Qed.

Lemma ret_Done_inv {A} (a b : A) (s s' : State M W) :
  ret a s = (Done b, s') → a = b ∧ s = s'.
Proof. by intros [= -> ->]. Qed.

Lemma deref_Done_inv {A} (p : option A) a (s s' : State M W) :
  deref p s = (Done a, s') → p = Some a ∧ s = s'.
Proof. destruct p; [by intros [= -> ->] | done]. Qed.

Lemma publish_inv topic p (s s' : State M W) u :
  publish topic p s = (Done u, s') → s' = record (PublishCall topic p) s.
Proof. by intros [= <-]. Qed.

Lemma provider_Chat_inv p req (s s' : State M W) r :
  provider_Chat p req s = (Done r, s') →
  r = (Chat p req (world s)).1 ∧
  s' = {| memory := memory s; world := (Chat p req (world s)).2;
          trace := trace s ++ [ChatCall req] |}.
Proof.
  unfold provider_Chat. destruct (Chat p req (world s)) as [r0 w'].
  by intros [= <- <-].
Qed.

Lemma tool_Execute_inv t args (s s' : State M W) r :
  tool_Execute t args s = (Done r, s') →
  r = (Tool.Execute t args (world s)).1 ∧
  s' = {| memory := memory s; world := (Tool.Execute t args (world s)).2;
          trace := trace s ++ [ExecuteCall (Tool.Name t) args] |}.
Proof.
  unfold tool_Execute. destruct (Tool.Execute t args (world s)) as [r0 w'].
  by intros [= <- <-].
Qed.

Lemma memory_SaveMessage_inv chatID m (s s' : State M W) r :
  memory_SaveMessage chatID m s = (Done r, s') →
  s' = {| memory := (Memory.SaveMessage chatID m (memory s)).2;
          world := world s;
          trace := trace s ++ [SaveMessageCall chatID m] |}.
Proof.
  unfold memory_SaveMessage.
  destruct (Memory.SaveMessage chatID m (memory s)) as [r0 m'].
  by intros [= <- <-].
Qed.

Lemma memory_SaveSummary_inv chatID x (s s' : State M W) r :
  memory_SaveSummary chatID x s = (Done r, s') →
  s' = {| memory := (Memory.SaveSummary chatID x (memory s)).2;
          world := world s;
          trace := trace s ++ [SaveSummaryCall chatID x] |}.
Proof.
  unfold memory_SaveSummary.
  destruct (Memory.SaveSummary chatID x (memory s)) as [r0 m'].
  by intros [= <- <-].
Qed.

Lemma memory_GetHistory_inv chatID n (s s' : State M W) r :
  memory_GetHistory chatID n s = (Done r, s') →
  r = (Memory.GetHistory chatID n (memory s)).1 ∧
  s' = {| memory := (Memory.GetHistory chatID n (memory s)).2;
          world := world s;
          trace := trace s ++ [GetHistoryCall chatID n] |}.
Proof.
  unfold memory_GetHistory.
  destruct (Memory.GetHistory chatID n (memory s)) as [r0 m'].
  by intros [= <- <-].
Qed.

Lemma memory_GetSummary_inv chatID (s s' : State M W) r :
  memory_GetSummary chatID s = (Done r, s') →
  r = (Memory.GetSummary chatID (memory s)).1 ∧
  s' = {| memory := (Memory.GetSummary chatID (memory s)).2;
          world := world s;
          trace := trace s ++ [GetSummaryCall chatID] |}.
Proof.
  unfold memory_GetSummary.
  destruct (Memory.GetSummary chatID (memory s)) as [r0 m'].
  by intros [= <- <-].
Qed.

(** Peel a finished run apart, one call at a time. *)
Ltac run_inv :=
  repeat match goal with
  | H : bind _ _ _ = (Done _, _) |- _ =>
      apply bind_Done_inv in H as (? & ? & ? & H)
  | H : ret _ _ = (Done _, _) |- _ =>
      apply ret_Done_inv in H as [? ?]; simplify_eq
  | H : deref _ _ = (Done _, _) |- _ =>
      apply deref_Done_inv in H as [? ?]; subst
  | H : publish _ _ _ = (Done _, _) |- _ =>
      apply publish_inv in H; subst
  | H : provider_Chat _ _ _ = (Done _, _) |- _ =>
      apply provider_Chat_inv in H as [? ?]; subst
  | H : tool_Execute _ _ _ = (Done _, _) |- _ =>
      apply tool_Execute_inv in H as [? ?]; subst
  | H : memory_SaveMessage _ _ _ = (Done _, _) |- _ =>
      apply memory_SaveMessage_inv in H; subst
  | H : memory_SaveSummary _ _ _ = (Done _, _) |- _ =>
      apply memory_SaveSummary_inv in H; subst
  | H : memory_GetHistory _ _ _ = (Done _, _) |- _ =>
      apply memory_GetHistory_inv in H as [? ?]; subst
  | H : memory_GetSummary _ _ _ = (Done _, _) |- _ =>
      apply memory_GetSummary_inv in H as [? ?]; subst
  end.

(** The summary the context manager can use: summarization is due,
    there is a prefix to summarize, and the summarizer's provider call
    answers without error and with non-empty content. *)
Definition usableSummary (a : Agent) (messages : list Message) (w : W)
    (resp : LLMResponse) : Prop :=
  shouldSummarize (ctxManager a) messages = true ∧
  4 < llen messages ∧
  (Chat (cm_provider (ctxManager a))
        (summaryRequest (take (length messages - 4) messages)) w).1
    = (Some resp, None) ∧
  resp_Content resp ≠ "".

(** C10. Whenever the summarization block of the loop runs to its end:
    unless the summarizer's provider call succeeded with non-empty
    content, the working list comes out exactly as it went in, the store
    is the one that went in, and at most the summarizer's provider call
    was made; with a usable summary the working list becomes the two
    summary messages followed by the last four messages, and the summary
    is saved for the chat. *)
Theorem summarization_leaves_list_unless_usable a chatID messages s out s' :
  summarizeIfNeeded a chatID messages s = (Done out, s') →
  ((¬ ∃ resp, usableSummary a messages (world s) resp) →
     out = messages ∧ memory s' = memory s ∧
     (trace s' = trace s ∨
      trace s' = trace s ++
        [ChatCall (summaryRequest (take (length messages - 4) messages))]))
  ∧
  (∀ resp, usableSummary a messages (world s) resp →
     out = [msg "user" ("[Conversation summary]: " +:+ resp_Content resp);
            msg "assistant" "I understand the context. Continuing..."]
           ++ drop (length messages - 4) messages ∧
     memory s' =
       (Memory.SaveSummary chatID (resp_Content resp) (memory s)).2 ∧
     trace s' = trace s ++
       [ChatCall (summaryRequest (take (length messages - 4) messages));
        SaveSummaryCall chatID (resp_Content resp)]).
Proof.
  unfold summarizeIfNeeded, usableSummary, summarize.
  destruct (shouldSummarize (ctxManager a) messages) eqn:Hshould.
  2:{ intros H. run_inv. split; [auto | naive_solver]. }
  case_bool_decide as Hlen.
  { intros H. run_inv. simpl in H. run_inv.
    split; [auto | intros resp (_ & ? & _); lia]. }
  intros H. run_inv.
  destruct (Chat _ _ (world s)) as [[resp err] w'] eqn:Hchat; simpl in *.
  destruct err as [e|]; run_inv; simpl in H.
  { run_inv. split; [auto | naive_solver]. }
  case_bool_decide as Hc; run_inv; simpl.
  - split.
    + intros Hn. destruct Hn. eexists. split_and!; [done | lia | done | naive_solver].
    + intros resp (_ & _ & [= ->] & _). by rewrite <-app_assoc.
  - split; [auto | naive_solver].
Qed.

(** ** What a run leaves in the store *)

(** The [SaveMessage] calls among a sequence of calls. *)
Definition saved (tr : list Effect) : list (string * Message) :=
  omap (λ e, match e with
             | SaveMessageCall c m => Some (c, m)
             | _ => None
             end) tr.

(** The store after the memory calls of [tr], made in that order. *)
Definition replay (tr : list Effect) (m : M) : M :=
  foldl (λ m e,
           match e with
           | GetHistoryCall c n => (Memory.GetHistory c n m).2
           | GetSummaryCall c => (Memory.GetSummary c m).2
           | SaveMessageCall c x => (Memory.SaveMessage c x m).2
           | SaveSummaryCall c x => (Memory.SaveSummary c x m).2
           | _ => m
           end) m tr.

(** [s'] is [s] after the calls [tr]. *)
Definition after (s s' : State M W) (tr : list Effect) : Prop :=
  trace s' = trace s ++ tr ∧ memory s' = replay tr (memory s).

Lemma after_refl s : after s s [].
Proof. split; [by rewrite app_nil_r | done]. Qed.

Lemma after_trans s1 s2 s3 tr1 tr2 :
  after s1 s2 tr1 → after s2 s3 tr2 → after s1 s3 (tr1 ++ tr2).
Proof.
  intros [Ht1 Hm1] [Ht2 Hm2]. split.
  - by rewrite Ht2, Ht1, app_assoc.
  - unfold replay in *. by rewrite foldl_app, <-Hm1.
Qed.

Lemma after_step s e m w :
  m = replay [e] (memory s) →
  after s {| memory := m; world := w; trace := trace s ++ [e] |} [e].
Proof. by intros ->. Qed.

Lemma saved_app tr1 tr2 : saved (tr1 ++ tr2) = saved tr1 ++ saved tr2.
Proof. apply omap_app. Qed.

Local Hint Resolve after_refl : core.

Lemma summarizeIfNeeded_after a chatID messages s out s' :
  summarizeIfNeeded a chatID messages s = (Done out, s') →
  ∃ tr, after s s' tr ∧ saved tr = [].
Proof.
  unfold summarizeIfNeeded, summarize. intros H.
  destruct (shouldSummarize _ _); [|run_inv; eauto].
  case_bool_decide; run_inv; simpl in H; run_inv; [eauto|].
  destruct (Chat _ _ (world s)) as [[resp [e|]] w']; simpl in *; run_inv;
    simpl in H.
  - run_inv. eexists [_]. split; [by apply after_step | done].
  - case_bool_decide; run_inv.
    + eexists [_; _].
      split; [split; simpl; [by rewrite <-app_assoc | done] | done].
    + eexists [_]. split; [by apply after_step | done].
Qed.

Lemma executeToolCall_after a messages tc s out s' :
  executeToolCall a messages tc s = (Done out, s') →
  ∃ tr, after s s' tr ∧ saved tr = [].
Proof.
  unfold executeToolCall, Tool.Get. intros H. run_inv.
  destruct (tools a !! tc_Name tc) as [t|]; run_inv; simplify_eq.
  - destruct (Tool.Execute _ _ _) as [[res [e|]] w']; simpl in *; run_inv.
    + eexists [_; _; _].
      split; [split; simpl; [by rewrite <-!app_assoc | done] | done].
    + destruct (Tool.IsError _); run_inv;
        (eexists [_; _; _];
         split; [split; simpl; [by rewrite <-!app_assoc | done] | done]).
  - eexists [_; _].
    split; [split; simpl; [by rewrite <-!app_assoc | done] | done].
Qed.

Lemma executeToolCalls_after a toolCalls : ∀ messages s out s',
  executeToolCalls a messages toolCalls s = (Done out, s') →
  ∃ tr, after s s' tr ∧ saved tr = [].
Proof.
  induction toolCalls as [|tc rest IH]; intros messages s out s' H;
    simpl in H; run_inv; [eauto|].
  match goal with
  | H1 : executeToolCall _ _ _ _ = _ |- _ =>
      apply executeToolCall_after in H1 as (tr1 & Ha1 & Hs1)
  end.
  apply IH in H as (tr2 & Ha2 & Hs2).
  exists (tr1 ++ tr2). split; [by eapply after_trans|].
  by rewrite saved_app, Hs1, Hs2.
Qed.

(** An error handed back by a provider call, wrapped by the loop. *)
Definition providerFailure (a : Agent) (err : error) : Prop :=
  ∃ e req w, err = WrapError "LLM error: " e ∧
             (Chat (provider a) req w).1.2 = Some e.

(** The text of a turn that ends well: the content of a response
    without tool calls, or the truncation message around the content of
    a response with tool calls. *)
Definition finalText (a : Agent) (text : string) : Prop :=
  ∃ resp req w,
    (Chat (provider a) req w).1 = (Some resp, None) ∧
    ((resp_ToolCalls resp = [] ∧ text = resp_Content resp) ∨
     (resp_ToolCalls resp ≠ [] ∧
      text = truncationPrefix +:+ " Here's what I have so far: "
             +:+ resp_Content resp)).

Lemma loopBody_after a chatID messages count s r s' :
  loopBody a chatID messages count s = (Done r, s') →
  ∃ tr, after s s' tr ∧
    match r with
    | Return text None =>
        saved tr = [(chatID, msg "assistant" text)] ∧ finalText a text
    | Return _ (Some err) => saved tr = [] ∧ providerFailure a err
    | Continue _ _ => saved tr = []
    end.
Proof.
  unfold loopBody. intros H. run_inv.
  match goal with
  | H1 : summarizeIfNeeded _ _ _ _ = _ |- _ =>
      apply summarizeIfNeeded_after in H1 as (tr0 & Ha0 & Hs0)
  end.
  match goal with
  | H : context [Chat ?p ?q ?w] |- _ =>
      destruct (Chat p q w) as [[resp [e|]] w'] eqn:Hchat; simpl in H
  end; run_inv.
  { eexists (tr0 ++ [_; _]). split.
    - eapply after_trans; [done|]. split; simpl; [by rewrite <-!app_assoc | done].
    - rewrite saved_app, Hs0. split; [done|].
      eexists _, _, _. split; [done|]. by rewrite Hchat. }
  simpl in H. case_bool_decide as Hno; run_inv.
  { eexists (tr0 ++ [_; _; _; _]). split.
    - eapply after_trans; [done|]. split; simpl; [by rewrite <-!app_assoc | done].
    - rewrite saved_app, Hs0. split; [done|].
      eexists _, _, _. split; [by rewrite Hchat|]. left. split; [|done].
      destruct (resp_ToolCalls _); [done | unfold llen in Hno; simpl in Hno; lia]. }
  case_bool_decide as Hover; run_inv.
  { eexists (tr0 ++ [_; _; _; _]). split.
    - eapply after_trans; [done|]. split; simpl; [by rewrite <-!app_assoc | done].
    - rewrite saved_app, Hs0. split; [done|].
      eexists _, _, _. split; [by rewrite Hchat|]. right. split; [|done].
      by intros Hnil; rewrite Hnil in Hno. }
  match goal with
  | H1 : executeToolCalls _ _ _ _ = _ |- _ =>
      apply executeToolCalls_after in H1 as (tr1 & Ha1 & Hs1)
  end.
  eexists (tr0 ++ [_; _; _] ++ tr1). split.
  - eapply after_trans; [done|]. eapply after_trans; [|done].
    split; simpl; [by rewrite <-!app_assoc | done].
  - by rewrite !saved_app, Hs0, Hs1.
Qed.

Lemma agentLoop_after fuel a chatID : ∀ messages count s text err s',
  agentLoop fuel a chatID messages count s = (Done (text, err), s') →
  ∃ tr, after s s' tr ∧
    match err with
    | None => saved tr = [(chatID, msg "assistant" text)] ∧ finalText a text
    | Some err => saved tr = [] ∧ providerFailure a err
    end.
Proof.
  induction fuel as [|fuel IH]; intros messages count s text err s' H;
    simpl in H; [done|].
  run_inv.
  match goal with
  | H1 : loopBody _ _ _ _ _ = (Done ?r, _) |- _ =>
      apply loopBody_after in H1 as (tr1 & Ha1 & Hr); destruct r
  end; run_inv.
  - exists tr1. split; [done|]. by destruct err.
  - apply IH in H as (tr2 & Ha2 & Hr2).
    exists (tr1 ++ tr2). split; [by eapply after_trans|].
    rewrite saved_app, Hr. by destruct err.
Qed.

(** What [prepareMessages] does, call by call. *)
Lemma prepareMessages_run chatID userText (s : State M W) :
  let h := Memory.GetHistory chatID 50 (memory s) in
  let g := Memory.GetSummary chatID h.2 in
  let history := match h.1.2 with Some _ => [] | None => h.1.1 end in
  let summary := g.1.1 in
  prepareMessages chatID userText s =
    (Done ((if bool_decide (summary ≠ "") then
              [msg "user" ("[Previous conversation summary]: " +:+ summary);
               msg "assistant"
                   "I understand the previous context. How can I help?"]
            else []) ++ history ++ [msg "user" userText]),
     {| memory := (Memory.SaveMessage chatID (msg "user" userText) g.2).2;
        world := world s;
        trace := trace s ++
          [GetHistoryCall chatID 50; GetSummaryCall chatID;
           SaveMessageCall chatID (msg "user" userText)] |}).
Proof.
  unfold prepareMessages, bind, memory_GetHistory, memory_GetSummary,
    memory_SaveMessage, ret. simpl.
  destruct (Memory.GetHistory chatID 50 (memory s)) as [[hist herr] m1].
  simpl. destruct (Memory.GetSummary chatID m1) as [[summary serr] m2].
  simpl.
  destruct (Memory.SaveMessage chatID (msg "user" userText) m2) as [r m3].
  simpl. by rewrite <-!app_assoc.
Qed.

(** ** The claims about the loop *)

(** C1. A turn that [processMessage] completes without error makes
    exactly two [SaveMessage] calls, both for this chat and both without
    tool calls or tool-call id: the user message, and then one assistant
    message whose content is the text returned. That text is the content
    of a provider response without tool calls, or the truncation message.
    The store at the end is the initial store after the run's memory
    calls, so no assistant message carrying tool calls and no tool
    message reaches it. *)
Theorem completed_turn_persists_one_assistant_message
    fuel a chatID userText s text s' :
  processMessage fuel a chatID userText s = (Done (text, None), s') →
  ∃ tr, trace s' = trace s ++ tr ∧
        memory s' = replay tr (memory s) ∧
        saved tr = [(chatID, msg "user" userText);
                    (chatID, msg "assistant" text)] ∧
        finalText a text.
Proof.
  unfold processMessage. intros H. run_inv.
  match goal with
  | H1 : prepareMessages _ _ _ = _ |- _ =>
      rewrite prepareMessages_run in H1; injection H1 as <- <-
  end.
  apply agentLoop_after in H as (tr & [Ht Hm] & Hs & Hf). simpl in *.
  exists ([GetHistoryCall chatID 50; GetSummaryCall chatID;
           SaveMessageCall chatID (msg "user" userText)] ++ tr).
  split_and!.
  - by rewrite Ht, <-app_assoc.
  - rewrite Hm. unfold replay. by rewrite foldl_app.
  - by rewrite saved_app, Hs.
  - done.
Qed.






(** The order the claim words: the user message saved first, the
    history loaded second. *)
Definition savesUserBeforeLoading (chatID userText : string)
    (s : State M W) : Prop :=
  ∃ messages s' tr,
    prepareMessages chatID userText s = (Done messages, s') ∧
    trace s' = trace s ++
      SaveMessageCall chatID (msg "user" userText)
      :: GetHistoryCall chatID 50 :: tr.

(** C9, as the code has it. A turn starts by asking the store for the
    50 most recent messages of the chat, then for its summary, and builds
    the working list from them: the two summary messages when the
    summary is not empty, the history (none if loading failed), and the
    new user message last. Only then does it append the user message to
    the store, so the loaded history never contains it. *)
Theorem history_loaded_before_user_message_saved chatID userText
    (s : State M W) :
  let h := Memory.GetHistory chatID 50 (memory s) in
  let g := Memory.GetSummary chatID h.2 in
  let history := match h.1.2 with Some _ => [] | None => h.1.1 end in
  let summary := g.1.1 in
  prepareMessages chatID userText s =
    (Done ((if bool_decide (summary ≠ "") then
              [msg "user" ("[Previous conversation summary]: " +:+ summary);
               msg "assistant"
                   "I understand the previous context. How can I help?"]
            else []) ++ history ++ [msg "user" userText]),
     {| memory := (Memory.SaveMessage chatID (msg "user" userText) g.2).2;
        world := world s;
        trace := trace s ++
          [GetHistoryCall chatID 50; GetSummaryCall chatID;
           SaveMessageCall chatID (msg "user" userText)] |}).
Proof. apply prepareMessages_run. Qed.

End Agent.

(** ** Scripted collaborators and the specification's scenarios *)

(** The outside world of the scenarios: how many provider calls were
    answered, and which tools ran on which arguments. *)
Record Stage := {
  answered : nat;
  ran : list (string * RawMessage)
}.

(** A provider that reads its answers off a script. *)
Definition scriptedProvider
    (script : list (option LLMResponse * option error)) : Provider Stage :=
  {| Name := "scripted"; DefaultModel := "";
     Chat := λ _ w,
       (nth (answered w) script (None, Some (PlainError "script exhausted")),
        {| answered := S (answered w); ran := ran w |}) |}.

(** A tool with a fixed outcome. *)
Definition fixedTool (name : string)
    (outcome : option Tool.Result * option error) : Tool.Tool Stage :=
  {| Tool.Name := name; Tool.Description := ""; Tool.Parameters := "{}";
     Tool.Execute := λ args w,
       (outcome, {| answered := answered w; ran := ran w ++ [(name, args)] |}) |}.

Definition toolResponse (c : string) (tcs : list ToolCall) : LLMResponse :=
  {| resp_Content := c; resp_ToolCalls := tcs;
     resp_Usage := {| InputTokens := 0; OutputTokens := 0 |};
     resp_StopReason := "" |}.

Definition defaults : AgentConfig :=
  {| SystemPrompt :=
       "You are OpenDan, a helpful AI assistant. You can use tools to accomplish tasks.";
     MaxTokens := 4096; Temperature := (7 # 10)%Q; MaxToolCalls := 20;
     ContextWindow := 100000; SummarizeAt := 80000 |}.

#[local] Instance scenarioMemory : Memory.Memory Memory.DB :=
  Memory.SQLiteMemory (λ _, "") (λ _, []).

Definition start : State Memory.DB Stage :=
  {| memory := Memory.emptyDB;
     world := {| answered := 0; ran := [] |};
     trace := [] |}.

Definition listCall : ToolCall :=
  {| tc_ID := "t1"; tc_Name := "filesystem";
     tc_Arguments := "{action:list}" |}.

Definition workspaceTools : Tool.Registry Stage :=
  Tool.Register
    (fixedTool "filesystem"
       (Some {| Tool.Output := "  a.txt"; Tool.Error_ := "";
                Tool.IsError := false |}, None))
    (Tool.Register
       (fixedTool "shell"
          (Some {| Tool.Output := ""; Tool.Error_ := "exit status 1";
                   Tool.IsError := true |}, None))
       (Tool.Register
          (fixedTool "browser" (None, Some (PlainError "no browser")))
          Tool.NewRegistry)).

(** Scenario 1: no tools, a single leg. *)
Definition greeter : Agent :=
  New defaults (scriptedProvider [(Some (textResponse "Hi there!"), None)])
      workspaceTools ∅.

Example scenario_no_tools :
  (processMessage 3 greeter "c1" "Hello" start).1 = Done ("Hi there!", None) ∧
  Memory.messages (memory (processMessage 3 greeter "c1" "Hello" start).2) =
    [ {| Memory.chat_id := "c1"; Memory.role := "user";
         Memory.content := "Hello"; Memory.tool_calls := None;
         Memory.tool_call_id := None |};
      {| Memory.chat_id := "c1"; Memory.role := "assistant";
         Memory.content := "Hi there!"; Memory.tool_calls := None;
         Memory.tool_call_id := None |} ].
Proof. split; vm_compute; reflexivity. Qed.

(** Scenario 2: one tool call, two legs. *)
Definition lister : Agent :=
  New defaults
      (scriptedProvider
         [(Some (toolResponse "" [listCall]), None);
          (Some (textResponse "I see a.txt."), None)])
      workspaceTools ∅.

Example scenario_single_tool :
  (processMessage 3 lister "c1" "what is in the workspace" start).1
    = Done ("I see a.txt.", None) ∧
  saved (trace (processMessage 3 lister "c1" "what is in the workspace" start).2)
    = [("c1", msg "user" "what is in the workspace");
       ("c1", msg "assistant" "I see a.txt.")] ∧
  ran (world (processMessage 3 lister "c1" "what is in the workspace" start).2)
    = [("filesystem", "{action:list}")].
Proof. split_and!; vm_compute; reflexivity. Qed.

(** Scenario 3: a budget of two tool calls and a provider that asks for
    one tool call on every leg. *)
Definition insatiable : Agent :=
  New {| SystemPrompt := ""; MaxTokens := 4096; Temperature := (7 # 10)%Q;
         MaxToolCalls := 2; ContextWindow := 100000; SummarizeAt := 80000 |}
      (scriptedProvider
         [(Some (toolResponse "one" [listCall]), None);
          (Some (toolResponse "two" [listCall]), None);
          (Some (toolResponse "three" [listCall]), None);
          (Some (toolResponse "four" [listCall]), None)])
      workspaceTools ∅.

Example scenario_budget :
  (processMessage 9 insatiable "c1" "go" start).1
    = Done ("I've reached the maximum number of tool calls for this request. Here's what I have so far: three", None) ∧
  world (processMessage 9 insatiable "c1" "go" start).2
    = {| answered := 3;
         ran := [("filesystem", "{action:list}");
                 ("filesystem", "{action:list}")] |}.
Proof. split; vm_compute; reflexivity. Qed.

(** The two-leg turn of scenario 2 as an instance of C1. *)
Lemma completed_turn_persists_one_assistant_message_witness :
  ∃ tr,
    trace (processMessage 3 lister "c1" "what is in the workspace" start).2
      = trace start ++ tr ∧
    memory (processMessage 3 lister "c1" "what is in the workspace" start).2
      = replay tr (memory start) ∧
    saved tr = [("c1", msg "user" "what is in the workspace");
                ("c1", msg "assistant" "I see a.txt.")] ∧
    finalText lister "I see a.txt.".
Proof.
  apply (completed_turn_persists_one_assistant_message
           3 lister "c1" "what is in the workspace" start).
  vm_compute. reflexivity.
Defined.

(** Four tool calls, one for each case of C6: a tool that answers, one
    that reports a domain error, one that fails with a transport error,
    and a name nobody registered. *)
Definition fourCalls : list ToolCall :=
  [listCall;
   {| tc_ID := "t2"; tc_Name := "shell"; tc_Arguments := "{command:false}" |};
   {| tc_ID := "t3"; tc_Name := "browser"; tc_Arguments := "{}" |};
   {| tc_ID := "t4"; tc_Name := "teleport"; tc_Arguments := "{}" |}].

Example four_calls_four_messages :
  (executeToolCalls lister [] fourCalls start).1 =
    Done [ {| Role := "tool"; Content := "  a.txt"; ToolCalls := [];
              ToolCallID := "t1" |};
           {| Role := "tool"; Content := "Error: exit status 1";
              ToolCalls := []; ToolCallID := "t2" |};
           {| Role := "tool"; Content := "Error executing tool: no browser";
              ToolCalls := []; ToolCallID := "t3" |};
           {| Role := "tool"; Content := "Error: tool 'teleport' not found";
              ToolCalls := []; ToolCallID := "t4" |} ].
Proof. vm_compute. reflexivity. Qed.

(** The first pass of scenario 2 as an instance of C6: the state the
    loop is entered in, and the working list it is entered with. *)
Definition entered : State Memory.DB Stage :=
  (prepareMessages "c1" "what is in the workspace" start).2.

Definition asked : list Message := [msg "user" "what is in the workspace"].


(** What the pass of the witness hands on: the tool's output has
    reached the working list as a [tool] message with the call's id. *)
Example first_pass_hands_on_tool_message :
  (loopBody lister "c1" asked 0 entered).1
  = Done (Continue
            [msg "user" "what is in the workspace";
             {| Role := "assistant"; Content := "";
                ToolCalls := [listCall]; ToolCallID := "" |};
             {| Role := "tool"; Content := "  a.txt"; ToolCalls := [];
                ToolCallID := "t1" |}] 1).
Proof. vm_compute. reflexivity. Qed.

(** A summarizer whose provider call fails, as an instance of C10. *)
Definition forgetful : Agent :=
  New {| SystemPrompt := ""; MaxTokens := 4096; Temperature := (7 # 10)%Q;
         MaxToolCalls := 20; ContextWindow := 10; SummarizeAt := 3 |}
      (scriptedProvider
         [(None, Some (LLMError ErrorServerError "500" None))])
      workspaceTools ∅.

Definition fiveMessages : list Message :=
  [msg "user" "good morning"; msg "assistant" "good morning to you";
   msg "user" "how are you"; msg "assistant" "very well";
   msg "user" "what is new"].

Lemma summarization_leaves_list_unless_usable_witness :
  ((¬ ∃ resp, usableSummary forgetful fiveMessages (world start) resp) →
     fiveMessages = fiveMessages ∧
     memory (summarizeIfNeeded forgetful "c1" fiveMessages start).2
       = memory start ∧
     (trace (summarizeIfNeeded forgetful "c1" fiveMessages start).2
        = trace start ∨
      trace (summarizeIfNeeded forgetful "c1" fiveMessages start).2
        = trace start ++
          [ChatCall (summaryRequest
                       (take (length fiveMessages - 4) fiveMessages))]))
  ∧
  (∀ resp, usableSummary forgetful fiveMessages (world start) resp →
     fiveMessages =
       [msg "user" ("[Conversation summary]: " +:+ resp_Content resp);
        msg "assistant" "I understand the context. Continuing..."]
       ++ drop (length fiveMessages - 4) fiveMessages ∧
     memory (summarizeIfNeeded forgetful "c1" fiveMessages start).2 =
       (Memory.SaveSummary "c1" (resp_Content resp) (memory start)).2 ∧
     trace (summarizeIfNeeded forgetful "c1" fiveMessages start).2 =
       trace start ++
       [ChatCall (summaryRequest
                    (take (length fiveMessages - 4) fiveMessages));
        SaveSummaryCall "c1" (resp_Content resp)]).
Proof.
  apply (summarization_leaves_list_unless_usable forgetful "c1" fiveMessages
           start fiveMessages).
  vm_compute. reflexivity.
Defined.

Example failed_summary_keeps_working_list :
  shouldSummarize (ctxManager forgetful) fiveMessages = true ∧
  (summarizeIfNeeded forgetful "c1" fiveMessages start).1 = Done fiveMessages ∧
  Memory.summaries
    (memory (summarizeIfNeeded forgetful "c1" fiveMessages start).2) = ∅.
Proof. split_and!; vm_compute; reflexivity. Qed.

(** C9 as worded fails on the first message of a fresh chat: the history
    is asked for before anything is saved. *)
Lemma user_message_not_saved_before_history_loaded :
  ¬ savesUserBeforeLoading (M := Memory.DB) (W := Stage) "c1" "Hello" start.
Proof.
  intros (messages & s' & tr & Hrun & Htr).
  rewrite prepareMessages_run in Hrun. injection Hrun as <- <-.
  simpl in Htr. discriminate Htr.
Qed.

(** Had the user message been saved first, the loaded history would
    already hold it and the working list would carry it twice. *)
Example working_list_has_user_message_once :
  (prepareMessages "c1" "Hello" start).1 = Done [msg "user" "Hello"] ∧
  (let saved_first :=
     (Memory.SaveMessage "c1" (msg "user" "Hello") Memory.emptyDB).2 in
   (Memory.GetHistory "c1" 50 saved_first).1.1 ++ [msg "user" "Hello"])
  = [msg "user" "Hello"; msg "user" "Hello"].
Proof. split; vm_compute; reflexivity. Qed.

(** ** More about turns: what a run calls, and how often *)

Section Turns.
Context {M W : Type} `{Mem : Memory.Memory M}.

Lemma channel_Send_inv (c : Channel.Channel W) m (s s' : State M W) r :
  channel_Send c m s = (Done r, s') →
  s' = {| memory := memory s; world := (Channel.Send c m (world s)).2;
          trace := trace s ++ [SendCall (Channel.Name c) m] |}.
Proof.
  unfold channel_Send. destruct (Channel.Send c m (world s)) as [r0 w'].
  by intros [= <- <-].
Qed.

Ltac peel :=
  repeat match goal with
  | H : bind _ _ _ = (Done _, _) |- _ =>
      apply bind_Done_inv in H as (? & ? & ? & H)
  | H : ret _ _ = (Done _, _) |- _ =>
      apply ret_Done_inv in H as [? ?]; simplify_eq
  | H : deref _ _ = (Done _, _) |- _ =>
      apply deref_Done_inv in H as [? ?]; subst
  | H : publish _ _ _ = (Done _, _) |- _ =>
      apply publish_inv in H; subst
  | H : provider_Chat _ _ _ = (Done _, _) |- _ =>
      apply provider_Chat_inv in H as [? ?]; subst
  | H : tool_Execute _ _ _ = (Done _, _) |- _ =>
      apply tool_Execute_inv in H as [? ?]; subst
  | H : channel_Send _ _ _ = (Done _, _) |- _ =>
      apply channel_Send_inv in H; subst
  | H : memory_SaveMessage _ _ _ = (Done _, _) |- _ =>
      apply memory_SaveMessage_inv in H; subst
  | H : memory_SaveSummary _ _ _ = (Done _, _) |- _ =>
      apply memory_SaveSummary_inv in H; subst
  | H : memory_GetHistory _ _ _ = (Done _, _) |- _ =>
      apply memory_GetHistory_inv in H as [? ?]; subst
  | H : memory_GetSummary _ _ _ = (Done _, _) |- _ =>
      apply memory_GetSummary_inv in H as [? ?]; subst
  end.

(** The calls a run made: what its final trace has beyond the trace it
    started from. *)
Definition since (s s' : State M W) : list Effect :=
  drop (length (trace s)) (trace s').

Lemma since_app (s s' : State M W) tr :
  trace s' = trace s ++ tr → since s s' = tr.
Proof. intros H. unfold since. by rewrite H, drop_app_length. Qed.

(** The tools run, the messages sent out and the provider responses
    published, in order. *)
Definition executed (tr : list Effect) : list (string * RawMessage) :=
  omap (λ e, match e with
             | ExecuteCall name args => Some (name, args)
             | _ => None
             end) tr.

Definition sent (tr : list Effect)
  : list (string * Channel.OutboundMessage) :=
  omap (λ e, match e with
             | SendCall c m => Some (c, m)
             | _ => None
             end) tr.

Definition responses (tr : list Effect) : list LLMResponse :=
  omap (λ e, match e with
             | PublishCall _ (PResponse (Some r)) => Some r
             | _ => None
             end) tr.

(** No response carries [2^62] tool calls or more: the counter of the
    loop, a Go [int], cannot wrap around. *)
Definition modest (tr : list Effect) : bool :=
  forallb (λ r, bool_decide (llen (resp_ToolCalls r) < 2 ^ 62))
          (responses tr).

(** The calls a turn for [chatID] may make: store calls for that chat,
    provider calls, tool runs and bus events; nothing goes out through
    a channel. *)
Definition turnEvent (chatID : string) (e : Effect) : bool :=
  match e with
  | GetHistoryCall c _ | GetSummaryCall c
  | SaveMessageCall c _ | SaveSummaryCall c _ => bool_decide (c = chatID)
  | ChatCall _ | ExecuteCall _ _ | PublishCall _ _ => true
  | SendCall _ _ => false
  end.

Lemma executed_app tr1 tr2 : executed (tr1 ++ tr2) = executed tr1 ++ executed tr2.
Proof. apply omap_app. Qed.

Lemma sent_app tr1 tr2 : sent (tr1 ++ tr2) = sent tr1 ++ sent tr2.
Proof. apply omap_app. Qed.

Lemma responses_app tr1 tr2 :
  responses (tr1 ++ tr2) = responses tr1 ++ responses tr2.
Proof. apply omap_app. Qed.

Lemma modest_app tr1 tr2 :
  modest (tr1 ++ tr2) = modest tr1 && modest tr2.
Proof. unfold modest. by rewrite responses_app, forallb_app. Qed.

Lemma turnEvent_sent chatID tr :
  forallb (turnEvent chatID) tr = true → sent tr = [].
Proof.
  induction tr as [|e tr IH]; [done|]. simpl.
  intros [He Htr]%andb_true_iff. destruct e; try done; by apply IH.
Qed.

(** *** The summarization block *)

Lemma summarizeIfNeeded_calls (a : Agent (W := W)) chatID messages
    (s s' : State M W) out :
  summarizeIfNeeded a chatID messages s = (Done out, s') →
  ∃ tr, trace s' = trace s ++ tr ∧
        forallb (turnEvent chatID) tr = true ∧
        executed tr = [] ∧ responses tr = [].
Proof.
  unfold summarizeIfNeeded, summarize. intros H.
  destruct (shouldSummarize _ _); [|peel; exists []; by rewrite app_nil_r].
  case_bool_decide; peel; simpl in H; peel;
    [exists []; by rewrite app_nil_r|].
  destruct (Chat _ _ (world s)) as [[resp [e|]] w']; simpl in *; peel;
    simpl in H.
  - peel. by eexists [_].
  - case_bool_decide; peel.
    + eexists [_; _]. simpl. rewrite <-app_assoc.
      split; [done|]. simpl. by rewrite bool_decide_true.
    + by eexists [_].
Qed.

(** *** The tool calls of one response *)

Lemma executeToolCall_calls (a : Agent (W := W)) (chatID : string) messages tc
    (s s' : State M W) out :
  executeToolCall a messages tc s = (Done out, s') →
  ∃ tr, trace s' = trace s ++ tr ∧
        forallb (turnEvent chatID) tr = true ∧
        (length (executed tr) ≤ 1)%nat ∧ responses tr = [].
Proof.
  unfold executeToolCall, Tool.Get. intros H. peel.
  destruct (tools a !! tc_Name tc) as [t|]; peel; simplify_eq.
  - destruct (Tool.Execute _ _ _) as [[res [e|]] w']; simpl in *; peel.
    + eexists [_; _; _]. simpl. rewrite <-!app_assoc.
      split_and!; [done | done | simpl; lia | done].
    + destruct (Tool.IsError _); peel;
        (eexists [_; _; _]; simpl; rewrite <-!app_assoc;
         split_and!; [done | done | simpl; lia | done]).
  - eexists [_; _]. simpl. rewrite <-!app_assoc.
    split_and!; [done | done | simpl; lia | done].
Qed.

Lemma executeToolCalls_calls (a : Agent (W := W)) (chatID : string) toolCalls :
  ∀ messages (s : State M W) out (s' : State M W),
  executeToolCalls a messages toolCalls s = (Done out, s') →
  ∃ tr, trace s' = trace s ++ tr ∧
        forallb (turnEvent chatID) tr = true ∧
        (length (executed tr) ≤ length toolCalls)%nat ∧ responses tr = [].
Proof.
  induction toolCalls as [|tc rest IH]; intros messages s out s' H;
    simpl in H; peel.
  { exists []. by rewrite app_nil_r. }
  match goal with
  | H1 : executeToolCall _ _ _ _ = _ |- _ =>
      apply (executeToolCall_calls _ chatID) in H1
        as (tr1 & Ht1 & He1 & Hx1 & Hr1)
  end.
  apply IH in H as (tr2 & Ht2 & He2 & Hx2 & Hr2).
  exists (tr1 ++ tr2). split_and!.
  - by rewrite Ht2, Ht1, app_assoc.
  - by rewrite forallb_app, He1, He2.
  - rewrite executed_app, length_app. simpl. lia.
  - by rewrite responses_app, Hr1, Hr2.
Qed.

(** *** One pass of the loop *)

Lemma loopBody_calls (a : Agent (W := W)) chatID messages count
    (s s' : State M W) r :
  loopBody a chatID messages count s = (Done r, s') →
  ∃ tr, trace s' = trace s ++ tr ∧
        forallb (turnEvent chatID) tr = true ∧
        match r with
        | Return text err =>
            executed tr = [] ∧ (err ≠ None → text = "")
        | Continue _ count' =>
            ∃ resp, responses tr = [resp] ∧ resp_ToolCalls resp ≠ [] ∧
              count' = int_add count (llen (resp_ToolCalls resp)) ∧
              count' ≤ MaxToolCalls (cfg a) ∧
              (length (executed tr) ≤ length (resp_ToolCalls resp))%nat
        end.
Proof.
  unfold loopBody. intros H. peel.
  match goal with
  | H1 : summarizeIfNeeded _ _ _ _ = _ |- _ =>
      apply summarizeIfNeeded_calls in H1 as (tr0 & Ht0 & He0 & Hx0 & Hr0)
  end.
  match goal with
  | H : context [Chat ?p ?q ?w] |- _ =>
      destruct (Chat p q w) as [[resp [e|]] w'] eqn:Hchat; simpl in H
  end; peel.
  { eexists (tr0 ++ [_; _]). simpl. rewrite Ht0, <-!app_assoc.
    split_and!; [done | by rewrite forallb_app, He0 | |done].
    by rewrite executed_app, Hx0. }
  simpl in H. case_bool_decide as Hno; peel.
  { eexists (tr0 ++ [_; _; _; _]). simpl. rewrite Ht0, <-!app_assoc.
    split_and!; [done | | | done].
    - rewrite forallb_app, He0. simpl. by rewrite bool_decide_true.
    - by rewrite executed_app, Hx0. }
  case_bool_decide as Hover; peel.
  { eexists (tr0 ++ [_; _; _; _]). simpl. rewrite Ht0, <-!app_assoc.
    split_and!; [done | | | done].
    - rewrite forallb_app, He0. simpl. by rewrite bool_decide_true.
    - by rewrite executed_app, Hx0. }
  match goal with
  | H1 : executeToolCalls _ _ _ _ = _ |- _ =>
      apply (executeToolCalls_calls _ chatID) in H1
        as (tr1 & Ht1 & He1 & Hx1 & Hr1)
  end.
  simpl in Ht1. eexists (tr0 ++ [_; _; _] ++ tr1).
  rewrite Ht1, Ht0, <-!app_assoc. simpl.
  split_and!; [done | by rewrite forallb_app, He0; simpl |].
  eexists. split_and!.
  - rewrite responses_app, Hr0. simpl. by rewrite Hr1.
  - intros Hnil. by rewrite Hnil in Hno.
  - done.
  - lia.
  - rewrite executed_app, Hx0. simpl. done.
Qed.

(** *** The loop *)

Lemma agentLoop_events fuel (a : Agent (W := W)) chatID :
  ∀ messages count (s s' : State M W) text err,
  agentLoop fuel a chatID messages count s = (Done (text, err), s') →
  ∃ tr, trace s' = trace s ++ tr ∧
        forallb (turnEvent chatID) tr = true ∧
        (err ≠ None → text = "").
Proof.
  induction fuel as [|fuel IH];
    intros messages count s s' text err H; simpl in H; [done|].
  peel.
  match goal with
  | H1 : loopBody _ _ _ _ _ = (Done ?r, _) |- _ =>
      apply loopBody_calls in H1 as (tr1 & Ht1 & He1 & Hr); destruct r
  end; peel.
  - destruct Hr as [Hx Htext]. by exists tr1.
  - apply IH in H as (tr2 & Ht2 & He2 & Htext).
    exists (tr1 ++ tr2). split_and!; [|by rewrite forallb_app, He1, He2|done].
    by rewrite Ht2, Ht1, app_assoc.
Qed.

(** The tools run from the state the loop is entered in stay within
    what is left of the budget. *)
Lemma agentLoop_budget fuel (a : Agent (W := W)) chatID :
  ∀ messages count (s s' : State M W) r,
  MaxToolCalls (cfg a) < 2 ^ 62 → 0 ≤ count < 2 ^ 62 →
  agentLoop fuel a chatID messages count s = (Done r, s') →
  modest (since s s') = true →
  count + Z.of_nat (length (executed (since s s')))
    ≤ Z.max count (MaxToolCalls (cfg a)).
Proof.
  induction fuel as [|fuel IH];
    intros messages count s s' r Hmax Hcount H Hmodest; simpl in H; [done|].
  peel.
  match goal with
  | H1 : loopBody _ _ _ _ _ = (Done ?r, _) |- _ =>
      apply loopBody_calls in H1 as (tr1 & Ht1 & He1 & Hr); destruct r
  end; peel.
  - destruct Hr as [Hx _]. rewrite (since_app _ _ _ Ht1), Hx. simpl. lia.
  - destruct Hr as (resp & Hresp & Hne & -> & Hle & Hx).
    destruct r as [text err].
    pose proof H as (tr2 & Ht2 & _)%agentLoop_events.
    assert (since s s' = tr1 ++ tr2) as Hsince.
    { apply since_app. by rewrite Ht2, Ht1, app_assoc. }
    rewrite Hsince in *. rewrite modest_app in Hmodest.
    apply andb_true_iff in Hmodest as [Hm1 Hm2].
    unfold modest in Hm1. rewrite Hresp in Hm1. simpl in Hm1.
    rewrite andb_true_r in Hm1. apply bool_decide_eq_true in Hm1.
    assert (resp_ToolCalls resp ≠ [] → 0 < llen (resp_ToolCalls resp)) as Hpos.
    { unfold llen. destruct (resp_ToolCalls resp); [done | simpl; lia]. }
    specialize (Hpos Hne).
    unfold int_add in *. rewrite wrap64_small in * by lia.
    apply IH in H; [|done | lia |by rewrite (since_app _ _ _ Ht2)].
    rewrite (since_app _ _ _ Ht2) in H.
    rewrite executed_app, length_app. unfold llen in *. lia.
Qed.

(** The loop comes to an end before the fuel does, once the fuel
    exceeds what is left of the budget. *)
Definition steady {A} (c : Run (State M W) A) : Prop :=
  ∀ s s', c s ≠ (Starved, s').

Definition grows {A} (c : Run (State M W) A) : Prop :=
  ∀ s o s', c s = (o, s') → ∃ tr, trace s' = trace s ++ tr.

Lemma steady_ret {A} (a : A) : steady (ret a).
Proof. by intros s s'. Qed.

Lemma grows_ret {A} (a : A) : grows (ret a).
Proof. intros s o s' [= <- <-]. exists []. by rewrite app_nil_r. Qed.

Lemma steady_bind {A B} (c : Run (State M W) A) (k : A → Run (State M W) B) :
  steady c → (∀ a, steady (k a)) → steady (bind c k).
Proof.
  intros Hc Hk s s'. unfold bind.
  destruct (c s) as [[a| |] s1] eqn:Hcs; [apply Hk | done |].
  intros [= <-]. by apply (Hc s s1).
Qed.

Lemma grows_bind {A B} (c : Run (State M W) A) (k : A → Run (State M W) B) :
  grows c → (∀ a, grows (k a)) → grows (bind c k).
Proof.
  intros Hc Hk s o s'. unfold bind.
  destruct (c s) as [[a| |] s1] eqn:Hcs;
    destruct (Hc _ _ _ Hcs) as (tr1 & Ht1).
  - intros (tr2 & Ht2)%Hk. exists (tr1 ++ tr2). by rewrite Ht2, Ht1, app_assoc.
  - intros [= <- <-]. by exists tr1.
  - intros [= <- <-]. by exists tr1.
Qed.

Lemma steady_deref {A} (p : option A) : steady (deref p).
Proof. intros s s'. by destruct p. Qed.

Lemma grows_deref {A} (p : option A) : grows (deref p).
Proof.
  intros s o s'. destruct p; intros [= <- <-]; exists []; by rewrite app_nil_r.
Qed.

Lemma steady_publish topic p : steady (publish topic p).
Proof. by intros s s'. Qed.

Lemma grows_publish topic p : grows (publish topic p).
Proof. intros s o s' [= <- <-]. by eexists [_]. Qed.

Lemma steady_provider_Chat p req : steady (provider_Chat p req).
Proof. intros s s'. unfold provider_Chat. by destruct (Chat p req (world s)). Qed.

Lemma grows_provider_Chat p req : grows (provider_Chat p req).
Proof.
  intros s o s'. unfold provider_Chat. destruct (Chat p req (world s)).
  intros [= <- <-]. by eexists [_].
Qed.

Lemma steady_tool_Execute t args : steady (tool_Execute t args).
Proof.
  intros s s'. unfold tool_Execute. by destruct (Tool.Execute t args (world s)).
Qed.

Lemma grows_tool_Execute t args : grows (tool_Execute t args).
Proof.
  intros s o s'. unfold tool_Execute. destruct (Tool.Execute t args (world s)).
  intros [= <- <-]. by eexists [_].
Qed.

Lemma steady_memory_SaveMessage c m : steady (memory_SaveMessage c m).
Proof.
  intros s s'. unfold memory_SaveMessage.
  by destruct (Memory.SaveMessage c m (memory s)).
Qed.

Lemma grows_memory_SaveMessage c m : grows (memory_SaveMessage c m).
Proof.
  intros s o s'. unfold memory_SaveMessage.
  destruct (Memory.SaveMessage c m (memory s)).
  intros [= <- <-]. by eexists [_].
Qed.

Lemma steady_memory_SaveSummary c x : steady (memory_SaveSummary c x).
Proof.
  intros s s'. unfold memory_SaveSummary.
  by destruct (Memory.SaveSummary c x (memory s)).
Qed.

Lemma grows_memory_SaveSummary c x : grows (memory_SaveSummary c x).
Proof.
  intros s o s'. unfold memory_SaveSummary.
  destruct (Memory.SaveSummary c x (memory s)).
  intros [= <- <-]. by eexists [_].
Qed.

Lemma grows_memory_GetHistory c n : grows (memory_GetHistory c n).
Proof.
  intros s o s'. unfold memory_GetHistory.
  destruct (Memory.GetHistory c n (memory s)).
  intros [= <- <-]. by eexists [_].
Qed.

Lemma grows_memory_GetSummary c : grows (memory_GetSummary c).
Proof.
  intros s o s'. unfold memory_GetSummary.
  destruct (Memory.GetSummary c (memory s)).
  intros [= <- <-]. by eexists [_].
Qed.

Ltac settle :=
  repeat first
    [ apply steady_ret | apply grows_ret
    | apply steady_deref | apply grows_deref
    | apply steady_publish | apply grows_publish
    | apply steady_provider_Chat | apply grows_provider_Chat
    | apply steady_tool_Execute | apply grows_tool_Execute
    | apply steady_memory_SaveMessage | apply grows_memory_SaveMessage
    | apply steady_memory_SaveSummary | apply grows_memory_SaveSummary
    | apply grows_memory_GetHistory | apply grows_memory_GetSummary
    | apply steady_bind; [|intros ?] | apply grows_bind; [|intros ?]
    | case_match ].

Lemma steady_summarizeIfNeeded (a : Agent (W := W)) chatID messages :
  steady (summarizeIfNeeded a chatID messages).
Proof. unfold summarizeIfNeeded, summarize. settle. Qed.

Lemma grows_summarizeIfNeeded (a : Agent (W := W)) chatID messages :
  grows (summarizeIfNeeded a chatID messages).
Proof. unfold summarizeIfNeeded, summarize. settle. Qed.

Lemma steady_executeToolCalls (a : Agent (W := W)) toolCalls :
  ∀ messages, steady (executeToolCalls a messages toolCalls).
Proof.
  induction toolCalls as [|tc rest IH]; intros messages; simpl;
    [apply steady_ret|].
  apply steady_bind; [|done]. unfold executeToolCall. settle.
Qed.

Lemma grows_executeToolCalls (a : Agent (W := W)) toolCalls :
  ∀ messages, grows (executeToolCalls a messages toolCalls).
Proof.
  induction toolCalls as [|tc rest IH]; intros messages; simpl;
    [apply grows_ret|].
  apply grows_bind; [|done]. unfold executeToolCall. settle.
Qed.

Lemma steady_loopBody (a : Agent (W := W)) chatID messages count :
  steady (loopBody a chatID messages count).
Proof.
  unfold loopBody.
  apply steady_bind; [apply steady_summarizeIfNeeded | intros ?].
  settle. apply steady_executeToolCalls.
Qed.

Lemma grows_loopBody (a : Agent (W := W)) chatID messages count :
  grows (loopBody a chatID messages count).
Proof.
  unfold loopBody.
  apply grows_bind; [apply grows_summarizeIfNeeded | intros ?].
  settle. apply grows_executeToolCalls.
Qed.

Lemma grows_agentLoop fuel (a : Agent (W := W)) chatID :
  ∀ messages count, grows (agentLoop fuel a chatID messages count).
Proof.
  induction fuel as [|fuel IH]; intros messages count; simpl.
  { intros s o s' [= <- <-]. exists []. by rewrite app_nil_r. }
  apply grows_bind; [apply grows_loopBody | intros [text err|ms c]];
    [apply grows_ret | apply IH].
Qed.

Lemma agentLoop_starved fuel (a : Agent (W := W)) chatID :
  ∀ messages count (s s' : State M W),
  MaxToolCalls (cfg a) < 2 ^ 62 → 0 ≤ count < 2 ^ 62 →
  (Z.to_nat (MaxToolCalls (cfg a) - count) < fuel)%nat →
  agentLoop fuel a chatID messages count s = (Starved, s') →
  modest (since s s') = false.
Proof.
  induction fuel as [|fuel IH];
    intros messages count s s' Hmax Hcount Hfuel H; [lia|].
  simpl in H. unfold bind in H.
  destruct (loopBody a chatID messages count s) as [[r| |] s1] eqn:Hbody.
  - destruct r as [text err|ms count']; [done|].
    apply loopBody_calls in Hbody
      as (tr1 & Ht1 & _ & resp & Hresp & Hne & -> & Hle & _).
    destruct (grows_agentLoop _ _ _ _ _ _ _ _ H) as (tr2 & Ht2).
    assert (since s s' = tr1 ++ tr2) as ->.
    { apply since_app. by rewrite Ht2, Ht1, app_assoc. }
    rewrite modest_app. destruct (modest tr1) eqn:Hm1; [|done]. simpl.
    unfold modest in Hm1. rewrite Hresp in Hm1. simpl in Hm1.
    rewrite andb_true_r in Hm1. apply bool_decide_eq_true in Hm1.
    assert (0 < llen (resp_ToolCalls resp)) as Hpos.
    { unfold llen. destruct (resp_ToolCalls resp); [done | simpl; lia]. }
    unfold int_add in *. rewrite wrap64_small in * by lia.
    rewrite <-(since_app _ _ _ Ht2). eapply IH; [done | | | exact H]; lia.
  - done.
  - by destruct (steady_loopBody a chatID messages count s s1).
Qed.

(** *** The token estimate *)

(** The bytes the estimate looks at: the contents of the messages and
    the arguments of their tool calls. *)
Definition payload (messages : list Message) : Z :=
  foldr (λ m total,
           len (Content m)
           + foldr (λ tc t, len (tc_Arguments tc) + t) 0 (ToolCalls m)
           + total) 0 messages.

Lemma arguments_nonneg (tcs : list ToolCall) :
  0 ≤ foldr (λ tc t, len (tc_Arguments tc) + t) 0 tcs.
Proof. induction tcs; simpl; [lia | unfold len in *; lia]. Qed.

Lemma estimate_calls (tcs : list ToolCall) : ∀ acc,
  0 ≤ acc →
  4 * acc + foldr (λ tc t, len (tc_Arguments tc) + t) 0 tcs < 2 ^ 63 →
  let r := foldl (λ total tc,
                    int_add total (len (tc_Arguments tc) `quot` 4)) acc tcs in
  acc ≤ r ∧
  4 * r ≤ 4 * acc + foldr (λ tc t, len (tc_Arguments tc) + t) 0 tcs.
Proof.
  induction tcs as [|tc tcs IH]; intros acc Hacc Hbound; simpl in *; [lia|].
  assert (0 ≤ len (tc_Arguments tc)) as Hlen by (unfold len; lia).
  pose proof (arguments_nonneg tcs) as Hrest.
  pose proof (Z.quot_pos (len (tc_Arguments tc)) 4 Hlen ltac:(lia)).
  pose proof (Z.mul_quot_le (len (tc_Arguments tc)) 4 Hlen ltac:(lia)).
  assert (int_add acc (len (tc_Arguments tc) `quot` 4)
          = acc + len (tc_Arguments tc) `quot` 4) as ->.
  { unfold int_add. rewrite wrap64_small; lia. }
  destruct (IH (acc + len (tc_Arguments tc) `quot` 4)) as [H1 H2]; [lia | lia |].
  lia.
Qed.

Lemma payload_nonneg messages : 0 ≤ payload messages.
Proof.
  induction messages as [|m ms IH]; simpl; [lia|].
  pose proof (arguments_nonneg (ToolCalls m)). unfold len in *. lia.
Qed.

Lemma estimate_messages (messages : list Message) : ∀ acc,
  0 ≤ acc → 4 * acc + payload messages < 2 ^ 63 →
  let r := foldl (λ total m,
                    foldl (λ total tc,
                             int_add total (len (tc_Arguments tc) `quot` 4))
                          (int_add total (len (Content m) `quot` 4))
                          (ToolCalls m)) acc messages in
  acc ≤ r ∧ 4 * r ≤ 4 * acc + payload messages.
Proof.
  induction messages as [|m ms IH]; intros acc Hacc Hbound; simpl in *; [lia|].
  assert (0 ≤ len (Content m)) as Hlen by (unfold len; lia).
  pose proof (payload_nonneg ms) as Hms.
  pose proof (arguments_nonneg (ToolCalls m)) as Htcs.
  pose proof (Z.quot_pos (len (Content m)) 4 Hlen ltac:(lia)).
  pose proof (Z.mul_quot_le (len (Content m)) 4 Hlen ltac:(lia)).
  assert (int_add acc (len (Content m) `quot` 4)
          = acc + len (Content m) `quot` 4) as ->.
  { unfold int_add. rewrite wrap64_small; lia. }
  destruct (estimate_calls (ToolCalls m) (acc + len (Content m) `quot` 4))
    as [H1 H2]; [lia | lia |].
  cbv zeta in H1, H2.
  match goal with
  | |- context [foldl _ (foldl ?f ?x ?l) ms] => set (mid := foldl f x l) in *
  end.
  destruct (IH mid) as [H3 H4]; [lia | lia |]. cbv zeta in H3, H4. lia.
Qed.

(** X6.  The token estimate counts a quarter of the bytes of the
    contents and of the tool-call arguments, rounding down field by
    field, and nothing else (roles, names and ids are free).  So, as
    long as those bytes number fewer than [2^63], the estimate is never
    negative and never above a quarter of them, and a conversation of
    fewer than [4 * (SummarizeAt + 1)] such bytes is not summarized. *)
Theorem estimate_is_at_most_a_quarter (cm : contextManager (W := W)) messages :
  payload messages < 2 ^ 63 →
  0 ≤ estimateTokens messages ∧
  4 * estimateTokens messages ≤ payload messages ∧
  (payload messages < 4 * (summarizeAt cm + 1) →
   shouldSummarize cm messages = false).
Proof.
  intros Hbound. unfold shouldSummarize, estimateTokens.
  destruct (estimate_messages messages 0) as [H1 H2]; [lia | lia |].
  cbv zeta in H1, H2. split_and!; [lia | lia |].
  intros Hshort. apply bool_decide_eq_false. lia.
Qed.

(** *** The budget over the whole turn *)

(** The tool calls the responses [rs] carry, all together. *)
Definition cumulative (rs : list LLMResponse) : Z :=
  foldr (λ r n, llen (resp_ToolCalls r) + n) 0 rs.


Lemma cumulative_app rs1 rs2 :
  cumulative (rs1 ++ rs2) = cumulative rs1 + cumulative rs2.
Proof. induction rs1 as [|r rs1 IH]; simpl; lia. Qed.















(** *** Whole turns *)

Definition opening (chatID userText : string) : list Effect :=
  [GetHistoryCall chatID 50; GetSummaryCall chatID;
   SaveMessageCall chatID (msg "user" userText)].

Lemma processMessage_split fuel (a : Agent (W := W)) chatID userText
    (s s' : State M W) o :
  processMessage fuel a chatID userText s = (o, s') →
  ∃ messages s1,
    prepareMessages chatID userText s = (Done messages, s1) ∧
    trace s1 = trace s ++ opening chatID userText ∧
    agentLoop fuel a chatID messages 0 s1 = (o, s').
Proof.
  unfold processMessage, bind. rewrite prepareMessages_run. intros H.
  by eexists _, _.
Qed.

Lemma opening_turnEvent chatID userText :
  forallb (turnEvent chatID) (opening chatID userText) = true.
Proof. simpl. by rewrite bool_decide_true. Qed.

Lemma processMessage_events fuel (a : Agent (W := W)) chatID userText
    (s s' : State M W) r :
  processMessage fuel a chatID userText s = (Done r, s') →
  ∃ tr, trace s' = trace s ++ tr ∧ forallb (turnEvent chatID) tr = true.
Proof.
  intros (messages & s1 & _ & Ht1 & Hloop)%processMessage_split.
  destruct r as [text err].
  apply agentLoop_events in Hloop as (tr & Ht & He & _).
  exists (opening chatID userText ++ tr). split.
  - by rewrite Ht, Ht1, app_assoc.
  - by rewrite forallb_app, opening_turnEvent, He.
Qed.

Lemma processMessage_saved fuel (a : Agent (W := W)) chatID userText
    (s s' : State M W) text err :
  processMessage fuel a chatID userText s = (Done (text, err), s') →
  saved (since s s')
  = (chatID, msg "user" userText)
    :: match err with
       | None => [(chatID, msg "assistant" text)]
       | Some _ => []
       end.
Proof.
  intros (messages & s1 & _ & Ht1 & Hloop)%processMessage_split.
  apply agentLoop_after in Hloop as (tr & [Ht _] & Hs).
  erewrite since_app by (by rewrite Ht, Ht1, <-app_assoc).
  rewrite saved_app. simpl. f_equal. destruct err; by destruct Hs.
Qed.


(** X7.  A turn keeps to its own chat and to its own collaborators:
    every store call it makes names the chat of the turn, and apart from
    those it only calls the provider, runs tools and publishes on the
    bus.  It sends nothing through a channel. *)
Theorem turn_keeps_to_its_chat fuel (a : Agent (W := W)) chatID userText
    (s s' : State M W) r :
  processMessage fuel a chatID userText s = (Done r, s') →
  forallb (turnEvent chatID) (since s s') = true ∧ sent (since s s') = [].
Proof.
  intros (tr & Ht & He)%processMessage_events.
  rewrite (since_app _ _ _ Ht).
  split; [done | by eapply turnEvent_sent].
Qed.

(** X8.  The tool budget holds for the whole turn: with [MaxToolCalls]
    below [2^62], and no response of the run carrying [2^62] tool calls
    or more, a finished turn has run at most [MaxToolCalls] tools, and
    none at all when [MaxToolCalls] is zero or negative. *)
Theorem turn_runs_tools_within_budget fuel (a : Agent (W := W)) chatID
    userText (s s' : State M W) r :
  MaxToolCalls (cfg a) < 2 ^ 62 →
  processMessage fuel a chatID userText s = (Done r, s') →
  modest (since s s') = true →
  Z.of_nat (length (executed (since s s')))
    ≤ Z.max 0 (MaxToolCalls (cfg a)).
Proof.
  intros Hmax (messages & s1 & _ & Ht1 & Hloop)%processMessage_split Hmodest.
  destruct r as [text err].
  pose proof Hloop as (tr & Ht & _)%agentLoop_events.
  assert (since s s' = opening chatID userText ++ tr) as Hsince.
  { apply since_app. by rewrite Ht, Ht1, app_assoc. }
  rewrite Hsince in *. rewrite modest_app in Hmodest.
  apply andb_true_iff in Hmodest as [_ Hmodest].
  rewrite executed_app. simpl.
  rewrite <-(since_app _ _ _ Ht) in *.
  by apply (agentLoop_budget fuel a chatID messages 0 s1 s' (text, err)).
Qed.

(** X9.  The loop ends on its own: with [MaxToolCalls] below [2^62],
    more fuel than [MaxToolCalls], and no response carrying [2^62] tool
    calls or more, a turn is never cut off by the bound on the passes
    the model follows.  After at most [MaxToolCalls] passes that run
    tools, one more pass returns. *)
Theorem turn_ends_within_budget fuel (a : Agent (W := W)) chatID userText
    (s : State M W) :
  MaxToolCalls (cfg a) < 2 ^ 62 →
  (Z.to_nat (MaxToolCalls (cfg a)) < fuel)%nat →
  modest (since s (processMessage fuel a chatID userText s).2) = true →
  (processMessage fuel a chatID userText s).1 ≠ Starved.
Proof.
  intros Hmax Hfuel Hmodest Hstarved.
  destruct (processMessage fuel a chatID userText s) as [o s'] eqn:Hrun.
  simpl in *. subst o.
  apply processMessage_split in Hrun as (messages & s1 & _ & Ht1 & Hloop).
  destruct (grows_agentLoop _ _ _ _ _ _ _ _ Hloop) as (tr & Ht).
  assert (since s s' = opening chatID userText ++ tr) as Hsince.
  { apply since_app. by rewrite Ht, Ht1, app_assoc. }
  rewrite Hsince, modest_app in Hmodest.
  apply andb_true_iff in Hmodest as [_ Hmodest].
  apply agentLoop_starved in Hloop; [|done | lia | by rewrite Z.sub_0_r].
  rewrite (since_app _ _ _ Ht) in Hloop. congruence.
Qed.

(** X10.  A turn that fails leaves the user message behind: when a
    provider call of the loop fails, [processMessage] returns the empty
    text with the wrapped provider error, and the only message the run
    saved is the user message; no assistant message follows it. *)
Theorem failed_turn_saves_only_user_message fuel (a : Agent (W := W)) chatID
    userText (s s' : State M W) text err :
  processMessage fuel a chatID userText s = (Done (text, Some err), s') →
  text = "" ∧ providerFailure a err ∧
  saved (since s s') = [(chatID, msg "user" userText)] ∧
  memory s' = replay (since s s') (memory s).
Proof.
  intros (messages & s1 & Hprep & Ht1 & Hloop)%processMessage_split.
  pose proof Hloop as (tr0 & _ & _ & Htext)%agentLoop_events.
  apply agentLoop_after in Hloop as (tr & [Ht Hm] & Hs & Hf).
  assert (since s s' = opening chatID userText ++ tr) as ->.
  { apply since_app. by rewrite Ht, Ht1, app_assoc. }
  rewrite prepareMessages_run in Hprep. injection Hprep as _ <-.
  split_and!; [by apply Htext | done | by rewrite saved_app, Hs |].
  rewrite Hm. unfold replay. by rewrite foldl_app.
Qed.

(** X11.  [handleMessage] answers once or not at all.  When the channel
    of the inbound message is registered, a finished run has sent exactly
    one message, through that channel, to the chat the message came from;
    its text is the text of the turn, or the apology when the turn
    failed; and sending it was the last thing the run did.  When the
    channel is not registered nothing is sent, although the turn has
    run. *)
Theorem handled_message_gets_one_reply fuel (a : Agent (W := W))
    (m : Channel.InboundMessage) (s s' : State M W) u :
  handleMessage fuel a m s = (Done u, s') →
  ∃ response err s1,
    processMessage fuel a (Channel.ChatID m) (Channel.Text m) s
      = (Done (response, err), s1) ∧
    match Channel.Get (chanMgr a) (Channel.ChannelName m) with
    | None => sent (since s s') = []
    | Some ch =>
        let out :=
          {| Channel.out_ChatID := Channel.ChatID m;
             Channel.out_Text :=
               match err with Some _ => apology | None => response end;
             Channel.out_ReplyTo := "" |} in
        sent (since s s') = [(Channel.Name ch, out)] ∧
        last (since s s') = Some (SendCall (Channel.Name ch) out)
    end.
Proof.
  unfold handleMessage. intros H. peel.
  match goal with
  | H1 : processMessage _ _ _ _ _ = (Done ?r, _) |- _ =>
      destruct r as [response err];
      pose proof H1 as (trp & Htp & Hep%turnEvent_sent)%processMessage_events
  end.
  eexists _, _, _. split; [done|].
  destruct err as [e|]; peel;
    (destruct (Channel.Get (chanMgr a) (Channel.ChannelName m)) as [ch|];
     peel; simpl;
     (erewrite since_app by (simpl; rewrite ?Htp, <-?app_assoc; done));
     rewrite ?sent_app, ?Hep; simpl; [|done]).
  - split; [done|]. by rewrite last_app.
  - split; [done|]. by rewrite last_app.
Qed.

End Turns.

(** ** Turns on the SQLite store *)

Section OnSQLite.
Context {W : Type}.
Variable marshal : list ToolCall → string.
Variable unmarshal : string → list ToolCall.

#[local] Instance sqliteStore : Memory.Memory Memory.DB :=
  Memory.SQLiteMemory marshal unmarshal.

(** What the memory calls of a turn for [chatID] do to the tables: the
    saved messages are appended as rows, and no other chat's summary is
    touched. *)
Lemma replay_sqlite chatID tr : ∀ db,
  forallb (turnEvent chatID) tr = true →
  Memory.messages (replay tr db)
    = Memory.messages db
      ++ ((λ cm, Memory.rowOf marshal cm.1 cm.2) <$> saved tr) ∧
  ∀ other, other ≠ chatID →
    Memory.summaries (replay tr db) !! other = Memory.summaries db !! other.
Proof.
  induction tr as [|e tr IH]; intros db Hall.
  { simpl. by rewrite app_nil_r. }
  simpl in Hall. apply andb_true_iff in Hall as [He Hall].
  change (replay (e :: tr) db) with (replay tr (replay [e] db)).
  destruct (IH (replay [e] db) Hall) as [Hm Hs].
  rewrite Hm. split.
  - destruct e; simpl; rewrite ?app_nil_r; try done.
    by rewrite <-app_assoc.
  - intros other Hother. rewrite Hs by done.
    destruct e; simpl; try done.
    apply bool_decide_eq_true in He. subst. by rewrite lookup_insert_ne.
Qed.

Lemma saved_turnEvent chatID tr :
  forallb (turnEvent chatID) tr = true →
  Forall (λ cm, cm.1 = chatID) (saved tr).
Proof.
  induction tr as [|e tr IH]; [by constructor|]. simpl.
  intros [He Htr]%andb_true_iff. destruct e; simpl; auto.
  constructor; [by apply bool_decide_eq_true in He | auto].
Qed.

(** X12.  A turn on the SQLite store lengthens the conversation of its
    chat by the user message, followed by the assistant's text when the
    turn ended well, and by nothing else: no tool message and no
    assistant message with tool calls is stored.  The conversation and
    the summary of every other chat are as before. *)
Theorem sqlite_turn_extends_conversation fuel (a : Agent (W := W)) chatID
    userText (s s' : State Memory.DB W) text err :
  processMessage (Mem := Memory.SQLiteMemory marshal unmarshal)
    fuel a chatID userText s = (Done (text, err), s') →
  Memory.conversation unmarshal chatID (memory s')
    = Memory.conversation unmarshal chatID (memory s)
      ++ msg "user" userText
         :: match err with
            | None => [msg "assistant" text]
            | Some _ => []
            end ∧
  ∀ other, other ≠ chatID →
    Memory.conversation unmarshal other (memory s')
      = Memory.conversation unmarshal other (memory s) ∧
    Memory.summaries (memory s') !! other
      = Memory.summaries (memory s) !! other.
Proof.
  intros Hrun.
  pose proof Hrun as (tr & Ht & He)%processMessage_events.
  apply processMessage_split in Hrun as (messages & s1 & Hprep & Ht1 & Hloop).
  rewrite prepareMessages_run in Hprep. injection Hprep as _ Hs1.
  apply agentLoop_after in Hloop as (tr2 & [Ht2 Hm2] & Hsaved).
  assert (tr = opening chatID userText ++ tr2) as ->.
  { apply (app_inv_head (trace s)). by rewrite <-Ht, Ht2, Ht1, app_assoc. }
  assert (memory s' = replay (opening chatID userText ++ tr2) (memory s))
    as Hmem.
  { rewrite Hm2, <-Hs1. unfold replay. by rewrite foldl_app. }
  assert (saved (opening chatID userText ++ tr2)
          = (chatID, msg "user" userText)
            :: match err with
               | None => [(chatID, msg "assistant" text)]
               | Some _ => []
               end) as Hsv.
  { rewrite saved_app. simpl. f_equal. destruct err; by destruct Hsaved. }
  destruct (replay_sqlite chatID _ (memory s) He) as [Hrows Hsum].
  rewrite <-Hmem, Hsv in Hrows.
  assert (∀ c, Memory.conversation unmarshal c (memory s')
               = Memory.conversation unmarshal c (memory s)
                 ++ (Memory.scanRow unmarshal <$>
                     filter (λ r, Memory.chat_id r = c)
                       ((λ cm, Memory.rowOf marshal cm.1 cm.2) <$>
                        (chatID, msg "user" userText)
                        :: match err with
                           | None => [(chatID, msg "assistant" text)]
                           | Some _ => []
                           end))) as Hconv.
  { intros c. unfold Memory.conversation. by rewrite Hrows, filter_app, fmap_app. }
  split.
  - rewrite Hconv. f_equal. destruct err; simpl;
      rewrite ?filter_cons_True, ?filter_nil by done; done.
  - intros other Hother. split; [|rewrite Hmem; by apply Hsum].
    rewrite Hconv. destruct err; simpl;
      rewrite ?filter_cons_False, ?filter_nil by (simpl; congruence);
      by rewrite app_nil_r.
Qed.

End OnSQLite.

(** ** The scenarios again, as instances *)

(** The console channel, and an agent that answers through it. *)
Definition console : Channel.Channel Stage :=
  {| Channel.Name := "console"; Channel.Send := λ _ w, (None, w) |}.

Definition answering : Agent :=
  New defaults (scriptedProvider [(Some (textResponse "Hi there!"), None)])
      workspaceTools {["console" := console]}.

Definition typed : Channel.InboundMessage :=
  {| Channel.ChannelName := "console"; Channel.SenderID := "local";
     Channel.SenderName := "User"; Channel.ChatID := "console";
     Channel.Text := "Hello"; Channel.Timestamp := 0 |}.


Lemma turn_keeps_to_its_chat_witness :
  forallb (turnEvent "c1")
    (since start
       (processMessage 3 lister "c1" "what is in the workspace" start).2)
    = true ∧
  sent (since start
          (processMessage 3 lister "c1" "what is in the workspace" start).2)
    = [].
Proof.
  apply (turn_keeps_to_its_chat 3 lister "c1" "what is in the workspace"
           start _ ("I see a.txt.", None)).
  vm_compute. reflexivity.
Defined.

Lemma turn_runs_tools_within_budget_witness :
  Z.of_nat
    (length (executed
               (since start (processMessage 9 insatiable "c1" "go" start).2)))
    ≤ Z.max 0 (MaxToolCalls (cfg insatiable)).
Proof.
  apply (turn_runs_tools_within_budget 9 insatiable "c1" "go" start _
           ("I've reached the maximum number of tool calls for this request. Here's what I have so far: three", None)).
  - reflexivity.
  - vm_compute. reflexivity.
  - vm_compute. reflexivity.
Defined.

Lemma turn_ends_within_budget_witness :
  (processMessage 3 insatiable "c1" "go" start).1 ≠ Starved.
Proof.
  apply (turn_ends_within_budget 3 insatiable "c1" "go" start).
  - reflexivity.
  - vm_compute. lia.
  - vm_compute. reflexivity.
Defined.

Lemma failed_turn_saves_only_user_message_witness :
  "" = "" ∧
  providerFailure forgetful
    (WrapError "LLM error: " (LLMError ErrorServerError "500" None)) ∧
  saved (since start (processMessage 3 forgetful "c1" "hi" start).2)
    = [("c1", msg "user" "hi")] ∧
  memory (processMessage 3 forgetful "c1" "hi" start).2
    = replay (since start (processMessage 3 forgetful "c1" "hi" start).2)
        (memory start).
Proof.
  apply (failed_turn_saves_only_user_message 3 forgetful "c1" "hi" start).
  vm_compute. reflexivity.
Defined.

Lemma handled_message_gets_one_reply_witness :
  ∃ response err s1,
    processMessage 3 answering "console" "Hello" start
      = (Done (response, err), s1) ∧
    match Channel.Get (chanMgr answering) "console" with
    | None => sent (since start (handleMessage 3 answering typed start).2) = []
    | Some ch =>
        let out :=
          {| Channel.out_ChatID := "console";
             Channel.out_Text :=
               match err with Some _ => apology | None => response end;
             Channel.out_ReplyTo := "" |} in
        sent (since start (handleMessage 3 answering typed start).2)
          = [(Channel.Name ch, out)] ∧
        last (since start (handleMessage 3 answering typed start).2)
          = Some (SendCall (Channel.Name ch) out)
    end.
Proof.
  apply (handled_message_gets_one_reply 3 answering typed start _ ()).
  vm_compute. reflexivity.
Defined.

Lemma sqlite_turn_extends_conversation_witness :
  Memory.conversation (λ _, [])  "c1"
    (memory (processMessage 3 lister "c1" "what is in the workspace" start).2)
    = Memory.conversation (λ _, []) "c1" (memory start)
      ++ [msg "user" "what is in the workspace"; msg "assistant" "I see a.txt."]
  ∧
  ∀ other, other ≠ "c1" →
    Memory.conversation (λ _, []) other
      (memory (processMessage 3 lister "c1" "what is in the workspace" start).2)
      = Memory.conversation (λ _, []) other (memory start) ∧
    Memory.summaries
      (memory (processMessage 3 lister "c1" "what is in the workspace" start).2)
      !! other
      = Memory.summaries (memory start) !! other.
Proof.
  apply (sqlite_turn_extends_conversation (λ _, "") (λ _, []) 3 lister "c1"
           "what is in the workspace" start _ "I see a.txt." None).
  vm_compute. reflexivity.
Defined.

Lemma estimate_is_at_most_a_quarter_witness :
  0 ≤ estimateTokens fiveMessages ∧
  4 * estimateTokens fiveMessages ≤ payload fiveMessages ∧
  (payload fiveMessages < 4 * (summarizeAt (ctxManager greeter) + 1) →
   shouldSummarize (ctxManager greeter) fiveMessages = false).
Proof.
  apply (estimate_is_at_most_a_quarter (ctxManager greeter) fiveMessages).
  vm_compute. reflexivity.
Defined.

End Agent.

(* ================================================================== *)
(** * Byte strings: slicing and the facts about it used below          *)
(* ================================================================== *)

Module Str.

(** [s[:n]] and [s[n:]]. *)
Fixpoint takeS (n : nat) (s : string) : string :=
  match n, s with
  | S n, String c s => String c (takeS n s)
  | _, _ => ""
  end.

Fixpoint dropS (n : nat) (s : string) : string :=
  match n, s with
  | S n, String _ s => dropS n s
  | _, _ => s
  end.

(** Whether a byte occurs in a string. *)
Fixpoint occurs (c : ascii) (s : string) : bool :=
  match s with
  | EmptyString => false
  | String d s => bool_decide (c = d) || occurs c s
  end.

Lemma app_nil_s (s : string) : "" +:+ s = s.
Proof. reflexivity. Qed.

Lemma app_cons_s (c : ascii) (a s : string) :
  String c a +:+ s = String c (a +:+ s).
Proof. reflexivity. Qed.

Lemma app_nil_r_s (s : string) : s +:+ "" = s.
Proof. induction s as [|c s IH]; [done|]. by rewrite app_cons_s, IH. Qed.

Lemma app_assoc_s (a b c : string) : (a +:+ b) +:+ c = a +:+ (b +:+ c).
Proof. induction a as [|x a IH]; [done|]. by rewrite !app_cons_s, IH. Qed.

Lemma length_app_s (a b : string) :
  String.length (a +:+ b) = (String.length a + String.length b)%nat.
Proof. induction a as [|x a IH]; [done|]. rewrite app_cons_s. simpl. lia. Qed.

Lemma takeS_app (a b : string) : takeS (String.length a) (a +:+ b) = a.
Proof. induction a as [|x a IH]; [by destruct b|]. simpl. by rewrite IH. Qed.

Lemma dropS_app (a b : string) : dropS (String.length a) (a +:+ b) = b.
Proof. induction a as [|x a IH]; [by destruct b|]. done. Qed.

Lemma takeS_dropS (n : nat) (s : string) : takeS n s +:+ dropS n s = s.
Proof.
  revert s. induction n as [|n IH]; intros [|c s]; try done.
  simpl. by rewrite app_cons_s, IH.
Qed.

Lemma app_inv_head_s (a b c : string) : a +:+ b = a +:+ c → b = c.
Proof.
  induction a as [|x a IH]; [done|]. rewrite !app_cons_s. intros [= H]. auto.
Qed.

Lemma occurs_app (c : ascii) (a b : string) :
  occurs c (a +:+ b) = occurs c a || occurs c b.
Proof.
  induction a as [|x a IH]; [done|].
  rewrite app_cons_s. simpl. by rewrite IH, orb_assoc.
Qed.

Lemma prefix_spec (a s : string) :
  String.prefix a s = true ↔ ∃ v, s = a +:+ v.
Proof.
  revert s. induction a as [|c a IH]; intros [|d s]; simpl.
  - split; [intros _; by exists "" | done].
  - split; [intros _; by exists (String d s) | done].
  - split; [done | intros [v Hv]; rewrite app_cons_s in Hv; done].
  - destruct (ascii_dec c d) as [->|Hne].
    + rewrite IH. split; intros [v Hv]; exists v.
      * by rewrite app_cons_s, Hv.
      * rewrite app_cons_s in Hv. congruence.
    + split; [done | intros [v Hv]; rewrite app_cons_s in Hv; congruence].
Qed.

End Str.

(* ================================================================== *)
(** * Go's [regexp], as far as the patterns of this program use it     *)
(* ================================================================== *)

(** The program compiles its patterns with [regexp.MustCompile] and asks
    [MatchString], [FindAllStringSubmatch] and [ReplaceAllStringFunc].
    The library prefers the leftmost match and, among those, the one a
    backtracking search finds first; the matcher below is that search,
    written with a continuation. It works on bytes: every class in the
    program's patterns is ASCII, so on valid UTF-8 a byte-wise search finds
    the same matches (under [(?i)] the library also folds U+017F and
    U+212A onto [s] and [k]; that is left out). *)

Module Regexp.
Import Str.

(** A set of bytes, as a list of inclusive code ranges. *)
Definition byteset := list (N * N).

Definition range (a b : ascii) : N * N := (N_of_ascii a, N_of_ascii b).
Definition one (a : ascii) : N * N := range a a.

Definition inSet (cs : byteset) (c : ascii) : bool :=
  existsb (λ r, (r.1 <=? N_of_ascii c)%N && (N_of_ascii c <=? r.2)%N) cs.

Inductive regex :=
| Eps
| Set_ (cs : byteset)
| Cat (r1 r2 : regex)
| Alt (r1 r2 : regex)
| Star (r : regex)
| Bol
| WordB
| Group (r : regex).

(** The byte a position is preceded or followed by decides [^] and [\b]. *)
Definition wordBytes : byteset :=
  [range "0" "9"; range "A" "Z"; range "a" "z"; one "_"]%char.

Definition wordAt (c : option ascii) : bool :=
  match c with
  | Some c => inSet wordBytes c
  | None => false
  end.

Definition next (s : string) : option ascii :=
  match s with
  | String c _ => Some c
  | EmptyString => None
  end.

(** The text between a position [s] and a later position [s']. *)
Definition consumed (s s' : string) : string :=
  takeS (String.length s - String.length s') s.

Section Run.
Context {A : Type}.

(** A continuation takes the byte before the position reached, the text
    from there on, and the text of capture group 1. *)
Definition cont := option ascii → string → string → option A.

(** Greedy iteration: another round first, and only a round that moved
    forward counts. *)
Fixpoint star (body : option ascii → string → string → cont → option A)
    (n : nat) (prev : option ascii) (s cap : string) (k : cont) : option A :=
  match n with
  | O => k prev s cap
  | S n =>
      match body prev s cap
              (λ p s' c,
                 if (String.length s' <? String.length s)%nat
                 then star body n p s' c k else None) with
      | Some a => Some a
      | None => k prev s cap
      end
  end.

Fixpoint run (r : regex) (prev : option ascii) (s cap : string) (k : cont)
  : option A :=
  match r with
  | Eps => k prev s cap
  | Set_ cs =>
      match s with
      | String c s' => if inSet cs c then k (Some c) s' cap else None
      | EmptyString => None
      end
  | Cat r1 r2 => run r1 prev s cap (λ p s' c, run r2 p s' c k)
  | Alt r1 r2 =>
      match run r1 prev s cap k with
      | Some a => Some a
      | None => run r2 prev s cap k
      end
  | Star r1 => star (run r1) (String.length s) prev s cap k
  | Bol => match prev with None => k prev s cap | Some _ => None end
  | WordB =>
      if xorb (wordAt prev) (wordAt (next s)) then k prev s cap else None
  | Group r1 => run r1 prev s cap (λ p s' _, k p s' (consumed s s'))
  end.

End Run.

(** One match: the text skipped before it, the match, group 1, and
    where the search goes on. *)
Record found := {
  before : string;
  whole : string;
  sub1 : string;
  last : option ascii;
  rest : string
}.

Definition matchHere (r : regex) (prev : option ascii) (s : string)
  : option found :=
  run r prev s ""
    (λ p s' c, Some {| before := ""; whole := consumed s s'; sub1 := c;
                       last := p; rest := s' |}).

(** The leftmost match at or after a position. *)
Fixpoint search (r : regex) (prev : option ascii) (s : string)
  : option found :=
  match matchHere r prev s with
  | Some f => Some f
  | None =>
      match s with
      | EmptyString => None
      | String c s' =>
          match search r (Some c) s' with
          | Some f => Some {| before := String c (before f); whole := whole f;
                              sub1 := sub1 f; last := last f; rest := rest f |}
          | None => None
          end
      end
  end.

(** A compiled pattern keeps its source, as [Regexp.String] returns it. *)
Record Regexp := {
  source : string;
  prog : regex
}.

Definition MatchString (re : Regexp) (s : string) : bool :=
  match search (prog re) None s with
  | Some _ => true
  | None => false
  end.

(** A text cut at the successive matches of a pattern. No pattern of
    this program matches the empty string; the library's special rule for
    empty matches is therefore not modelled, and an empty match is stepped
    over. *)
Inductive piece :=
| Gap (text : string)
| Hit (whole sub1 : string).

Fixpoint piecesFrom (fuel : nat) (r : regex) (prev : option ascii)
    (s : string) : list piece :=
  match fuel with
  | O => [Gap s]
  | S fuel =>
      match search r prev s with
      | None => [Gap s]
      | Some f =>
          match whole f with
          | EmptyString =>
              match rest f with
              | EmptyString => [Gap s]
              | String c s' =>
                  Gap (before f +:+ String c "")
                  :: piecesFrom fuel r (Some c) s'
              end
          | _ => Gap (before f) :: Hit (whole f) (sub1 f)
                 :: piecesFrom fuel r (last f) (rest f)
          end
      end
  end.

Definition pieces (re : Regexp) (s : string) : list piece :=
  piecesFrom (S (String.length s)) (prog re) None s.

(** [FindAllStringSubmatch(s, -1)]: for every match the pair of the
    whole match and group 1. *)
Definition FindAllStringSubmatch (re : Regexp) (s : string)
  : list (string * string) :=
  omap (λ p, match p with
             | Hit w c => Some (w, c)
             | Gap _ => None
             end) (pieces re s).

(** ** Writing patterns *)

Definition chr (c : ascii) : regex := Set_ [one c].

Fixpoint seq (rs : list regex) : regex :=
  match rs with
  | [] => Eps
  | [r] => r
  | r :: rs => Cat r (seq rs)
  end.

Fixpoint alt (rs : list regex) : regex :=
  match rs with
  | [] => Set_ []
  | [r] => r
  | r :: rs => Alt r (alt rs)
  end.

Definition opt (r : regex) : regex := Alt r Eps.
Definition plus (r : regex) : regex := Cat r (Star r).

(** [r{n}], and [r{lo,hi}] as [r{lo}] followed by [hi - lo] nested
    optional copies. *)
Fixpoint times (n : nat) (r : regex) : regex :=
  match n with
  | O => Eps
  | S O => r
  | S n => Cat r (times n r)
  end.

Fixpoint upTo (n : nat) (r : regex) : regex :=
  match n with
  | O => Eps
  | S n => opt (Cat r (upTo n r))
  end.

Definition between (lo hi : nat) (r : regex) : regex :=
  Cat (times lo r) (upTo (hi - lo) r).

Definition atLeast (n : nat) (r : regex) : regex := Cat (times n r) (Star r).

Definition digit : regex := Set_ [range "0" "9"]%char.
Definition space : regex :=
  Set_ [range "009" "010"; range "012" "013"; one " "]%char.
Definition anyByte : regex := Set_ [(0, 9); (11, 255)]%N.

(** A literal, and a literal under [(?i)]. *)
Definition lit (s : string) : regex :=
  seq (chr <$> String.list_ascii_of_string s).

Definition fold (c : ascii) : byteset :=
  let n := N_of_ascii c in
  if ((97 <=? n) && (n <=? 122))%N then [(n, n); (n - 32, n - 32)]%N
  else if ((65 <=? n) && (n <=? 90))%N then [(n, n); (n + 32, n + 32)]%N
  else [(n, n)].

Definition ci (s : string) : regex :=
  seq ((λ c, Set_ (fold c)) <$> String.list_ascii_of_string s).

Definition b : regex := WordB.
Definition ws1 : regex := plus space.
Definition ws0 : regex := Star space.

(** ** What a match can look like *)

(** The words of a pattern, position assertions aside. *)
Inductive lang : regex → string → Prop :=
| lang_eps : lang Eps ""
| lang_set cs c : inSet cs c = true → lang (Set_ cs) (String c "")
| lang_cat r1 r2 u v : lang r1 u → lang r2 v → lang (Cat r1 r2) (u +:+ v)
| lang_alt_l r1 r2 u : lang r1 u → lang (Alt r1 r2) u
| lang_alt_r r1 r2 u : lang r2 u → lang (Alt r1 r2) u
| lang_star_nil r : lang (Star r) ""
| lang_star_cons r u v :
    lang r u → lang (Star r) v → lang (Star r) (u +:+ v)
| lang_bol : lang Bol ""
| lang_wordb : lang WordB ""
| lang_group r u : lang r u → lang (Group r) u.

(** Whatever [run] hands to its continuation lies a word of the pattern
    further on. *)
Definition sound {A} (r : regex)
    (go : option ascii → string → string → @cont A → option A) : Prop :=
  ∀ prev s cap k a,
    go prev s cap k = Some a →
    ∃ u s' p c, s = u +:+ s' ∧ lang r u ∧ k p s' c = Some a.

Lemma star_sound {A} r (body : option ascii → string → string → @cont A → option A) :
  sound r body → ∀ n, sound (Star r) (star body n).
Proof.
  intros Hbody n. induction n as [|n IH]; intros prev s cap k a Hrun.
  - exists "", s, prev, cap. split_and!; [done | constructor | done].
  - simpl in Hrun.
    destruct (body prev s cap _) as [a'|] eqn:Hb.
    + injection Hrun as ->.
      apply Hbody in Hb as (u & s1 & p & c & -> & Hu & Hk).
      destruct (_ <? _)%nat; [|done].
      apply IH in Hk as (v & s2 & p' & c' & -> & Hv & Hk).
      exists (u +:+ v), s2, p', c'.
      split_and!; [by rewrite app_assoc_s | by constructor | done].
    + exists "", s, prev, cap. split_and!; [done | constructor | done].
Qed.

Lemma run_sound {A} r : sound r (@run A r).
Proof.
  induction r as [|cs|r1 IH1 r2 IH2|r1 IH1 r2 IH2|r IH| | |r IH];
    intros prev s cap k a Hrun; simpl in Hrun.
  - exists "", s, prev, cap. split_and!; [done | constructor | done].
  - destruct s as [|c s]; [done|].
    destruct (inSet cs c) eqn:Hc; [|done].
    exists (String c ""), s, (Some c), cap.
    split_and!; [done | by constructor | done].
  - apply IH1 in Hrun as (u & s1 & p & c & -> & Hu & Hrun).
    apply IH2 in Hrun as (v & s2 & p' & c' & -> & Hv & Hk).
    exists (u +:+ v), s2, p', c'.
    split_and!; [by rewrite app_assoc_s | by constructor | done].
  - destruct (run r1 prev s cap k) as [a'|] eqn:H1.
    + injection Hrun as ->.
      apply IH1 in H1 as (u & s1 & p & c & -> & Hu & Hk).
      exists u, s1, p, c. split_and!; [done | by apply lang_alt_l | done].
    + apply IH2 in Hrun as (u & s1 & p & c & -> & Hu & Hk).
      exists u, s1, p, c. split_and!; [done | by apply lang_alt_r | done].
  - by apply (star_sound r (run r) IH) in Hrun.
  - destruct prev; [done|].
    exists "", s, None, cap. split_and!; [done | constructor | done].
  - destruct (xorb _ _); [|done].
    exists "", s, prev, cap. split_and!; [done | constructor | done].
  - apply IH in Hrun as (u & s1 & p & c & -> & Hu & Hk).
    exists u, s1, p, (consumed (u +:+ s1) s1).
    split_and!; [done | by constructor | done].
Qed.

Lemma consumed_app u s : consumed (u +:+ s) s = u.
Proof.
  unfold consumed. rewrite length_app_s.
  replace (String.length u + String.length s - String.length s)%nat
    with (String.length u) by lia.
  apply takeS_app.
Qed.

Lemma matchHere_sound r prev s f :
  matchHere r prev s = Some f →
  before f = "" ∧ s = whole f +:+ rest f ∧ lang r (whole f).
Proof.
  unfold matchHere. intros H.
  apply run_sound in H as (u & s' & p & c & -> & Hu & [= <-]). simpl.
  by rewrite consumed_app.
Qed.

Lemma search_sound r : ∀ s prev f,
  search r prev s = Some f →
  s = before f +:+ whole f +:+ rest f ∧ lang r (whole f).
Proof.
  induction s as [|c s IH]; intros prev f; simpl.
  - destruct (matchHere r prev "") as [f'|] eqn:Hm; [|done].
    intros [= ->]. apply matchHere_sound in Hm as (-> & Hs & Hl). done.
  - destruct (matchHere r prev (String c s)) as [f'|] eqn:Hm.
    + intros [= ->]. apply matchHere_sound in Hm as (-> & Hs & Hl). done.
    + destruct (search r (Some c) s) as [f'|] eqn:Hs; [|done].
      intros [= <-]. simpl. apply IH in Hs as [Hs Hl].
      split; [|done]. rewrite app_cons_s. by f_equal.
Qed.

(** *** Three readings of a pattern *)

Fixpoint classes (r : regex) : list byteset :=
  match r with
  | Set_ cs => [cs]
  | Cat r1 r2 | Alt r1 r2 => classes r1 ++ classes r2
  | Star r | Group r => classes r
  | Eps | Bol | WordB => []
  end.

(** A byte some class of the pattern admits. *)
Definition mayUse (r : regex) (c : ascii) : bool :=
  existsb (λ cs, inSet cs c) (classes r).

Fixpoint minlen (r : regex) : nat :=
  match r with
  | Set_ _ => 1
  | Cat r1 r2 => minlen r1 + minlen r2
  | Alt r1 r2 => minlen r1 `min` minlen r2
  | Group r => minlen r
  | Star _ | Eps | Bol | WordB => 0
  end.

Definition allBytes : list ascii := ascii_of_nat <$> List.seq 0%nat 256%nat.

Lemma in_allBytes c : c ∈ allBytes.
Proof.
  unfold allBytes. apply list_elem_of_fmap. exists (nat_of_ascii c).
  split; [by rewrite ascii_nat_embedding|].
  apply elem_of_seq. pose proof (nat_ascii_bounded c). lia.
Qed.

(** Every word of the pattern has a byte with property [P]. *)
Fixpoint needs (P : ascii → bool) (r : regex) : bool :=
  match r with
  | Set_ cs => forallb (λ c, implb (inSet cs c) (P c)) allBytes
  | Cat r1 r2 => needs P r1 || needs P r2
  | Alt r1 r2 => needs P r1 && needs P r2
  | Group r => needs P r
  | Star _ | Eps | Bol | WordB => false
  end.

Lemma occurs_app_true c a b :
  occurs c (a +:+ b) = true ↔ occurs c a = true ∨ occurs c b = true.
Proof. by rewrite occurs_app, orb_true_iff. Qed.

Lemma lang_mayUse r u :
  lang r u → ∀ c, occurs c u = true → mayUse r c = true.
Proof.
  unfold mayUse. induction 1; intros x Hx; simpl in *; try done.
  - rewrite orb_false_r in Hx. apply bool_decide_eq_true in Hx as ->.
    by rewrite H.
  - rewrite existsb_app. apply occurs_app_true in Hx as [Hx|Hx].
    + by rewrite IHlang1.
    + rewrite IHlang2 by done. apply orb_true_r.
  - rewrite existsb_app. by rewrite IHlang.
  - rewrite existsb_app. rewrite IHlang by done. apply orb_true_r.
  - apply occurs_app_true in Hx as [Hx|Hx]; auto.
  - auto.
Qed.

Lemma lang_minlen r u : lang r u → (minlen r ≤ String.length u)%nat.
Proof.
  induction 1; simpl in *; try lia.
  rewrite length_app_s. lia.
Qed.

Lemma lang_needs P r u :
  lang r u → needs P r = true → ∃ c, occurs c u = true ∧ P c = true.
Proof.
  induction 1; cbn [needs]; intros Hn; try done.
  - exists c. split; [by simpl; rewrite bool_decide_true|].
    rewrite forallb_forall in Hn.
    specialize (Hn c). rewrite H in Hn. apply Hn.
    apply list_elem_of_In, in_allBytes.
  - apply orb_true_iff in Hn as [Hn|Hn].
    + destruct (IHlang1 Hn) as (c & Hc & HP). exists c.
      split; [|done]. apply occurs_app_true. by left.
    + destruct (IHlang2 Hn) as (c & Hc & HP). exists c.
      split; [|done]. apply occurs_app_true. by right.
  - apply andb_true_iff in Hn as [Hn _]. auto.
  - apply andb_true_iff in Hn as [_ Hn]. auto.
  - auto.
Qed.

End Regexp.

(* ================================================================== *)
(** * internal/tool/shell.go: the shell tool and its sandbox           *)
(* ================================================================== *)

Module Shell.
Import LLM Str Regexp.

Definition MustCompile (source : string) (prog : regex) : Regexp :=
  {| source := source; prog := prog |}.

(** [denyPatterns], each with the pattern text of the source. *)
Definition denyPatterns : list Regexp := [
  MustCompile "(?i)\brm\s+-[rRf]{1,3}\s+[/~*]"
    (seq [b; ci "rm"; ws1; chr "-";
          between 1 3 (Set_ (fold "r" ++ fold "f")); ws1;
          Set_ [one "/"; one "~"; one "*"]%char]);
  MustCompile "(?i)\brm\s+-[rRf]{1,3}\b"
    (seq [b; ci "rm"; ws1; chr "-";
          between 1 3 (Set_ (fold "r" ++ fold "f")); b]);
  MustCompile "(?i)\bmkfs\b" (seq [b; ci "mkfs"; b]);
  MustCompile "(?i)\bdd\s+if=" (seq [b; ci "dd"; ws1; ci "if="]);
  MustCompile ":\(\)\s*\{.*\|.*&\s*\}\s*;"
    (seq [lit ":()"; ws0; chr "{"; Star anyByte; chr "|"; Star anyByte;
          chr "&"; ws0; chr "}"; ws0; chr ";"]);
  MustCompile "(?i)\b(shutdown|reboot|poweroff|halt)\b"
    (seq [b; alt [ci "shutdown"; ci "reboot"; ci "poweroff"; ci "halt"]; b]);
  MustCompile "(?i)\bchmod\s+-R\s+777\s+/"
    (seq [b; ci "chmod"; ws1; ci "-R"; ws1; lit "777"; ws1; chr "/"]);
  MustCompile "(?i)\bchown\s+-R\b" (seq [b; ci "chown"; ws1; ci "-R"; b]);
  MustCompile ">\s*/dev/sd[a-z]"
    (seq [chr ">"; ws0; lit "/dev/sd"; Set_ [range "a" "z"]%char]);
  MustCompile "(?i)\b(curl|wget)\b.*\|\s*(sh|bash)\b"
    (seq [b; alt [ci "curl"; ci "wget"]; b; Star anyByte; chr "|"; ws0;
          alt [ci "sh"; ci "bash"]; b]);
  MustCompile "(?i)\beval\b" (seq [b; ci "eval"; b]);
  MustCompile "(?i)\bexec\b" (seq [b; ci "exec"; b]);
  MustCompile "(?i)\bsudo\s+(rm|dd|mkfs)\b"
    (seq [b; ci "sudo"; ws1; alt [ci "rm"; ci "dd"; ci "mkfs"]; b]);
  MustCompile "(?i)\b(killall|kill\s+-9)\b"
    (seq [b; alt [ci "killall"; seq [ci "kill"; ws1; lit "-9"]]; b]);
  MustCompile "(?i)\b(passwd|useradd|userdel|usermod)\b"
    (seq [b; alt [ci "passwd"; ci "useradd"; ci "userdel"; ci "usermod"]; b]);
  MustCompile "(?i)\biptables\s+-F\b"
    (seq [b; ci "iptables"; ws1; ci "-F"; b]);
  MustCompile "(?i)\bufw\s+disable\b" (seq [b; ci "ufw"; ws1; ci "disable"; b]);
  MustCompile "(?i)\b(nc|ncat)\s+-l\b"
    (seq [b; alt [ci "nc"; ci "ncat"]; ws1; ci "-l"; b]);
  MustCompile "(?i)\b(python3?|perl|ruby)\s+-[ce]\b"
    (seq [b; alt [seq [ci "python"; opt (chr "3")]; ci "perl"; ci "ruby"];
          ws1; chr "-"; Set_ (fold "c" ++ fold "e"); b]);
  MustCompile "(?i)\bbase64\s+-d\b" (seq [b; ci "base64"; ws1; ci "-d"; b]);
  MustCompile "(?i)\bhistory\s+-c\b" (seq [b; ci "history"; ws1; ci "-c"; b]);
  MustCompile "(?i)\bshred\b" (seq [b; ci "shred"; b]);
  MustCompile "/etc/(shadow|passwd)\b"
    (seq [lit "/etc/"; alt [lit "shadow"; lit "passwd"]; b]);
  MustCompile "(?i)\bcrontab\s+-r\b" (seq [b; ci "crontab"; ws1; ci "-r"; b]);
  MustCompile "(?i)\bsystemctl\s+(stop|disable)\b"
    (seq [b; ci "systemctl"; ws1; alt [ci "stop"; ci "disable"]; b]);
  MustCompile "(?i)\blaunchctl\s+unload\b"
    (seq [b; ci "launchctl"; ws1; ci "unload"; b]);
  MustCompile "(?i)\bdefaults\s+delete\b"
    (seq [b; ci "defaults"; ws1; ci "delete"; b]);
  MustCompile "(?i)\bxargs\s+rm\b" (seq [b; ci "xargs"; ws1; ci "rm"; b]);
  MustCompile "(?i)\bfind\s+/\s+.*-delete\b"
    (seq [b; ci "find"; ws1; chr "/"; ws1; Star anyByte; ci "-delete"; b]);
  MustCompile "(?i)\btruncate\s+-s\s+0\b"
    (seq [b; ci "truncate"; ws1; ci "-s"; ws1; chr "0"; b]);
  MustCompile "(?i)\bcat\s+/dev/urandom\b"
    (seq [b; ci "cat"; ws1; ci "/dev/urandom"; b]);
  MustCompile "(?i)\bfork\(\)" (seq [b; ci "fork()"]);
  MustCompile "(?i)\bwhile\s+true\b" (seq [b; ci "while"; ws1; ci "true"; b]);
  MustCompile "(?i)\bnohup\b" (seq [b; ci "nohup"; b]);
  MustCompile "(?i)\bscp\b" (seq [b; ci "scp"; b]);
  MustCompile "(?i)\brsync\s+--delete\b"
    (seq [b; ci "rsync"; ws1; ci "--delete"; b]);
  MustCompile "(?i)\bgit\s+push\s+--force\b"
    (seq [b; ci "git"; ws1; ci "push"; ws1; ci "--force"; b]);
  MustCompile "(?i)\bnpm\s+publish\b" (seq [b; ci "npm"; ws1; ci "publish"; b]);
  MustCompile "(?i)\bpip\s+install\s+--"
    (seq [b; ci "pip"; ws1; ci "install"; ws1; lit "--"]);
  MustCompile "(?i)\bdocker\s+(rm|rmi)\s+-f\b"
    (seq [b; ci "docker"; ws1; alt [ci "rm"; ci "rmi"]; ws1; ci "-f"; b])
].

(** The pattern compiled inside [containsAbsolutePathOutsideWorkspace]. *)
Definition absPathPattern : Regexp :=
  MustCompile "(?:^|\s)(/[a-zA-Z][a-zA-Z0-9_/.-]*)"
    (seq [alt [Bol; space];
          Group (seq [chr "/";
                      Set_ [range "a" "z"; range "A" "Z"]%char;
                      Star (Set_ [range "a" "z"; range "A" "Z"; range "0" "9";
                                  one "_"; one "/"; one "."; one "-"]%char)])]).

Record ShellTool := {
  workspaceDir : string;
  timeoutSecs : Z;
  maxOutputChars : Z;
  sandboxEnabled : bool
}.

Record ShellConfig := {
  WorkspaceDir : string;
  TimeoutSecs : Z;
  MaxOutputChars : Z;
  SandboxEnabled : bool
}.

Definition NewShellTool (cfg : ShellConfig) : ShellTool :=
  {| workspaceDir := WorkspaceDir cfg;
     timeoutSecs := if bool_decide (TimeoutSecs cfg ≤ 0) then 60
                    else TimeoutSecs cfg;
     maxOutputChars := if bool_decide (MaxOutputChars cfg ≤ 0) then 10000
                       else MaxOutputChars cfg;
     sandboxEnabled := SandboxEnabled cfg |}.

(** [collapseWhitespace] ranges over the runes of [s]: Go decodes the
    UTF-8 at each position, and where the bytes encode no rune it takes
    one byte and reads it as U+FFFD.  A rune is kept here as the bytes
    [WriteRune] writes for it. *)
Definition isBlank (ch : ascii) : bool :=
  bool_decide (ch = " " ∨ ch = "009" ∨ ch = "010" ∨ ch = "013")%char.

Definition byte (c : ascii) : N := N_of_ascii c.

Definition within (lo hi : N) (c : ascii) : bool :=
  bool_decide (lo ≤ byte c ≤ hi)%N.

(** The tables [first] and [acceptRanges] of [unicode/utf8]: for a byte
    that can begin a rune, the size of the encoding and the range of its
    second byte. *)
Definition lead (c0 : ascii) : option (nat * N * N) :=
  if within 0x00 0x7F c0 then Some (1%nat, 0x00, 0x00)%N
  else if within 0xC2 0xDF c0 then Some (2%nat, 0x80, 0xBF)%N
  else if within 0xE0 0xE0 c0 then Some (3%nat, 0xA0, 0xBF)%N
  else if within 0xE1 0xEC c0 then Some (3%nat, 0x80, 0xBF)%N
  else if within 0xED 0xED c0 then Some (3%nat, 0x80, 0x9F)%N
  else if within 0xEE 0xEF c0 then Some (3%nat, 0x80, 0xBF)%N
  else if within 0xF0 0xF0 c0 then Some (4%nat, 0x90, 0xBF)%N
  else if within 0xF1 0xF3 c0 then Some (4%nat, 0x80, 0xBF)%N
  else if within 0xF4 0xF4 c0 then Some (4%nat, 0x80, 0x8F)%N
  else None.

(** The next [k] bytes are there and are continuation bytes. *)
Fixpoint allCont (k : nat) (s : string) : bool :=
  match k, s with
  | O, _ => true
  | S k, String c s => within 0x80 0xBF c && allCont k s
  | S _, EmptyString => false
  end.

(** [utf8.DecodeRuneInString], as far as its width goes: the number of
    bytes of the rune encoded at the head of [s], or [None] where Go
    returns [RuneError] with width one. *)
Definition runeLen (s : string) : option nat :=
  match s with
  | EmptyString => None
  | String c0 s1 =>
      match lead c0 with
      | None => None
      | Some (1%nat, _, _) => Some 1%nat
      | Some (sz, lo, hi) =>
          match s1 with
          | String c1 s2 =>
              if within lo hi c1 && allCont (sz - 2) s2 then Some sz
              else None
          | EmptyString => None
          end
      end
  end.

(** U+FFFD as [WriteRune] writes it. *)
Definition replacement : string :=
  String "239" (String "191" (String "189" EmptyString)).

(** The rune at the head of a string that is not empty, and what
    follows it. *)
Definition decodeRune (s : string) : string * string :=
  match runeLen s with
  | Some n => (takeS n s, dropS n s)
  | None => (replacement, dropS 1 s)
  end.

(** [ch == ' ' || ch == '\t' || ch == '\n' || ch == '\r'] on a rune. *)
Definition blankRune (ch : string) : bool :=
  match ch with
  | String c EmptyString => isBlank c
  | _ => false
  end.

(** The loop, with [inSpace] as it stands and [s] still to read; it
    reads at least one byte in every pass, so [fuel] at the length of
    [s] sees it through. *)
Fixpoint collapseFrom (fuel : nat) (inSpace : bool) (s : string) : string :=
  match fuel, s with
  | S fuel, String _ _ =>
      let '(ch, rest) := decodeRune s in
      if blankRune ch then
        if negb inSpace then String " " (collapseFrom fuel true rest)
        else collapseFrom fuel true rest
      else ch +:+ collapseFrom fuel false rest
  | _, _ => ""
  end.

Definition collapseWhitespace (s : string) : string :=
  collapseFrom (String.length s) false s.

Definition checkDenyList (command : string) : string :=
  let normalized := collapseWhitespace command in
  match find (λ pattern, MatchString pattern normalized) denyPatterns with
  | Some pattern => "matches deny pattern: " +:+ source pattern
  | None => ""
  end.

(** [strings.Contains]. *)
Fixpoint Contains (s substr : string) : bool :=
  String.prefix substr s ||
  match s with
  | EmptyString => false
  | String _ s => Contains s substr
  end.

Definition HasPrefix (s prefix : string) : bool := String.prefix prefix s.

(** The paths the pattern picks out of a command: group 1 of each match. *)
Definition absolutePathTokens (command : string) : list string :=
  snd <$> FindAllStringSubmatch absPathPattern command.

Section Sandbox.
(** [filepath.Abs], which depends on the process's working directory. *)
Variable Abs : string → option string.

Definition containsAbsolutePathOutsideWorkspace (command workspace : string)
  : bool :=
  match Abs workspace with
  | None => false
  | Some absWorkspace =>
      existsb (λ path, negb (HasPrefix path absWorkspace)
                       && negb (HasPrefix path "/dev/null"))
              (absolutePathTokens command)
  end.

(** The "Sandbox checks" block of [Execute]: the result it returns early
    with, if any. *)
Definition sandboxChecks (t : ShellTool) (command : string)
  : option Tool.Result :=
  let reason := checkDenyList command in
  if bool_decide (reason ≠ "") then
    Some {| Tool.Output := "";
            Tool.Error_ := "command blocked by sandbox: " +:+ reason;
            Tool.IsError := true |}
  else if Contains command "../" then
    Some {| Tool.Output := "";
            Tool.Error_ := "command blocked: path traversal detected";
            Tool.IsError := true |}
  else if bool_decide (workspaceDir t ≠ "")
          && containsAbsolutePathOutsideWorkspace command (workspaceDir t) then
    Some {| Tool.Output := "";
            Tool.Error_ := "command blocked: absolute path outside workspace";
            Tool.IsError := true |}
  else None.

Section Execute.
Context {W : Type}.
(** [json.Unmarshal] into the parameter struct: the command or the
    decoding error's text. *)
Variable decode : RawMessage → string + string.
(** [exec.CommandContext(ctx, "sh", "-c", command)] run in [dir] under
    the timeout: the combined output and the error, if any. *)
Variable sh : string → string → Z → W → (string * option error) * W.

Definition Execute (t : ShellTool) (args : RawMessage) (w : W)
  : (option Tool.Result * option error) * W :=
  match decode args with
  | inr err =>
      ((Some {| Tool.Output := "";
                Tool.Error_ := "invalid arguments: " +:+ err;
                Tool.IsError := true |}, None), w)
  | inl command =>
      if bool_decide (command = "") then
        ((Some {| Tool.Output := ""; Tool.Error_ := "command is required";
                  Tool.IsError := true |}, None), w)
      else
        match (if sandboxEnabled t then sandboxChecks t command else None) with
        | Some blocked => ((Some blocked, None), w)
        | None =>
            let '((output, err), w') :=
              sh (workspaceDir t) command (timeoutSecs t) w in
            let result :=
              if bool_decide (Go.len output > maxOutputChars t) then
                takeS (Z.to_nat (maxOutputChars t)) output
                +:+ "
... (output truncated)"
              else output in
            match err with
            | Some err =>
                ((Some {| Tool.Output := result; Tool.Error_ := Error err;
                          Tool.IsError := true |}, None), w')
            | None =>
                ((Some {| Tool.Output := result; Tool.Error_ := "";
                          Tool.IsError := false |}, None), w')
            end
        end
  end.

End Execute.
End Sandbox.

(** A workspace given as a clean absolute path is its own [Abs]. *)
Definition absOfAbsolute (p : string) : option string := Some p.

Definition sandboxed : ShellTool :=
  NewShellTool {| WorkspaceDir := "/home/dan/.opendan/workspace";
                  TimeoutSecs := 0; MaxOutputChars := 0;
                  SandboxEnabled := true |}.

Example rm_rf_with_two_blanks_is_blocked :
  sandboxChecks absOfAbsolute sandboxed "echo hi ; rm  -rf /" =
    Some {| Tool.Output := "";
            Tool.Error_ := "command blocked by sandbox: matches deny pattern: (?i)\brm\s+-[rRf]{1,3}\s+[/~*]";
            Tool.IsError := true |}.
Proof. vm_compute. reflexivity. Qed.

Example plain_listing_is_accepted :
  sandboxChecks absOfAbsolute sandboxed "ls -la notes/2024" = None.
Proof. vm_compute. reflexivity. Qed.

Example etc_hosts_is_blocked :
  sandboxChecks absOfAbsolute sandboxed "cat /etc/hosts" =
    Some {| Tool.Output := "";
            Tool.Error_ := "command blocked: absolute path outside workspace";
            Tool.IsError := true |}.
Proof. vm_compute. reflexivity. Qed.

Example tokens_of_a_command :
  absolutePathTokens "cp /tmp/a.txt  /home/dan/b >/dev/null" =
    ["/tmp/a.txt"; "/home/dan/b"].
Proof. vm_compute. reflexivity. Qed.




(** With no workspace configured the path check is skipped altogether. *)
Example no_workspace_no_path_check :
  sandboxChecks absOfAbsolute
    (NewShellTool {| WorkspaceDir := ""; TimeoutSecs := 0;
                     MaxOutputChars := 0; SandboxEnabled := true |})
    "cat /etc/hosts" = None.
Proof. vm_compute. reflexivity. Qed.


(** A command the sandbox lets through is the one [Execute] hands to the
    shell. *)
Lemma Execute_runs_accepted {W} Abs decode sh t args command (w : W) :
  decode args = inl command →
  command ≠ "" →
  sandboxEnabled t = true →
  sandboxChecks Abs t command = None →
  ∃ output result err w',
    sh (workspaceDir t) command (timeoutSecs t) w = ((output, err), w') ∧
    Execute Abs decode sh t args w = ((Some result, None), w') ∧
    Tool.IsError result = bool_decide (err ≠ None).
Proof.
  intros Hd Hne Hen Hok. unfold Execute. rewrite Hd, Hen, Hok.
  rewrite bool_decide_false by done.
  destruct (sh _ _ _ _) as [[output [e|]] w'];
    by eexists _, _, _, _.
Qed.



(** ** Whitespace that has been collapsed *)

(** A string with no tab, newline or carriage return and no two blanks
    in a row; [inSpace] says that a blank came just before it. *)
Fixpoint tidy (inSpace : bool) (s : string) : bool :=
  match s with
  | EmptyString => true
  | String ch s =>
      if isBlank ch
      then negb inSpace && bool_decide (ch = " "%char) && tidy true s
      else tidy false s
  end.

(** [utf8.ValidString]: the string is a sequence of encoded runes. *)
Fixpoint validFrom (fuel : nat) (s : string) : bool :=
  match fuel, s with
  | S fuel, String _ _ =>
      match runeLen s with
      | Some n => validFrom fuel (dropS n s)
      | None => false
      end
  | _, _ => true
  end.

Definition ValidString (s : string) : bool := validFrom (String.length s) s.

Inductive runes : string → Prop :=
| runes_nil : runes ""
| runes_cons s n : runeLen s = Some n → runes (dropS n s) → runes s.

Fixpoint noBlank (s : string) : bool :=
  match s with
  | EmptyString => true
  | String c s => negb (isBlank c) && noBlank s
  end.

Lemma length_dropS_rune (n : nat) (s : string) :
  String.length (dropS n s) = (String.length s - n)%nat.
Proof. revert s. induction n as [|n IH]; intros [|c s]; simpl; auto. Qed.

Lemma high_byte_not_blank c : (0x80 ≤ byte c)%N → isBlank c = false.
Proof.
  intros H. apply bool_decide_eq_false.
  intros [->|[->|[->| ->]]]; vm_compute in H; by apply H.
Qed.

Lemma lead_size c0 sz lo hi :
  lead c0 = Some (sz, lo, hi) →
  (sz = 1%nat ∧ (byte c0 < 0x80)%N) ∨
  ((sz = 2 ∨ sz = 3 ∨ sz = 4)%nat ∧ (0x80 ≤ byte c0)%N ∧ (0x80 ≤ lo)%N).
Proof.
  unfold lead, within. intros H.
  repeat case_bool_decide; simplify_eq;
    first [ left; split; [done | lia]
          | right; split_and!; [auto | lia | lia] ].
Qed.

Lemma allCont_takeS k s x :
  allCont k s = true →
  allCont k (takeS k s +:+ x) = true ∧ noBlank (takeS k s) = true ∧
  String.length (takeS k s) = k.
Proof.
  revert s. induction k as [|k IH]; intros [|c s]; simpl; try done.
  intros [Hc Hs]%andb_true_iff. rewrite Hc.
  destruct (IH s Hs) as (-> & -> & ->). split_and!; [done | | done].
  rewrite high_byte_not_blank; [done|].
  unfold within in Hc. apply bool_decide_eq_true in Hc. lia.
Qed.

(** What [runeLen] tells about the bytes of the rune. *)
Lemma runeLen_Some s n :
  runeLen s = Some n →
  takeS n s ≠ "" ∧ String.length (takeS n s) = n ∧ (1 ≤ n)%nat ∧
  (∀ x, runeLen (takeS n s +:+ x) = Some n) ∧
  (blankRune (takeS n s) = false → noBlank (takeS n s) = true) ∧
  (blankRune (takeS n s) = true →
   ∃ c r, s = String c r ∧ n = 1%nat ∧ isBlank c = true).
Proof.
  destruct s as [|c0 s1]; [done|]. unfold runeLen.
  destruct (lead c0) as [[[sz lo] hi]|] eqn:Hlead; [|done].
  destruct (lead_size _ _ _ _ Hlead) as [[-> Hc0]|(Hsz & Hc0 & Hlo)].
  { intros [= <-]. simpl. split_and!; [done | done | lia | | |].
    - intros x. unfold runeLen. by rewrite Hlead.
    - intros ->. done.
    - intros Hb. by exists c0, s1. }
  assert (isBlank c0 = false) as Hb0 by by apply high_byte_not_blank.
  assert (match sz with
          | 1%nat => Some 1%nat
          | _ => match s1 with
                 | String c1 s2 =>
                     if within lo hi c1 && allCont (sz - 2) s2 then Some sz
                     else None
                 | EmptyString => None
                 end
          end
          = match s1 with
            | String c1 s2 =>
                if within lo hi c1 && allCont (sz - 2) s2 then Some sz
                else None
            | EmptyString => None
            end) as ->.
  { by destruct Hsz as [->|[->| ->]]. }
  destruct s1 as [|c1 s2]; [done|].
  destruct (within lo hi c1) eqn:Hc1; [|done].
  destruct (allCont (sz - 2) s2) eqn:Hconts; [|done].
  simpl. intros [= <-].
  assert (isBlank c1 = false) as Hb1.
  { apply high_byte_not_blank. unfold within in Hc1.
    apply bool_decide_eq_true in Hc1. lia. }
  assert (∃ k, sz = S (S k) ∧ (sz - 2)%nat = k) as (k & -> & Hk).
  { destruct Hsz as [->|[->| ->]]; by eexists. }
  rewrite Hk in Hconts. cbn [takeS].
  destruct (allCont_takeS k s2 "" Hconts) as (_ & Hnb & Hlen).
  split_and!.
  - done.
  - simpl. by rewrite Hlen.
  - lia.
  - intros x. rewrite !app_cons_s. unfold runeLen. rewrite Hlead.
    replace (S (S k) - 2)%nat with k by lia.
    destruct (allCont_takeS k s2 x Hconts) as (-> & _ & _).
    rewrite Hc1. simpl. by destruct Hsz as [[=]|[[=]|[=]]]; subst.
  - intros _. simpl. by rewrite Hb0, Hb1, Hnb.
  - done.
Qed.

Lemma tidy_noBlank u x b :
  u ≠ "" → noBlank u = true → tidy b (u +:+ x) = tidy false x.
Proof.
  revert b. induction u as [|c u IH]; intros b Hne Hu; [done|].
  simpl in Hu. apply andb_true_iff in Hu as [Hc Hu].
  rewrite app_cons_s. simpl. apply negb_true_iff in Hc. rewrite Hc.
  destruct u as [|c' u]; [by rewrite app_nil_s|]. by apply IH.
Qed.

Lemma collapseFrom_tidy fuel : ∀ inSpace s,
  tidy inSpace (collapseFrom fuel inSpace s) = true ∧
  runes (collapseFrom fuel inSpace s).
Proof.
  induction fuel as [|fuel IH]; intros inSpace s; [by split; [|constructor]|].
  destruct s as [|c0 s1]; [by split; [|constructor]|].
  cbn [collapseFrom]. unfold decodeRune.
  destruct (runeLen (String c0 s1)) as [n|] eqn:Hlen.
  - destruct (runeLen_Some _ _ Hlen) as (Hne & Hn & H1 & Hpre & Hnb & Hbl).
    destruct (blankRune (takeS n (String c0 s1))) eqn:Hblank.
    + destruct inSpace; simpl.
      * apply IH.
      * destruct (IH true (dropS n (String c0 s1))) as [Ht Hr].
        split; [done|]. by apply (runes_cons _ 1).
    + destruct (IH false (dropS n (String c0 s1))) as [Ht Hr].
      split; [by rewrite tidy_noBlank by auto|].
      apply (runes_cons _ n); [apply Hpre|].
      rewrite <-Hn at 1. by rewrite dropS_app.
  - destruct (IH false (dropS 1 (String c0 s1))) as [Ht Hr].
    simpl. split; [done|]. by apply (runes_cons _ 3).
Qed.

Lemma runes_collapseFrom s :
  runes s → ∀ fuel inSpace,
  (String.length s ≤ fuel)%nat → tidy inSpace s = true →
  collapseFrom fuel inSpace s = s.
Proof.
  induction 1 as [|s n Hlen Hrest IH]; intros fuel inSpace Hfuel Htidy.
  { by destruct fuel. }
  destruct (runeLen_Some _ _ Hlen) as (Hne & Hn & H1 & Hpre & Hnb & Hbl).
  destruct s as [|c0 s1]; [done|].
  destruct fuel as [|fuel]; [simpl in Hfuel; lia|].
  cbn [collapseFrom]. unfold decodeRune. rewrite Hlen.
  assert (String.length (dropS n (String c0 s1)) ≤ fuel)%nat as Hshort.
  { rewrite length_dropS_rune. simpl in *. lia. }
  destruct (blankRune (takeS n (String c0 s1))) eqn:Hblank.
  - destruct (Hbl eq_refl) as (c & r & [= <- <-] & -> & Hc).
    simpl in Htidy. rewrite Hc in Htidy.
    apply andb_true_iff in Htidy as [[Hin Hsp%bool_decide_eq_true]%andb_true_iff Ht].
    destruct inSpace; [done|]. simpl. subst c0. f_equal. by apply IH.
  - rewrite <-(takeS_dropS n (String c0 s1)) in Htidy.
    rewrite tidy_noBlank in Htidy by auto.
    rewrite IH by done. apply takeS_dropS.
Qed.

Lemma validFrom_runes fuel : ∀ s,
  (String.length s ≤ fuel)%nat → validFrom fuel s = true → runes s.
Proof.
  induction fuel as [|fuel IH]; intros [|c0 s1] Hfuel Hv;
    try constructor; [simpl in Hfuel; lia|].
  cbn [validFrom] in Hv.
  destruct (runeLen (String c0 s1)) as [n|] eqn:Hlen; [|done].
  apply (runes_cons _ n); [done|]. apply IH; [|done].
  destruct (runeLen_Some _ _ Hlen) as (_ & _ & H1 & _).
  rewrite length_dropS_rune. simpl in *. lia.
Qed.

Lemma runes_validFrom s : runes s → ∀ fuel, validFrom fuel s = true.
Proof.
  induction 1 as [|s n Hlen Hrest IH]; intros fuel; [by destruct fuel|].
  destruct fuel as [|fuel]; [done|]. destruct s as [|c0 s1]; [done|].
  cbn [validFrom]. rewrite Hlen. apply IH.
Qed.

(** The loop reads at least one byte in every pass, so fuel beyond the
    length of the string changes nothing. *)
Lemma collapseFrom_fuel fuel : ∀ more inSpace s,
  (String.length s ≤ fuel)%nat → (String.length s ≤ more)%nat →
  collapseFrom fuel inSpace s = collapseFrom more inSpace s.
Proof.
  induction fuel as [|fuel IH]; intros more inSpace s Hfuel Hmore.
  { destruct s; [by destruct more | simpl in Hfuel; lia]. }
  destruct s as [|c0 s1]; [by destruct more|].
  destruct more as [|more]; [simpl in Hmore; lia|].
  cbn [collapseFrom]. unfold decodeRune.
  assert (∀ n, (1 ≤ n)%nat →
            (String.length (dropS n (String c0 s1)) ≤ fuel)%nat ∧
            (String.length (dropS n (String c0 s1)) ≤ more)%nat) as Hshort.
  { intros n Hn. rewrite length_dropS_rune. simpl in *. lia. }
  destruct (runeLen (String c0 s1)) as [n|] eqn:Hlen.
  - destruct (runeLen_Some _ _ Hlen) as (_ & _ & H1 & _).
    destruct (Hshort n H1) as [Hf Hm].
    by rewrite !(IH more _ _ Hf Hm).
  - destruct (Hshort 1%nat ltac:(lia)) as [Hf Hm].
    by rewrite !(IH more _ _ Hf Hm).
Qed.

(** X13.  Whatever the bytes of the command, what [collapseWhitespace]
    returns is valid UTF-8 with no tab, newline or carriage return and
    no two blanks in a row; valid UTF-8 that is already like that comes
    back as it is; so collapsing twice is collapsing once, and the deny
    list gives a command and its collapsed form the same verdict. *)
Theorem collapsed_whitespace_is_tidy (s : string) :
  tidy false (collapseWhitespace s) = true ∧
  ValidString (collapseWhitespace s) = true ∧
  (ValidString s = true → tidy false s = true → collapseWhitespace s = s) ∧
  collapseWhitespace (collapseWhitespace s) = collapseWhitespace s ∧
  checkDenyList (collapseWhitespace s) = checkDenyList s.
Proof.
  unfold checkDenyList, ValidString, collapseWhitespace.
  destruct (collapseFrom_tidy (String.length s) false s) as [Ht Hr].
  assert (∀ x, runes x → tidy false x = true →
               collapseFrom (String.length x) false x = x) as Hsame.
  { intros x Hx Hxt. by apply runes_collapseFrom. }
  rewrite (Hsame _ Hr Ht).
  split_and!; [done | by apply runes_validFrom | | done | done].
  intros Hv. apply Hsame. by eapply validFrom_runes.
Qed.

(** A byte that begins no rune comes out as U+FFFD, and the blanks
    around a rune of three bytes are collapsed as around any other. *)
Example invalid_byte_is_replaced :
  collapseWhitespace (String "255" (String " " (String "009" " a")))
  = replacement +:+ " a" ∧
  collapseWhitespace
    ("rm  " +:+ String "226" (String "130" (String "172" "  -rf")))
  = "rm " +:+ String "226" (String "130" (String "172" " -rf")).
Proof. split; vm_compute; reflexivity. Qed.

(** ** What [Execute] hands back *)

Lemma length_takeS (n : nat) (s : string) :
  (String.length (takeS n s) ≤ n)%nat.
Proof.
  revert s. induction n as [|n IH]; intros [|c s]; simpl; try lia.
  specialize (IH s). lia.
Qed.

Lemma NewShellTool_limits cfg :
  0 < timeoutSecs (NewShellTool cfg) ∧ 0 < maxOutputChars (NewShellTool cfg).
Proof. unfold NewShellTool. simpl. split; case_bool_decide; lia. Qed.

Lemma sandboxChecks_output Abs t command blocked :
  sandboxChecks Abs t command = Some blocked → Tool.Output blocked = "".
Proof.
  unfold sandboxChecks. intros H.
  repeat (case_match; simplify_eq); done.
Qed.

(** X14.  The shell tool always answers with a result and never with a
    Go error: undecodable arguments, an empty command, a blocked
    command and a command that fails all come back as a result, so the
    loop's "Error executing tool" text is never produced for it.  For a
    tool made by [NewShellTool] the timeout and the output limit are
    positive whatever the configuration says, and the output handed back
    is never longer than the limit and the 23 bytes of the truncation
    note. *)
Theorem shell_always_answers {W} Abs decode
    (sh : string → string → Z → W → (string * option error) * W)
    cfg args (w : W) :
  let t := NewShellTool cfg in
  0 < timeoutSecs t ∧ 0 < maxOutputChars t ∧
  ∃ result,
    (Execute Abs decode sh t args w).1 = (Some result, None) ∧
    Go.len (Tool.Output result) ≤ maxOutputChars t + 23.
Proof.
  intros t. destruct (NewShellTool_limits cfg) as [Htime Hmax].
  fold t in Htime, Hmax. clearbody t. split_and!; [done | done |].
  unfold Execute. destruct (decode args) as [command|err].
  2:{ eexists. split; [done|]. simpl. unfold Go.len. simpl. lia. }
  case_bool_decide.
  { eexists. split; [done|]. unfold Go.len. simpl. lia. }
  destruct (if sandboxEnabled t then sandboxChecks Abs t command else None)
    as [blocked|] eqn:Hchecks.
  { eexists. split; [done|].
    assert (Tool.Output blocked = "") as ->.
    { destruct (sandboxEnabled t); [|done].
      by eapply sandboxChecks_output. }
    unfold Go.len. simpl. lia. }
  destruct (sh _ _ _ _) as [[output err] w'].
  assert (Go.len
            (if bool_decide (Go.len output > maxOutputChars t)
             then takeS (Z.to_nat (maxOutputChars t)) output +:+ "
... (output truncated)"
             else output) ≤ maxOutputChars t + 23) as Hlen.
  { case_bool_decide as Hlong; [|lia].
    unfold Go.len. rewrite length_app_s.
    pose proof (length_takeS (Z.to_nat (maxOutputChars t)) output).
    simpl. lia. }
  destruct err; eexists; (split; [done | exact Hlen]).
Qed.

(** X15.  A command the sandbox blocks does not reach the shell: with
    the sandbox enabled, [Execute] answers with the sandbox's result
    whatever the shell would have done, and leaves the world as it was. *)
Theorem blocked_command_is_not_run {W} Abs decode
    (sh : string → string → Z → W → (string * option error) * W)
    t args command blocked (w : W) :
  sandboxEnabled t = true →
  decode args = inl command →
  sandboxChecks Abs t command = Some blocked →
  Execute Abs decode sh t args w = ((Some blocked, None), w).
Proof.
  intros Hen Hdec Hblocked. unfold Execute. rewrite Hdec, Hen, Hblocked.
  case_bool_decide as Hempty; [|done]. subst command. exfalso.
  revert Hblocked. unfold sandboxChecks.
  assert (checkDenyList "" = "") as -> by (vm_compute; reflexivity).
  rewrite bool_decide_false by (intros H; by apply H). simpl.
  unfold containsAbsolutePathOutsideWorkspace.
  assert (absolutePathTokens "" = []) as -> by (vm_compute; reflexivity).
  destruct (bool_decide _); simpl; [|done]. by destruct (Abs _).
Qed.

(** A shell that would leave its mark: it counts the commands it ran. *)
Definition counting (command dir : string) (timeout : Z) (ran : nat)
  : (string * option error) * nat := (("done", None), S ran).

Lemma blocked_command_is_not_run_witness :
  Execute absOfAbsolute (λ args, inl args) counting sandboxed
    "cat /etc/hosts" 0%nat
  = ((Some {| Tool.Output := "";
              Tool.Error_ :=
                "command blocked: absolute path outside workspace";
              Tool.IsError := true |}, None), 0%nat).
Proof.
  apply (blocked_command_is_not_run absOfAbsolute (λ args, inl args) counting
           sandboxed "cat /etc/hosts" "cat /etc/hosts").
  - reflexivity.
  - reflexivity.
  - vm_compute. reflexivity.
Defined.

End Shell.

(* ================================================================== *)
(** * internal/tool/browser.go: URL validation for [navigate]          *)
(* ================================================================== *)

Module Browser.
Import LLM.

Record BrowserConfig := {
  Enabled : bool;
  Headless : bool;
  TimeoutSecs : Z;
  MaxTabs : Z;
  AllowedDomains : list string;
  DeniedDomains : list string;
  MaxPageSizeKB : Z
}.

(** [strings.HasSuffix]. *)
Definition HasSuffix (s suffix : string) : bool :=
  (String.length suffix <=? String.length s)%nat &&
  bool_decide
    (Str.dropS (String.length s - String.length suffix) s = suffix).

Section Validate.
(** The standard library the validation leans on: [url.Parse] with the
    [Scheme] field and the [Hostname] method of its result, [net.ParseIP]
    with the address predicates, and [strings.ToLower]. *)
Context {URL IP : Type}.
Variable Parse : string → URL + error.
Variable Scheme : URL → string.
Variable Hostname : URL → string.
Variable ParseIP : string → option IP.
Variables IsLoopback IsPrivate IsLinkLocalUnicast IsLinkLocalMulticast
          IsUnspecified : IP → bool.
Variable ToLower : string → string.

Definition isPrivateHost (host : string) : bool :=
  let lower := ToLower host in
  if bool_decide (lower = "localhost" ∨ lower = "ip6-localhost"
                  ∨ lower = "ip6-loopback") then true
  else
    match ParseIP host with
    | None => false
    | Some ip =>
        IsLoopback ip || IsPrivate ip || IsLinkLocalUnicast ip
        || IsLinkLocalMulticast ip || IsUnspecified ip
    end.

(** The test both domain loops make on an entry [d] of a list. *)
Definition domainMatches (d domain : string) : bool :=
  let dl := ToLower d in
  bool_decide (dl = domain) || HasSuffix domain ("." +:+ dl).

(** [validateURL]: [None] is the nil error. *)
Definition validateURL (cfg : BrowserConfig) (rawURL : string)
  : option error :=
  match Parse rawURL with
  | inr err => Some (WrapError "invalid URL: " err)
  | inl u =>
      if negb (bool_decide (Scheme u = "http" ∨ Scheme u = "https")) then
        Some (PlainError ("only http/https schemes are allowed, got: "
                          +:+ Scheme u))
      else
        let host := Hostname u in
        if isPrivateHost host then
          Some (PlainError
                  ("access to private/loopback addresses is denied: " +:+ host))
        else
          let domain := ToLower host in
          if existsb (λ d, domainMatches d domain) (DeniedDomains cfg) then
            Some (PlainError ("domain " +:+ domain +:+ " is denied"))
          else if bool_decide (0 < length (AllowedDomains cfg))%nat
                  && negb (existsb (λ d, domainMatches d domain)
                                   (AllowedDomains cfg)) then
            Some (PlainError ("domain " +:+ domain
                              +:+ " is not in allowed list"))
          else None
  end.

(** C4. A URL that [validateURL] accepts parses; its scheme is [http] or
    [https]; its host, lower-cased, is none of [localhost],
    [ip6-localhost], [ip6-loopback]; if the host parses as an IP address,
    the address is not loopback, private, link-local (unicast or
    multicast) or unspecified; no deny-list entry, lower-cased, equals the
    lower-cased host or is followed by the host as a subdomain (the host
    ending in a dot and the entry); and when the allow-list is not empty
    some entry of it matches the host by that same rule. *)
Theorem accepted_url_is_public_and_permitted cfg rawURL :
  validateURL cfg rawURL = None →
  ∃ u,
    Parse rawURL = inl u ∧
    (Scheme u = "http" ∨ Scheme u = "https") ∧
    (ToLower (Hostname u) ∉ ["localhost"; "ip6-localhost"; "ip6-loopback"]) ∧
    (∀ ip, ParseIP (Hostname u) = Some ip →
       IsLoopback ip = false ∧ IsPrivate ip = false ∧
       IsLinkLocalUnicast ip = false ∧ IsLinkLocalMulticast ip = false ∧
       IsUnspecified ip = false) ∧
    (∀ d, d ∈ DeniedDomains cfg →
       ToLower d ≠ ToLower (Hostname u) ∧
       HasSuffix (ToLower (Hostname u)) ("." +:+ ToLower d) = false) ∧
    (AllowedDomains cfg ≠ [] →
     ∃ d, d ∈ AllowedDomains cfg ∧
          (ToLower d = ToLower (Hostname u) ∨
           HasSuffix (ToLower (Hostname u)) ("." +:+ ToLower d) = true)).
Proof.
  unfold validateURL. destruct (Parse rawURL) as [u|err]; [|done].
  case_bool_decide as Hscheme; [|done]. simpl.
  destruct (isPrivateHost (Hostname u)) eqn:Hpriv; [done|].
  destruct (existsb _ (DeniedDomains cfg)) eqn:Hdeny; [done|].
  destruct (bool_decide _ && negb _) eqn:Hallow; [intros [=]|].
  intros _. exists u. split; [done|]. split; [done|].
  unfold isPrivateHost in Hpriv.
  destruct (bool_decide (ToLower (Hostname u) = "localhost" ∨ _)) eqn:Hname;
    [discriminate Hpriv|].
  apply bool_decide_eq_false in Hname.
  split_and!.
  - intros Hin. apply Hname.
    repeat (apply elem_of_cons in Hin as [-> | Hin]); auto.
    by apply elem_of_nil in Hin.
  - intros ip Hip. rewrite Hip in Hpriv.
    repeat (apply orb_false_iff in Hpriv as [Hpriv ?]). by split_and!.
  - intros d Hd.
    assert (domainMatches d (ToLower (Hostname u)) = false) as Hm.
    { destruct (domainMatches d _) eqn:Hm; [|done].
      assert (existsb (λ d, domainMatches d (ToLower (Hostname u)))
                      (DeniedDomains cfg) = true) as Hex; [|congruence].
      apply existsb_exists. exists d. split; [by apply list_elem_of_In | done]. }
    unfold domainMatches in Hm. apply orb_false_iff in Hm as [Heq Hsuf].
    apply bool_decide_eq_false in Heq. by split.
  - intros Hne. rewrite bool_decide_true in Hallow.
    2:{ destruct (AllowedDomains cfg); [done | simpl; lia]. }
    simpl in Hallow. apply negb_false_iff in Hallow.
    apply existsb_exists in Hallow as (d & Hd & Hm).
    exists d. split; [by apply list_elem_of_In|].
    unfold domainMatches in Hm. apply orb_true_iff in Hm as [Heq | Hsuf].
    + left. by apply bool_decide_eq_true in Heq.
    + by right.
Qed.

End Validate.

(** ** A stand-in for the library on plain URLs and dotted quads *)

(** Enough of [url.Parse], [net.ParseIP] and [strings.ToLower] to run the
    validation on URLs of the shape [scheme://host:port/path] with an
    ASCII host name or an IPv4 address in dotted decimal. *)

Definition lowerByte (c : ascii) : ascii :=
  let n := N_of_ascii c in
  if ((65 <=? n) && (n <=? 90))%N then ascii_of_N (n + 32) else c.

Fixpoint lowerASCII (s : string) : string :=
  match s with
  | EmptyString => ""
  | String c s => String (lowerByte c) (lowerASCII s)
  end.

(** The text before the first occurrence of [sep], and the text after. *)
Fixpoint cut (sep s : string) : option (string * string) :=
  if String.prefix sep s then
    Some ("", Str.dropS (String.length sep) s)
  else
    match s with
    | EmptyString => None
    | String c s =>
        match cut sep s with
        | Some (l, r) => Some (String c l, r)
        | None => None
        end
    end.

Fixpoint upTo (stop : ascii → bool) (s : string) : string :=
  match s with
  | EmptyString => ""
  | String c s => if stop c then "" else String c (upTo stop s)
  end.

Record plainURL := {
  scheme : string;
  hostname : string
}.

Definition parsePlain (rawURL : string) : plainURL + error :=
  match cut "://" rawURL with
  | None => inr (PlainError "missing protocol scheme")
  | Some (sch, rest) =>
      let authority :=
        upTo (λ c, bool_decide (c = "/" ∨ c = "?" ∨ c = "#")%char) rest in
      inl {| scheme := lowerASCII sch;
             hostname := upTo (λ c, bool_decide (c = ":")%char) authority |}
  end.

Fixpoint decimal (acc : N) (s : string) : option N :=
  match s with
  | EmptyString => Some acc
  | String c s =>
      let n := N_of_ascii c in
      if ((48 <=? n) && (n <=? 57))%N then decimal (acc * 10 + (n - 48)) s
      else None
  end.

Definition octet (s : string) : option N :=
  if bool_decide (s = "") then None
  else match decimal 0 s with
       | Some n => if (n <=? 255)%N then Some n else None
       | None => None
       end.

Record quad := { q1 : N; q2 : N; q3 : N; q4 : N }.

Definition parseQuad (s : string) : option quad :=
  match cut "." s with
  | Some (a, s) =>
      match cut "." s with
      | Some (b, s) =>
          match cut "." s with
          | Some (c, d) =>
              match octet a, octet b, octet c, octet d with
              | Some a, Some b, Some c, Some d =>
                  Some {| q1 := a; q2 := b; q3 := c; q4 := d |}
              | _, _, _, _ => None
              end
          | None => None
          end
      | None => None
      end
  | None => None
  end.

Definition quadLoopback (q : quad) : bool := (q1 q =? 127)%N.
Definition quadPrivate (q : quad) : bool :=
  (q1 q =? 10)%N
  || ((q1 q =? 172)%N && (16 <=? q2 q)%N && (q2 q <=? 31)%N)
  || ((q1 q =? 192)%N && (q2 q =? 168)%N).
Definition quadLinkLocalUnicast (q : quad) : bool :=
  (q1 q =? 169)%N && (q2 q =? 254)%N.
Definition quadLinkLocalMulticast (q : quad) : bool :=
  (q1 q =? 224)%N && (q2 q =? 0)%N && (q3 q =? 0)%N.
Definition quadUnspecified (q : quad) : bool :=
  (q1 q =? 0)%N && (q2 q =? 0)%N && (q3 q =? 0)%N && (q4 q =? 0)%N.

Definition validatePlain : BrowserConfig → string → option error :=
  validateURL parsePlain scheme hostname parseQuad
    quadLoopback quadPrivate quadLinkLocalUnicast quadLinkLocalMulticast
    quadUnspecified lowerASCII.

Definition open : BrowserConfig :=
  {| Enabled := true; Headless := true; TimeoutSecs := 30; MaxTabs := 3;
     AllowedDomains := []; DeniedDomains := []; MaxPageSizeKB := 2048 |}.

Definition fenced : BrowserConfig :=
  {| Enabled := true; Headless := true; TimeoutSecs := 30; MaxTabs := 3;
     AllowedDomains := ["Example.com"]; DeniedDomains := ["ads.example.com"];
     MaxPageSizeKB := 2048 |}.

Example localhost_is_rejected :
  validatePlain open "http://localhost:8080/admin" =
    Some (PlainError
            "access to private/loopback addresses is denied: localhost").
Proof. vm_compute. reflexivity. Qed.

Example private_address_is_rejected :
  validatePlain open "http://192.168.1.1" =
    Some (PlainError
            "access to private/loopback addresses is denied: 192.168.1.1").
Proof. vm_compute. reflexivity. Qed.

Example file_scheme_is_rejected :
  validatePlain open "file:///etc/passwd" =
    Some (PlainError "only http/https schemes are allowed, got: file").
Proof. vm_compute. reflexivity. Qed.

Example denied_subdomain_is_rejected :
  validatePlain fenced "https://Track.Ads.Example.com/pixel" =
    Some (PlainError "domain track.ads.example.com is denied").
Proof. vm_compute. reflexivity. Qed.

Example outside_allow_list_is_rejected :
  validatePlain fenced "https://example.org/" =
    Some (PlainError "domain example.org is not in allowed list").
Proof. vm_compute. reflexivity. Qed.

Lemma accepted_url_is_public_and_permitted_witness :
  ∃ u,
    parsePlain "https://docs.example.com/guide" = inl u ∧
    (scheme u = "http" ∨ scheme u = "https") ∧
    (lowerASCII (hostname u)
       ∉ ["localhost"; "ip6-localhost"; "ip6-loopback"]) ∧
    (∀ ip, parseQuad (hostname u) = Some ip →
       quadLoopback ip = false ∧ quadPrivate ip = false ∧
       quadLinkLocalUnicast ip = false ∧ quadLinkLocalMulticast ip = false ∧
       quadUnspecified ip = false) ∧
    (∀ d, d ∈ DeniedDomains fenced →
       lowerASCII d ≠ lowerASCII (hostname u) ∧
       HasSuffix (lowerASCII (hostname u)) ("." +:+ lowerASCII d) = false) ∧
    (AllowedDomains fenced ≠ [] →
     ∃ d, d ∈ AllowedDomains fenced ∧
          (lowerASCII d = lowerASCII (hostname u) ∨
           HasSuffix (lowerASCII (hostname u)) ("." +:+ lowerASCII d) = true)).
Proof.
  apply (accepted_url_is_public_and_permitted parsePlain scheme hostname
           parseQuad quadLoopback quadPrivate quadLinkLocalUnicast
           quadLinkLocalMulticast quadUnspecified lowerASCII fenced
           "https://docs.example.com/guide").
  vm_compute. reflexivity.
Defined.

(** ** Nothing else is turned away *)

Section Accepts.
Context {URL IP : Type}.
Variable Parse : string → URL + error.
Variable Scheme : URL → string.
Variable Hostname : URL → string.
Variable ParseIP : string → option IP.
Variables IsLoopback IsPrivate IsLinkLocalUnicast IsLinkLocalMulticast
          IsUnspecified : IP → bool.
Variable ToLower : string → string.

(** X16.  [validateURL] turns away nothing but what its checks are
    for.  A URL that parses, with scheme [http] or [https], whose host is
    not one of the three localhost names, is not the text of a loopback,
    private, link-local or unspecified address, matches no entry of the
    deny list, and matches an entry of the allow list if there is one, is
    accepted. *)
Theorem public_and_permitted_url_is_accepted cfg rawURL u :
  Parse rawURL = inl u →
  (Scheme u = "http" ∨ Scheme u = "https") →
  ToLower (Hostname u) ∉ ["localhost"; "ip6-localhost"; "ip6-loopback"] →
  (∀ ip, ParseIP (Hostname u) = Some ip →
     IsLoopback ip = false ∧ IsPrivate ip = false ∧
     IsLinkLocalUnicast ip = false ∧ IsLinkLocalMulticast ip = false ∧
     IsUnspecified ip = false) →
  (∀ d, d ∈ DeniedDomains cfg →
     ToLower d ≠ ToLower (Hostname u) ∧
     HasSuffix (ToLower (Hostname u)) ("." +:+ ToLower d) = false) →
  (AllowedDomains cfg ≠ [] →
   ∃ d, d ∈ AllowedDomains cfg ∧
        (ToLower d = ToLower (Hostname u) ∨
         HasSuffix (ToLower (Hostname u)) ("." +:+ ToLower d) = true)) →
  validateURL Parse Scheme Hostname ParseIP IsLoopback IsPrivate
    IsLinkLocalUnicast IsLinkLocalMulticast IsUnspecified ToLower cfg rawURL
  = None.
Proof.
  intros Hparse Hscheme Hname Hip Hdeny Hallow.
  unfold validateURL. rewrite Hparse.
  rewrite bool_decide_true by done. simpl.
  assert (isPrivateHost ParseIP IsLoopback IsPrivate IsLinkLocalUnicast
            IsLinkLocalMulticast IsUnspecified ToLower (Hostname u) = false)
    as ->.
  { unfold isPrivateHost. rewrite bool_decide_false.
    2:{ intros Hin. apply Hname. rewrite !elem_of_cons.
        destruct Hin as [?|[?|?]]; auto. }
    destruct (ParseIP (Hostname u)) as [ip|] eqn:Hparsed; [|done].
    destruct (Hip ip eq_refl) as (-> & -> & -> & -> & ->). done. }
  assert (∀ l,
    (∀ d, d ∈ l → ToLower d ≠ ToLower (Hostname u) ∧
                  HasSuffix (ToLower (Hostname u)) ("." +:+ ToLower d) = false) →
    existsb (λ d, domainMatches ToLower d (ToLower (Hostname u))) l = false)
    as Hnone.
  { intros l Hl. destruct (existsb _ l) eqn:Hex; [|done].
    apply existsb_exists in Hex as (d & Hd%list_elem_of_In & Hm).
    destruct (Hl d Hd) as [Hne Hsuf]. unfold domainMatches in Hm.
    rewrite Hsuf, orb_false_r in Hm. by apply bool_decide_eq_true in Hm. }
  rewrite Hnone by done.
  destruct (AllowedDomains cfg) as [|d0 ds] eqn:Hds; [done|].
  rewrite bool_decide_true by (simpl; lia). simpl.
  destruct Hallow as (d & Hd & Hm); [done|].
  assert (existsb (λ d, domainMatches ToLower d (ToLower (Hostname u)))
                  (d0 :: ds) = true) as Hex.
  { apply existsb_exists. exists d. split; [by apply list_elem_of_In|].
    unfold domainMatches. destruct Hm as [-> | ->].
    - by rewrite bool_decide_true.
    - apply orb_true_r. }
  simpl in Hex. by rewrite Hex.
Qed.

End Accepts.

Lemma public_and_permitted_url_is_accepted_witness :
  validatePlain fenced "https://docs.example.com/guide" = None.
Proof.
  apply (public_and_permitted_url_is_accepted parsePlain scheme hostname
           parseQuad quadLoopback quadPrivate quadLinkLocalUnicast
           quadLinkLocalMulticast quadUnspecified lowerASCII fenced
           "https://docs.example.com/guide"
           {| scheme := "https"; hostname := "docs.example.com" |}).
  - vm_compute. reflexivity.
  - right. reflexivity.
  - rewrite !elem_of_cons, elem_of_nil.
    intros [H|[H|[H|H]]]; [vm_compute in H; discriminate H.. | done].
  - intros ip H. vm_compute in H. discriminate H.
  - intros d Hd. apply list_elem_of_singleton in Hd as ->.
    split; [vm_compute; discriminate | vm_compute; reflexivity].
  - intros _. exists "Example.com". split; [left|].
    right. vm_compute. reflexivity.
Defined.

(** ** browser.go: the table of open pages *)

Section Pages.
(** go-rod's browser and page handles, and the world they act on. *)
Context {B P W : Type}.
(** [launcher.New().Headless(h).Launch()] and
    [rod.New().ControlURL(u).Connect()]. *)
Variable Launch : bool → W → (string + error) * W.
Variable Connect : string → W → (B + error) * W.
(** [browser.Page], [page.WaitLoad], the title read by [page.Eval] (nil
    when the call fails), and [page.Close]. *)
Variable Page : B → string → W → (P + error) * W.
Variable WaitLoad : P → W → option error * W.
Variable Title : P → W → option string * W.
Variable ClosePage : P → W → W.
(** [t.validateURL], with the library it leans on fixed. *)
Variable validate : BrowserConfig → string → option error.

Record BrowserTool := {
  cfg : BrowserConfig;
  browser : option B;
  pages : gmap string P;
  nextID : Z
}.

Definition NewBrowserTool (c : BrowserConfig) : BrowserTool :=
  {| cfg :=
       {| Enabled := Enabled c; Headless := Headless c;
          TimeoutSecs := if bool_decide (TimeoutSecs c ≤ 0) then 30
                         else TimeoutSecs c;
          MaxTabs := if bool_decide (MaxTabs c ≤ 0) then 3 else MaxTabs c;
          AllowedDomains := AllowedDomains c;
          DeniedDomains := DeniedDomains c;
          MaxPageSizeKB := if bool_decide (MaxPageSizeKB c ≤ 0) then 2048
                           else MaxPageSizeKB c |};
     browser := None; pages := ∅; nextID := 0 |}.

Definition failure (text : string) : Tool.Result :=
  {| Tool.Output := ""; Tool.Error_ := text; Tool.IsError := true |}.

Definition success (text : string) : Tool.Result :=
  {| Tool.Output := text; Tool.Error_ := ""; Tool.IsError := false |}.

(** [ensureBrowser]: the browser to use, or the error. *)
Definition ensureBrowser (t : BrowserTool) (w : W)
  : (B + error) * BrowserTool * W :=
  match browser t with
  | Some b => (inl b, t, w)
  | None =>
      match Launch (Headless (cfg t)) w with
      | (inr err, w) =>
          (inr (WrapError "failed to launch browser: " err), t, w)
      | (inl controlURL, w) =>
          match Connect controlURL w with
          | (inr err, w) =>
              (inr (WrapError "failed to connect to browser: " err), t, w)
          | (inl b, w) =>
              (inl b, {| cfg := cfg t; browser := Some b; pages := pages t;
                         nextID := nextID t |}, w)
          end
      end
  end.

(** [fmt.Sprintf("page_%d", n)]. *)
Definition pageName (n : Z) : string := "page_" +:+ pretty n.

(** [navigate], on the [url] of its parameters. *)
Definition navigate (url : string) (t : BrowserTool) (w : W)
  : Tool.Result * BrowserTool * W :=
  if bool_decide (url = "") then
    (failure "url is required for navigate action", t, w)
  else
    match validate (cfg t) url with
    | Some err => (failure (Error err), t, w)
    | None =>
        if bool_decide (MaxTabs (cfg t) ≤ Z.of_nat (size (pages t))) then
          (failure ("max tabs limit reached (" +:+ pretty (MaxTabs (cfg t))
                    +:+ ")"), t, w)
        else
          match ensureBrowser t w with
          | (inr err, t, w) => (failure (Error err), t, w)
          | (inl b, t, w) =>
              match Page b url w with
              | (inr err, w) =>
                  (failure ("failed to open page: " +:+ Error err), t, w)
              | (inl page, w) =>
                  match WaitLoad page w with
                  | (Some err, w) =>
                      (failure ("page load timeout: " +:+ Error err), t, w)
                  | (None, w) =>
                      let n := Go.int_add (nextID t) 1 in
                      let pageID := pageName n in
                      let t := {| cfg := cfg t; browser := browser t;
                                  pages := <[pageID := page]> (pages t);
                                  nextID := n |} in
                      let '(title, w) := Title page w in
                      (success ("Opened page " +:+ pageID +:+ ": " +:+ url
                                +:+ " (title: " +:+ default "" title +:+ ")"),
                       t, w)
                  end
              end
          end
    end.

(** [getPage]. *)
Definition getPage (pageID : string) (t : BrowserTool) : P + error :=
  match pages t !! pageID with
  | Some page => inl page
  | None => inr (PlainError ("page not found: " +:+ pageID))
  end.

(** [closePage], on the [page_id] of its parameters.  The table holds
    no nil page: [navigate] files only pages that were opened. *)
Definition closePage (pageID : string) (t : BrowserTool) (w : W)
  : Tool.Result * BrowserTool * W :=
  if bool_decide (pageID = "") then (failure "page_id is required", t, w)
  else
    match pages t !! pageID with
    | None => (failure ("page not found: " +:+ pageID), t, w)
    | Some page =>
        (success ("Closed page " +:+ pageID),
         {| cfg := cfg t; browser := browser t;
            pages := delete pageID (pages t); nextID := nextID t |},
         ClosePage page w)
    end.

(** The two actions that change the table. *)
Inductive action :=
| Navigate (url : string)
| Close (pageID : string).

Definition act (a : action) (t : BrowserTool) (w : W)
  : Tool.Result * BrowserTool * W :=
  match a with
  | Navigate url => navigate url t w
  | Close pageID => closePage pageID t w
  end.

(** The tool and the world after the actions [as_], first to last. *)
Definition after (as_ : list action) (t : BrowserTool) (w : W)
  : BrowserTool * W :=
  foldl (λ tw a, let '(_, t, w) := act a tw.1 tw.2 in (t, w)) (t, w) as_.

(** What holds of the table between actions. *)
Record tabled (t : BrowserTool) (steps : Z) : Prop := {
  tab_limit : Z.of_nat (size (pages t)) ≤ MaxTabs (cfg t);
  tab_min : 0 < MaxTabs (cfg t);
  tab_ids : ∀ k, is_Some (pages t !! k) →
              ∃ n, k = pageName n ∧ 0 < n ≤ nextID t;
  tab_next : 0 ≤ nextID t ≤ steps
}.

Lemma NewBrowserTool_tabled c : tabled (NewBrowserTool c) 0.
Proof.
  split; simpl.
  - rewrite map_size_empty. case_bool_decide; lia.
  - case_bool_decide; lia.
  - intros k [p Hp]. by rewrite lookup_empty in Hp.
  - lia.
Qed.

Lemma ensureBrowser_keeps t w r t' w' :
  ensureBrowser t w = (r, t', w') →
  cfg t' = cfg t ∧ pages t' = pages t ∧ nextID t' = nextID t.
Proof.
  unfold ensureBrowser. intros H.
  repeat (case_match; simplify_eq); done.
Qed.

Lemma act_tabled a t w steps :
  tabled t steps → steps < 2 ^ 62 →
  tabled (act a t w).1.2 (steps + 1) ∧ cfg (act a t w).1.2 = cfg t.
Proof.
  intros [Hlim Hmin Hids Hnext] Hsteps.
  assert (tabled t (steps + 1)) as Hsame by (split; [done.. | lia]).
  destruct a as [url|pageID]; simpl.
  - unfold navigate. case_bool_decide; [done|].
    destruct (validate (cfg t) url); [done|].
    case_bool_decide as Hfull; [done|].
    destruct (ensureBrowser t w) as [[[b|err] t1] w1] eqn:Hens;
      apply ensureBrowser_keeps in Hens as (Hc & Hp & Hn).
    2:{ simpl. split; [|done]. split; rewrite ?Hc, ?Hp, ?Hn; [done.. | lia]. }
    assert (tabled t1 (steps + 1)) as Hsame1.
    { split; rewrite ?Hc, ?Hp, ?Hn; [done.. | lia]. }
    destruct (Page b url w1) as [[page|err] w2]; [|done].
    destruct (WaitLoad page w2) as [[err|] w3]; [done|].
    destruct (Title page w3) as [title w4]. simpl. split; [|done].
    unfold Go.int_add. rewrite Go.wrap64_small by lia.
    split; simpl; rewrite ?Hc, ?Hp, ?Hn.
    + pose proof (map_size_insert (pageName (nextID t + 1)) page (pages t)).
      destruct (pages t !! pageName (nextID t + 1)); simpl in *; lia.
    + done.
    + intros k [p [[<- _]|[_ Hk]]%lookup_insert_Some].
      * exists (nextID t + 1). split; [done | lia].
      * destruct (Hids k) as (n & -> & Hn'); [done|]. exists n. split; [done|lia].
    + lia.
  - unfold closePage. case_bool_decide; [done|].
    destruct (pages t !! pageID) as [page|] eqn:Hpage; [|done].
    simpl. split; [|done]. split; simpl.
    + rewrite map_size_delete, Hpage. lia.
    + done.
    + intros k [p [_ Hk]%lookup_delete_Some]. by apply Hids.
    + lia.
Qed.

Lemma after_snoc as_ a t w :
  after (as_ ++ [a]) t w =
    ((act a (after as_ t w).1 (after as_ t w).2).1.2,
     (act a (after as_ t w).1 (after as_ t w).2).2).
Proof.
  unfold after. rewrite foldl_app. simpl.
  by destruct (act a _ _) as [[r t'] w'].
Qed.

Lemma after_tabled c as_ w :
  Z.of_nat (length as_) < 2 ^ 62 →
  tabled (after as_ (NewBrowserTool c) w).1 (Z.of_nat (length as_)) ∧
  cfg (after as_ (NewBrowserTool c) w).1 = cfg (NewBrowserTool c).
Proof.
  induction as_ as [|a as_ IH] using rev_ind; intros Hlen.
  { split; [apply NewBrowserTool_tabled | done]. }
  rewrite length_app in *. simpl in *.
  destruct IH as [IHt IHc]; [lia|].
  rewrite after_snoc. simpl.
  destruct (act_tabled a (after as_ (NewBrowserTool c) w).1
              (after as_ (NewBrowserTool c) w).2 _ IHt) as [Ht Hc]; [lia|].
  split; [|by rewrite Hc].
  replace (Z.of_nat (length as_ + 1)) with (Z.of_nat (length as_) + 1) by lia.
  done.
Qed.

Lemma pageName_inj n m : pageName n = pageName m → n = m.
Proof.
  unfold pageName. intros H. apply (inj pretty).
  by apply (Str.app_inv_head_s "page_").
Qed.

(** X17.  The table of pages stays within its limit.  After any
    [navigate] and [close] actions on a tool made by [NewBrowserTool],
    fewer than [2^62] of them, the open pages number at most [MaxTabs], which is at least one
    whatever the configuration says; every page is filed under
    [page_n] with [n] between one and the count of pages opened so far;
    and a page opened next gets a name that no page has now or has had
    before, a closed page's name included. *)
Theorem pages_stay_within_limit c as_ w :
  Z.of_nat (length as_) < 2 ^ 62 →
  let t := (after as_ (NewBrowserTool c) w).1 in
  0 < MaxTabs (cfg t) ∧
  Z.of_nat (size (pages t)) ≤ MaxTabs (cfg t) ∧
  (∀ k, is_Some (pages t !! k) → ∃ n, k = pageName n ∧ 0 < n ≤ nextID t) ∧
  (∀ n, 0 < n ≤ nextID t → pageName (Go.int_add (nextID t) 1) ≠ pageName n).
Proof.
  intros Hlen t. destruct (after_tabled c as_ w Hlen) as [[H1 H2 H3 H4] _].
  fold t in H1, H2, H3, H4. split_and!; [done.. |].
  intros n Hn Heq%pageName_inj. unfold Go.int_add in Heq.
  rewrite Go.wrap64_small in Heq by lia. lia.
Qed.

(** X18.  No page is opened for a URL that is refused.  When the URL is
    empty, or [validateURL] rejects it, or the table is full, [navigate]
    answers with an error result and leaves the tool and the world as
    they were: no browser is launched and no page is asked for. *)
Theorem refused_url_opens_nothing url t w :
  url = "" ∨ validate (cfg t) url ≠ None
  ∨ MaxTabs (cfg t) ≤ Z.of_nat (size (pages t)) →
  ∃ text, navigate url t w = (failure text, t, w).
Proof.
  intros H. unfold navigate. case_bool_decide as Hurl; [by eexists|].
  destruct (validate (cfg t) url) as [err|]; [by eexists|].
  destruct H as [?|[?|Hfull]]; [done.. |].
  rewrite bool_decide_true by lia. by eexists.
Qed.

End Pages.

(** A browser on paper: pages are the URLs they were opened for, and
    the world is the list of the pages closed. *)
Definition paper (as_ : list action) (c : BrowserConfig)
  : BrowserTool (B := unit) (P := string) * list string :=
  after (λ _ w, (inl "ws://127.0.0.1:9222", w)) (λ _ w, (inl (), w))
        (λ _ url w, (inl url, w)) (λ _ w, (None, w))
        (λ page w, (Some page, w)) (λ page w, w ++ [page])
        validatePlain as_ (NewBrowserTool c) [].

Definition visits : list action :=
  [Navigate "https://example.com/a"; Navigate "https://example.com/b";
   Close "page_1"; Navigate "https://example.com/c";
   Navigate "https://example.com/d"; Navigate "https://example.com/e"].

Example three_tabs_at_most :
  size (pages (paper visits fenced).1) = 3%nat ∧
  pages (paper visits fenced).1 !! "page_1" = None ∧
  pages (paper visits fenced).1 !! "page_4" = Some "https://example.com/d" ∧
  pages (paper visits fenced).1 !! "page_5" = None ∧
  (paper visits fenced).2 = ["https://example.com/a"].
Proof. split_and!; vm_compute; reflexivity. Qed.

Lemma pages_stay_within_limit_witness :
  let t := (paper visits fenced).1 in
  0 < MaxTabs (cfg t) ∧
  Z.of_nat (size (pages t)) ≤ MaxTabs (cfg t) ∧
  (∀ k, is_Some (pages t !! k) → ∃ n, k = pageName n ∧ 0 < n ≤ nextID t) ∧
  (∀ n, 0 < n ≤ nextID t → pageName (Go.int_add (nextID t) 1) ≠ pageName n).
Proof.
  apply (pages_stay_within_limit
           (λ _ w, (inl "ws://127.0.0.1:9222", w)) (λ _ w, (inl (), w))
           (λ _ url w, (inl url, w)) (λ _ w, (None, w))
           (λ page w, (Some page, w)) (λ page w, w ++ [page])
           validatePlain fenced visits []).
  vm_compute. reflexivity.
Defined.

Lemma refused_url_opens_nothing_witness :
  ∃ text,
    navigate (λ _ w, (inl "ws://127.0.0.1:9222", w)) (λ _ w, (inl (), w))
      (λ _ url w, (inl url, w)) (λ _ w, (None, w))
      (λ page w, (Some page, w)) validatePlain
      "http://192.168.1.1/admin" (NewBrowserTool (B := unit) fenced)
      ([] : list string)
    = (failure text, NewBrowserTool fenced, []).
Proof.
  apply (refused_url_opens_nothing
           (λ _ w, (inl "ws://127.0.0.1:9222", w)) (λ _ w, (inl (), w))
           (λ _ url w, (inl url, w)) (λ _ w, (None, w))
           (λ page w, (Some page, w)) validatePlain
           "http://192.168.1.1/admin" (NewBrowserTool fenced)
           ([] : list string)).
  right. left. vm_compute. discriminate.
Defined.

End Browser.

(* ================================================================== *)
(** * internal/llm: how the providers classify the errors of their SDKs *)
(* ================================================================== *)

Module Providers.
Import LLM.

Section Classify.
(** [strings.ToLower]. *)
Variable ToLower : string → string.

(** [classifyOpenAIError]: the first case of the [switch] whose words
    occur in the lower-cased message decides the kind; the message is
    kept both as [Message] and, through [Err], as the wrapped error. *)
Definition classifyOpenAIError (err : error) : error :=
  let msg := Error err in
  let lower := ToLower msg in
  LLMError
    (if Shell.Contains lower "401" || Shell.Contains lower "403"
        || Shell.Contains lower "unauthorized" then ErrorAuth
     else if Shell.Contains lower "429" || Shell.Contains lower "rate limit"
     then ErrorRateLimit
     else if Shell.Contains lower "400" || Shell.Contains lower "invalid"
     then ErrorInvalidInput
     else if Shell.Contains lower "500" || Shell.Contains lower "502"
             || Shell.Contains lower "503" then ErrorServerError
     else if Shell.Contains lower "timeout" || Shell.Contains lower "deadline"
     then ErrorTimeout
     else if Shell.Contains lower "connection" || Shell.Contains lower "dns"
             || Shell.Contains lower "refused" then ErrorNetwork
     else ErrorUnknown)
    msg (Some err).

(** [classifyAnthropicError]. *)
Definition classifyAnthropicError (err : error) : error :=
  let msg := Error err in
  let lower := ToLower msg in
  LLMError
    (if Shell.Contains lower "401" || Shell.Contains lower "authentication"
     then ErrorAuth
     else if Shell.Contains lower "429" || Shell.Contains lower "rate_limit"
     then ErrorRateLimit
     else if Shell.Contains lower "400"
             || Shell.Contains lower "invalid_request" then ErrorInvalidInput
     else if Shell.Contains lower "500" || Shell.Contains lower "overloaded"
     then ErrorServerError
     else if Shell.Contains lower "timeout" || Shell.Contains lower "deadline"
     then ErrorTimeout
     else ErrorUnknown)
    msg (Some err).

Lemma isRetryable_LLMError t m e :
  isRetryable (LLMError t m e)
  = negb (bool_decide (t = ErrorAuth ∨ t = ErrorInvalidInput)).
Proof. unfold isRetryable. simpl. by repeat case_bool_decide. Qed.

(** X19.  Which OpenAI errors end the fallback walk.  The classified
    error is not retryable exactly when the lower-cased message holds
    "401", "403" or "unauthorized", or holds "400" or "invalid" without
    holding "429" or "rate limit"; words for a server error, a timeout or
    a network failure elsewhere in the message do not change that.  The
    text of the classified error is the message twice, joined by a colon
    and a blank. *)
Theorem openai_error_ends_walk_iff (err : error) :
  let has := Shell.Contains (ToLower (Error err)) in
  (isRetryable (classifyOpenAIError err) = false ↔
   has "401" = true ∨ has "403" = true ∨ has "unauthorized" = true ∨
   ((has "400" = true ∨ has "invalid" = true) ∧
    has "429" = false ∧ has "rate limit" = false)) ∧
  Error (classifyOpenAIError err) = Error err +:+ ": " +:+ Error err.
Proof.
  split; [|done]. unfold classifyOpenAIError. rewrite isRetryable_LLMError.
  cbv zeta.
  destruct (Shell.Contains _ "401"), (Shell.Contains _ "403"),
    (Shell.Contains _ "unauthorized"), (Shell.Contains _ "429"),
    (Shell.Contains _ "rate limit"), (Shell.Contains _ "400"),
    (Shell.Contains _ "invalid"); simpl;
    try (split; [intros _; tauto | done]);
    repeat match goal with
           | |- context [if ?b then _ else _] => destruct b; simpl
           end;
    (split; [intros [=] | intros H; exfalso; intuition discriminate]).
Qed.

(** X20.  Which Anthropic errors end the fallback walk: those whose
    lower-cased message holds "401" or "authentication", or holds "400"
    or "invalid_request" without holding "429" or "rate_limit".  Here
    too the text of the classified error is the message twice. *)
Theorem anthropic_error_ends_walk_iff (err : error) :
  let has := Shell.Contains (ToLower (Error err)) in
  (isRetryable (classifyAnthropicError err) = false ↔
   has "401" = true ∨ has "authentication" = true ∨
   ((has "400" = true ∨ has "invalid_request" = true) ∧
    has "429" = false ∧ has "rate_limit" = false)) ∧
  Error (classifyAnthropicError err) = Error err +:+ ": " +:+ Error err.
Proof.
  split; [|done]. unfold classifyAnthropicError. rewrite isRetryable_LLMError.
  cbv zeta.
  destruct (Shell.Contains _ "401"), (Shell.Contains _ "authentication"),
    (Shell.Contains _ "429"), (Shell.Contains _ "rate_limit"),
    (Shell.Contains _ "400"), (Shell.Contains _ "invalid_request"); simpl;
    try (split; [intros _; tauto | done]);
    repeat match goal with
           | |- context [if ?b then _ else _] => destruct b; simpl
           end;
    (split; [intros [=] | intros H; exfalso; intuition discriminate]).
Qed.

End Classify.

(** A server error whose request id happens to hold "400" is taken for
    an invalid request, and the walk ends although a fallback is there. *)
Example request_id_hides_server_error :
  let err := PlainError "503 Service Unavailable (request 14002)" in
  asLLMError (classifyOpenAIError Browser.lowerASCII err)
    = Some ErrorInvalidInput ∧
  (FallbackChat
     [scripted "openai"
        (None, Some (classifyOpenAIError Browser.lowerASCII err));
      scripted "anthropic" (Some (textResponse "ok"), None)]
     emptyRequest []).2 = ["openai"].
Proof. split; vm_compute; reflexivity. Qed.

End Providers.

(* ================================================================== *)
(** * internal/channel/telegram.go: who is heard, and how replies go out *)
(* ================================================================== *)

Module Telegram.
Import LLM Str.

Record TelegramConfig := {
  Token : string;
  AllowedIDs : list Z
}.

(** The [allowedIDs] map [NewTelegramChannel] builds. *)
Definition allowedOf (ids : list Z) : gmap Z bool :=
  foldl (λ allowed id, <[id := true]> allowed) ∅ ids.

(** The authorization check of the text handler: whether a message of
    this sender goes on to the handler set by [OnMessage]. *)
Definition heard (allowed : gmap Z bool) (senderID : Z) : bool :=
  negb (bool_decide (0 < size allowed)%nat
        && negb (default false (allowed !! senderID))).

Lemma allowedOf_lookup ids : ∀ (acc : gmap Z bool) id,
  foldl (λ allowed id, <[id := true]> allowed) acc ids !! id =
    if bool_decide (id ∈ ids) then Some true else acc !! id.
Proof.
  induction ids as [|i ids IH]; intros acc id; cbn [foldl].
  { by rewrite bool_decide_false by apply not_elem_of_nil. }
  rewrite IH. destruct (decide (id ∈ ids)) as [Hin|Hin].
  - rewrite !bool_decide_true; [done | by right | done].
  - rewrite (bool_decide_false (id ∈ ids)) by done.
    destruct (decide (id = i)) as [->|Hne].
    + rewrite bool_decide_true by left. by rewrite lookup_insert_eq.
    + rewrite bool_decide_false, lookup_insert_ne; [done | done |].
      by intros [?|?]%elem_of_cons.
Qed.

(** X21.  Who is heard.  With an empty list of allowed ids every
    sender passes the check of the text handler; with any id on the
    list, exactly the senders on it pass, and the messages of the others
    are dropped without an answer. *)
Theorem sender_is_heard_iff (cfg : TelegramConfig) (senderID : Z) :
  heard (allowedOf (AllowedIDs cfg)) senderID = true ↔
  AllowedIDs cfg = [] ∨ senderID ∈ AllowedIDs cfg.
Proof.
  unfold heard, allowedOf. rewrite allowedOf_lookup, lookup_empty.
  destruct (AllowedIDs cfg) as [|i ids] eqn:Hids.
  { simpl. rewrite map_size_empty. simpl. naive_solver. }
  assert (0 < size (foldl (λ allowed id, <[id := true]> allowed)
                      (∅ : gmap Z bool) (i :: ids)))%nat as Hsize.
  { apply Nat.neq_0_lt_0. intros Hzero%map_size_empty_iff.
    pose proof (allowedOf_lookup (i :: ids) ∅ i) as Hi.
    rewrite Hzero, lookup_empty, bool_decide_true in Hi by left. done. }
  rewrite bool_decide_true by done. simpl. rewrite negb_involutive.
  case_bool_decide; simpl; naive_solver.
Qed.

(** [Send]: the reply is handed to the bot in pieces of at most 4000
    bytes, one after another; the first piece the bot refuses ends the
    call.  The result carries the pieces handed over, in order. *)
Section Send.
(** The bots of the library, and the world they send into. *)
Context {B W : Type}.
(** [strconv.ParseInt(s, 10, 64)] and [bot.Send]. *)
Variable ParseInt : string → Z + error.
Variable botSend : B → Z → string → W → option error * W.

Fixpoint sendLoop (fuel : nat) (bot : B) (chatID : Z) (text : string) (w : W)
  : option (option error * list string * W) :=
  if bool_decide (0 < Go.len text) then
    match fuel with
    | O => None
    | S fuel =>
        let '(chunk, text) :=
          if bool_decide (Go.len text > 4000)
          then (takeS 4000 text, dropS 4000 text)
          else (text, "") in
        match botSend bot chatID chunk w with
        | (Some err, w) =>
            Some (Some (WrapError "telegram send: " err), [chunk], w)
        | (None, w) =>
            match sendLoop fuel bot chatID text w with
            | Some (err, chunks, w) => Some (err, chunk :: chunks, w)
            | None => None
            end
        end
    end
  else Some (None, [], w).

Definition Send (fuel : nat) (bot : option B) (m : Channel.OutboundMessage)
    (w : W) : option (option error * list string * W) :=
  match bot with
  | None => Some (Some (PlainError "telegram bot not started"), [], w)
  | Some bot =>
      match ParseInt (Channel.out_ChatID m) with
      | inr err => Some (Some (WrapError "invalid chat ID: " err), [], w)
      | inl chatID => sendLoop fuel bot chatID (Channel.out_Text m) w
      end
  end.

Fixpoint joined (chunks : list string) : string :=
  match chunks with
  | [] => ""
  | c :: cs => c +:+ joined cs
  end.

Lemma length_rest (n : nat) (s : string) :
  String.length (dropS n s) = (String.length s - n)%nat.
Proof.
  revert s. induction n as [|n IH]; intros [|c s]; simpl; try done.
Qed.

Lemma length_chunk (n : nat) (s : string) :
  (n ≤ String.length s)%nat → String.length (takeS n s) = n.
Proof.
  revert s. induction n as [|n IH]; intros [|c s]; simpl; try lia.
  intros H. rewrite IH; lia.
Qed.

Lemma sendLoop_chunks fuel bot chatID : ∀ text w,
  (String.length text < fuel)%nat →
  ∃ err chunks w',
    sendLoop fuel bot chatID text w = Some (err, chunks, w') ∧
    Forall (λ c, 0 < Go.len c ≤ 4000) chunks ∧
    (∃ unsent, text = joined chunks +:+ unsent ∧
               (err = None → unsent = "")).
Proof.
  induction fuel as [|fuel IH]; intros text w Hfuel; [lia|].
  cbn [sendLoop]. case_bool_decide as Hlen.
  2:{ eexists _, _, _. split; [done|]. split; [constructor|].
      exists "". split; [|done]. destruct text; [done|].
      unfold Go.len in Hlen. simpl in Hlen. lia. }
  unfold Go.len in *.
  destruct (bool_decide (Z.of_nat (String.length text) > 4000)) eqn:Hlong.
  - apply bool_decide_eq_true in Hlong.
    assert (String.length (takeS 4000 text) = 4000%nat) as Htake
      by (apply length_chunk; lia).
    destruct (botSend bot chatID (takeS 4000 text) w) as [[e|] w1].
    + eexists _, _, _. split; [done|]. split.
      * constructor; [|constructor]. unfold Go.len. rewrite Htake. lia.
      * exists (dropS 4000 text). cbn [joined]. rewrite app_nil_r_s.
        split; [by rewrite takeS_dropS | done].
    + destruct (IH (dropS 4000 text) w1)
        as (err & chunks & w' & -> & Hall & unsent & Hcut & Hdone).
      { rewrite length_rest. lia. }
      eexists _, _, _. split; [done|]. split.
      * constructor; [|done]. unfold Go.len. rewrite Htake. lia.
      * exists unsent. split; [|done]. cbn [joined].
        rewrite app_assoc_s, <-Hcut. by rewrite takeS_dropS.
  - apply bool_decide_eq_false in Hlong.
    destruct (botSend bot chatID text w) as [[e|] w1].
    + eexists _, _, _. split; [done|]. split.
      * constructor; [|constructor]. unfold Go.len. lia.
      * exists "". cbn [joined]. by rewrite !app_nil_r_s.
    + destruct fuel as [|fuel]; simpl.
      * eexists _, _, _. split; [done|]. split.
        -- constructor; [|constructor]. unfold Go.len. lia.
        -- exists "". cbn [joined]. by rewrite !app_nil_r_s.
      * eexists _, _, _. split; [done|]. split.
        -- constructor; [|constructor]. unfold Go.len. lia.
        -- exists "". cbn [joined]. by rewrite !app_nil_r_s.
Qed.

(** X22.  How a reply goes out.  [Send] always comes to an end.  To a
    bot that is not started, or for a chat id that is not a number, it
    hands nothing.  Otherwise the pieces it hands to the bot are never
    empty and never longer than 4000 bytes, and put together they are the
    beginning of the text: all of it when [Send] returns no error, and
    when a piece is refused, the text up to and including that piece. *)
Theorem reply_goes_out_in_pieces bot (m : Channel.OutboundMessage) w :
  ∃ err chunks w',
    Send (S (String.length (Channel.out_Text m))) bot m w
      = Some (err, chunks, w') ∧
    Forall (λ c, 0 < Go.len c ≤ 4000) chunks ∧
    (∃ unsent, Channel.out_Text m = joined chunks +:+ unsent ∧
               (err = None → unsent = "")) ∧
    (bot = None ∨ (∃ e, ParseInt (Channel.out_ChatID m) = inr e) →
     chunks = [] ∧ w' = w ∧ err ≠ None).
Proof.
  remember (S (String.length (Channel.out_Text m))) as fuel eqn:Hfuel.
  unfold Send. destruct bot as [bot|]; simpl.
  2:{ eexists _, [], _. split_and!; [done | constructor | | done].
      exists (Channel.out_Text m). by split. }
  destruct (ParseInt (Channel.out_ChatID m)) as [chatID|e] eqn:Hparse.
  2:{ eexists _, [], _. split_and!; [done | constructor | | done].
      exists (Channel.out_Text m). by split. }
  destruct (sendLoop_chunks fuel bot chatID (Channel.out_Text m) w)
    as (err & chunks & w' & -> & Hall & Hcut); [lia|].
  eexists _, _, _. split_and!; [done | done | done |].
  intros [?|[e ?]]; done.
Qed.

End Send.

End Telegram.

(* ================================================================== *)
(** * internal/eventbus: topics and their handlers                      *)
(* ================================================================== *)

Module Eventbus.

Section Bus.
(** What the handlers act on, and what an event carries; a [Topic] is a
    string. *)
Context {W P : Type}.

Record Event := {
  Topic : string;
  Payload : P;
  Timestamp : Z
}.

Definition Handler := Event → W → W.

(** The [handlers] map of a [Bus]. *)
Definition Bus := gmap string (list Handler).

Definition New : Bus := ∅.

Definition Subscribe (topic : string) (handler : Handler) (b : Bus) : Bus :=
  <[topic := default [] (b !! topic) ++ [handler]]> b.

(** [Publish], at the time [now]: the handlers of the topic are called
    one after another on the same event. *)
Definition Publish (topic : string) (payload : P) (now : Z) (b : Bus)
    (s : W) : W :=
  let handlers := default [] (b !! topic) in
  let event := {| Topic := topic; Payload := payload; Timestamp := now |} in
  foldl (λ s h, h event s) s handlers.

(** The bus after the subscriptions [subs], first to last. *)
Definition subscribed (subs : list (string * Handler)) : Bus :=
  foldl (λ b th, Subscribe th.1 th.2 b) New subs.

(** X23.  [Publish] calls the handlers subscribed to the topic, each
    once for each time it was subscribed, in the order of the
    subscriptions, all on the same event; handlers of other topics are
    not called, and on a topic nobody subscribed to nothing happens. *)
Theorem publish_calls_the_topics_handlers
    (subs : list (string * Handler)) (topic : string) payload now (s : W) :
  Publish topic payload now (subscribed subs) s
  = foldl (λ s h, h {| Topic := topic; Payload := payload;
                       Timestamp := now |} s)
          s (snd <$> filter (λ th, th.1 = topic) subs).
Proof.
  unfold Publish. cbv zeta. f_equal.
  unfold subscribed, Bus. induction subs as [|[t h] subs IH] using rev_ind.
  { unfold New, Bus. cbn [foldl]. by rewrite lookup_empty. }
  rewrite foldl_app, filter_app, fmap_app. cbn [foldl fst snd].
  unfold Subscribe at 1, Bus.
  destruct (decide (t = topic)) as [->|Hne].
  - rewrite lookup_insert_eq, filter_cons_True, filter_nil by done.
    simpl. f_equal. exact IH.
  - rewrite lookup_insert_ne by done.
    rewrite filter_cons_False, filter_nil by done.
    simpl. rewrite app_nil_r. exact IH.
Qed.

End Bus.

End Eventbus.

(* ================================================================== *)
(** * internal/security/sanitizer.go: reversible PII redaction         *)
(* ================================================================== *)

Module Security.
Import Str Regexp.

Record PIIFilterConfig := {
  Enabled : bool;
  FilterEmails : bool;
  FilterPhones : bool;
  FilterCards : bool;
  FilterIPs : bool;
  FilterSSN : bool
}.

Definition maxPIIMappings : Z := 1000.

Record piiFilter := {
  name : string;
  pattern : Regexp;
  prefix : string
}.

(** The byte classes of the five patterns. *)
Definition emailLocal : byteset :=
  [range "a" "z"; range "A" "Z"; range "0" "9";
   one "."; one "_"; one "%"; one "+"; one "-"]%char.
Definition emailDomain : byteset :=
  [range "a" "z"; range "A" "Z"; range "0" "9"; one "."; one "-"]%char.
Definition letters : byteset := [range "a" "z"; range "A" "Z"]%char.
Definition dashDotSpace : byteset :=
  [one "-"; one "."; range "009" "010"; range "012" "013"; one " "]%char.
Definition dashSpace : byteset :=
  [one "-"; range "009" "010"; range "012" "013"; one " "]%char.

(** [defaultFilters], each pattern with its text in the source. *)
Definition defaultFilters : list piiFilter := [
  {| name := "email";
     pattern :=
       {| source := "[a-zA-Z0-9._%+-]+@[a-zA-Z0-9.-]+\.[a-zA-Z]{2,}";
          prog := seq [plus (Set_ emailLocal); chr "@";
                       plus (Set_ emailDomain); chr ".";
                       atLeast 2 (Set_ letters)] |};
     prefix := "EMAIL" |};
  {| name := "phone";
     pattern :=
       {| source :=
            "(?:\+?\d{1,3}[-.\s]?)?\(?\d{2,4}\)?[-.\s]?\d{3,4}[-.\s]?\d{3,4}";
          prog := seq [opt (seq [opt (chr "+"); between 1 3 digit;
                                 opt (Set_ dashDotSpace)]);
                       opt (chr "("); between 2 4 digit; opt (chr ")");
                       opt (Set_ dashDotSpace); between 3 4 digit;
                       opt (Set_ dashDotSpace); between 3 4 digit] |};
     prefix := "PHONE" |};
  {| name := "card";
     pattern :=
       {| source := "\b\d{4}[-\s]?\d{4}[-\s]?\d{4}[-\s]?\d{4}\b";
          prog := seq [b; times 4 digit; opt (Set_ dashSpace);
                       times 4 digit; opt (Set_ dashSpace);
                       times 4 digit; opt (Set_ dashSpace);
                       times 4 digit; b] |};
     prefix := "CARD" |};
  {| name := "ip";
     pattern :=
       {| source := "\b\d{1,3}\.\d{1,3}\.\d{1,3}\.\d{1,3}\b";
          prog := seq [b; between 1 3 digit; chr "."; between 1 3 digit;
                       chr "."; between 1 3 digit; chr ".";
                       between 1 3 digit; b] |};
     prefix := "IP" |};
  {| name := "ssn";
     pattern :=
       {| source := "\b\d{3}-\d{2}-\d{4}\b";
          prog := seq [b; times 3 digit; chr "-"; times 2 digit; chr "-";
                       times 4 digit; b] |};
     prefix := "SSN" |}
].

(** [mappings] is keyed by placeholder; [counter] by prefix. *)
Record Sanitizer := {
  filters : list piiFilter;
  mappings : gmap string string;
  counter : gmap string Z;
  enabled : bool
}.

Definition NewSanitizer (cfg : PIIFilterConfig) : Sanitizer :=
  let enableMap : gmap string bool :=
    <["ssn" := FilterSSN cfg]>
      (<["ip" := FilterIPs cfg]>
         (<["card" := FilterCards cfg]>
            (<["phone" := FilterPhones cfg]>
               (<["email" := FilterEmails cfg]> ∅)))) in
  {| filters := filter (λ f, default false (enableMap !! name f) = true)
                     defaultFilters;
     mappings := ∅;
     counter := ∅;
     enabled := Enabled cfg |}.

(** [fmt.Sprintf("[%s_%d]", prefix, n)]. *)
Definition placeholderFor (prefix : string) (n : Z) : string :=
  "[" +:+ prefix +:+ "_" +:+ pretty n +:+ "]".

(** The closure handed to [ReplaceAllStringFunc], on the two maps it
    reads and writes. The search for an entry whose original is the match
    ranges over a Go map; the model takes the first one in the order of
    [map_to_list]. *)
Definition replaceMatch (prefix : string) (found : string)
    (st : gmap string string * gmap string Z)
  : string * (gmap string string * gmap string Z) :=
  match find (λ e, bool_decide (e.2 = found)) (map_to_list st.1) with
  | Some e => (e.1, st)
  | None =>
      let n := Go.int_add (default 0 (st.2 !! prefix)) 1 in
      let placeholder := placeholderFor prefix n in
      (placeholder, (<[placeholder := found]> st.1, <[prefix := n]> st.2))
  end.

(** [ReplaceAllStringFunc] with a closure that carries state: the
    pieces are rewritten from left to right. *)
Fixpoint replacePieces {S} (repl : string → S → string * S)
    (ps : list piece) (st : S) : string * S :=
  match ps with
  | [] => ("", st)
  | Gap text :: ps =>
      let '(out, st) := replacePieces repl ps st in (text +:+ out, st)
  | Hit whole _ :: ps =>
      let '(new, st) := repl whole st in
      let '(out, st) := replacePieces repl ps st in
      (new +:+ out, st)
  end.

Definition ReplaceAllStringFunc {S} (re : Regexp) (src : string)
    (repl : string → S → string * S) (st : S) : string * S :=
  replacePieces repl (pieces re src) st.

Definition Sanitize (text : string) (s : Sanitizer) : string * Sanitizer :=
  if negb (enabled s) || bool_decide (length (filters s) = 0%nat) then (text, s)
  else
    let st :=
      if bool_decide (maxPIIMappings ≤ Z.of_nat (size (mappings s)))
      then (∅, ∅) else (mappings s, counter s) in
    let '(result, st) :=
      foldl (λ acc f,
               ReplaceAllStringFunc (pattern f) acc.1
                 (replaceMatch (prefix f)) acc.2)
            (text, st) (filters s) in
    (result, {| filters := filters s; mappings := st.1; counter := st.2;
                enabled := enabled s |}).

(** [indexOf]: the first index at which [substr] starts, or -1. *)
Fixpoint indexOfFrom (i : Z) (s substr : string) : Z :=
  if String.prefix substr s then i
  else match s with
       | EmptyString => -1
       | String _ s => indexOfFrom (i + 1) s substr
       end.

Definition indexOf (s substr : string) : Z := indexOfFrom 0 s substr.

(** [replaceAll]: the loop with its locals [result] and [s]; every pass
    shortens [s], so [fuel] of one more than its length is never used
    up. *)
Fixpoint replaceLoop (fuel : nat) (result s old new : string) : string :=
  match fuel with
  | O => result +:+ s
  | S fuel =>
      let i := indexOf s old in
      if bool_decide (i < 0) then result +:+ s
      else replaceLoop fuel (result +:+ takeS (Z.to_nat i) s +:+ new)
             (dropS (Z.to_nat i + String.length old) s) old new
  end.

Definition replaceAll (s old new : string) : string :=
  if bool_decide (old = "") then s
  else replaceLoop (S (String.length s)) "" s old new.

(** [Restore] ranges over the map in an order Go does not fix; the order
    is an argument, and a run of the program may use any arrangement of
    the map's entries. *)
Definition restoreIn (order : list (string * string)) (text : string)
  : string :=
  foldl (λ result e, replaceAll result e.1 e.2) text order.

Definition Restore (order : list (string * string)) (text : string)
    (s : Sanitizer) : string :=
  if negb (enabled s) then text else restoreIn order text.

Definition iterationOf (order : list (string * string)) (s : Sanitizer)
  : Prop :=
  order ≡ₚ map_to_list (mappings s).

Definition Reset (s : Sanitizer) : Sanitizer :=
  {| filters := filters s; mappings := ∅; counter := ∅;
     enabled := enabled s |}.

(** The configuration [Defaults] ships, and one with every pattern on. *)
Definition defaultConfig : PIIFilterConfig :=
  {| Enabled := true; FilterEmails := true; FilterPhones := true;
     FilterCards := true; FilterIPs := false; FilterSSN := true |}.

Definition emailsOnly : PIIFilterConfig :=
  {| Enabled := true; FilterEmails := true; FilterPhones := false;
     FilterCards := false; FilterIPs := false; FilterSSN := false |}.

Example repeated_literal_reuses_placeholder :
  (Sanitize "email me at a@b.com or a@b.com" (NewSanitizer emailsOnly)).1
  = "email me at [EMAIL_1] or [EMAIL_1]".
Proof. vm_compute. reflexivity. Qed.

(** ** [replaceAll], one byte at a time *)

Fixpoint firstAt (s substr : string) : option nat :=
  if String.prefix substr s then Some 0%nat
  else match s with
       | EmptyString => None
       | String _ s => S <$> firstAt s substr
       end.

Lemma firstAt_nil substr :
  firstAt "" substr = if String.prefix substr "" then Some 0%nat else None.
Proof. done. Qed.

Lemma firstAt_cons c s substr :
  firstAt (String c s) substr =
    if String.prefix substr (String c s) then Some 0%nat
    else S <$> firstAt s substr.
Proof. done. Qed.

Lemma indexOfFrom_nil i substr :
  indexOfFrom i "" substr = if String.prefix substr "" then i else -1.
Proof. done. Qed.

Lemma indexOfFrom_cons i c s substr :
  indexOfFrom i (String c s) substr =
    if String.prefix substr (String c s) then i
    else indexOfFrom (i + 1) s substr.
Proof. done. Qed.

Lemma prefix_nonempty_nil substr : substr ≠ "" → String.prefix substr "" = false.
Proof. by destruct substr. Qed.

Lemma indexOfFrom_firstAt i s substr :
  indexOfFrom i s substr =
    match firstAt s substr with
    | Some n => i + Z.of_nat n
    | None => -1
    end.
Proof.
  revert i. induction s as [|c s IH]; intros i.
  - rewrite indexOfFrom_nil, firstAt_nil.
    destruct (String.prefix substr ""); [lia | done].
  - rewrite indexOfFrom_cons, firstAt_cons.
    destruct (String.prefix substr (String c s)); [lia|].
    rewrite IH. destruct (firstAt s substr); simpl; [lia | done].
Qed.

Lemma firstAt_bound s substr n :
  firstAt s substr = Some n → (n + String.length substr ≤ String.length s)%nat.
Proof.
  revert n. induction s as [|c s IH]; intros n.
  - rewrite firstAt_nil. destruct (String.prefix substr "") eqn:Hp; [|done].
    intros [= <-]. apply prefix_spec in Hp as [v Hv].
    apply (f_equal String.length) in Hv. rewrite length_app_s in Hv.
    simpl in *. lia.
  - rewrite firstAt_cons.
    destruct (String.prefix substr (String c s)) eqn:Hp.
    + intros [= <-]. apply prefix_spec in Hp as [v Hv].
      apply (f_equal String.length) in Hv. rewrite length_app_s in Hv. lia.
    + destruct (firstAt s substr) as [m|] eqn:Hm; [|done].
      intros [= <-]. specialize (IH m eq_refl). simpl. lia.
Qed.

Lemma length_dropS n s : String.length (dropS n s) = (String.length s - n)%nat.
Proof. revert s. induction n as [|n IH]; intros [|c s]; simpl; auto. Qed.

Section ReplaceAll.
Variables old new : string.
Hypothesis old_nonempty : old ≠ "".

Lemma replaceLoop_step fuel result s :
  replaceLoop (S fuel) result s old new =
    match firstAt s old with
    | None => result +:+ s
    | Some n =>
        replaceLoop fuel (result +:+ takeS n s +:+ new)
          (dropS (n + String.length old) s) old new
    end.
Proof.
  simpl. unfold indexOf. rewrite indexOfFrom_firstAt.
  destruct (firstAt s old) as [n|].
  - rewrite bool_decide_false by lia.
    replace (Z.to_nat (0 + Z.of_nat n)) with n by lia. done.
  - by rewrite bool_decide_true by lia.
Qed.

Lemma replaceLoop_result fuel result s :
  replaceLoop fuel result s old new =
    result +:+ replaceLoop fuel "" s old new.
Proof.
  revert result s. induction fuel as [|fuel IH]; intros result s; [done|].
  rewrite !replaceLoop_step. destruct (firstAt s old) as [n|]; [|done].
  rewrite IH, (IH ("" +:+ _)). by rewrite !app_assoc_s.
Qed.

Lemma replaceLoop_fuel fuel fuel' s :
  (String.length s < fuel)%nat → (String.length s < fuel')%nat →
  replaceLoop fuel "" s old new = replaceLoop fuel' "" s old new.
Proof.
  revert fuel' s. induction fuel as [|fuel IH]; intros [|fuel'] s H1 H2;
    try lia.
  rewrite !replaceLoop_step.
  destruct (firstAt s old) as [n|] eqn:Hn; [|done].
  apply firstAt_bound in Hn.
  assert (0 < String.length old)%nat
    by (destruct old; [done | simpl; lia]).
  rewrite replaceLoop_result, (replaceLoop_result fuel'). f_equal.
  apply IH; rewrite length_dropS; lia.
Qed.

Lemma replaceAll_nil : replaceAll "" old new = "".
Proof.
  unfold replaceAll. rewrite bool_decide_false by done.
  rewrite replaceLoop_step, firstAt_nil.
  by rewrite prefix_nonempty_nil.
Qed.

Lemma replaceAll_hit s :
  String.prefix old s = true →
  replaceAll s old new = new +:+ replaceAll (dropS (String.length old) s) old new.
Proof.
  intros Hp. unfold replaceAll. rewrite bool_decide_false by done.
  rewrite replaceLoop_step.
  assert (firstAt s old = Some 0%nat) as ->.
  { destruct s; [rewrite firstAt_nil | rewrite firstAt_cons]; by rewrite Hp. }
  assert (0 < String.length old)%nat
    by (destruct old; [done | simpl; lia]).
  apply prefix_spec in Hp as [v Hv].
  assert (String.length s = String.length old + String.length v)%nat
    by (by rewrite Hv, length_app_s).
  rewrite replaceLoop_result.
  change (takeS 0 s) with "". change (0 + String.length old)%nat
    with (String.length old).
  rewrite !app_nil_s. f_equal.
  apply replaceLoop_fuel; rewrite length_dropS; lia.
Qed.

Lemma replaceAll_miss c s :
  String.prefix old (String c s) = false →
  replaceAll (String c s) old new = String c (replaceAll s old new).
Proof.
  intros Hp. unfold replaceAll. rewrite bool_decide_false by done.
  rewrite (replaceLoop_step (String.length (String c s))).
  rewrite firstAt_cons, Hp. rewrite (replaceLoop_step (String.length s)).
  destruct (firstAt s old) as [n|] eqn:Hn; [|done].
  apply firstAt_bound in Hn.
  assert (0 < String.length old)%nat
    by (destruct old; [done | simpl; lia]).
  change (S <$> Some n) with (Some (S n)). cbv iota beta.
  change (takeS (S n) (String c s)) with (String c (takeS n s)).
  change (dropS (S n + String.length old) (String c s))
    with (dropS (n + String.length old) s).
  rewrite replaceLoop_result, (replaceLoop_result (String.length s)).
  rewrite !app_nil_s, !app_cons_s. f_equal. f_equal.
  apply replaceLoop_fuel; rewrite length_dropS; simpl; lia.
Qed.

End ReplaceAll.

(** ** Placeholders inside a text *)

(** A key of the placeholder map reads as a bracketed body. *)
Definition isKey (k : string) : Prop :=
  ∃ body, k = "[" +:+ body +:+ "]" ∧
          occurs "[" body = false ∧ occurs "]" body = false.

Lemma isKey_nonempty k : isKey k → k ≠ "".
Proof. by intros (body & -> & _). Qed.

(** Closes a goal from [occurs c (String c s) = false]. *)
Ltac occurs_head H :=
  simpl in H;
  first [ discriminate H
        | rewrite bool_decide_true in H by done; discriminate H ].

Lemma first_split (c : ascii) (a a' r r' : string) :
  occurs c a = false → occurs c a' = false →
  a +:+ String c r = a' +:+ String c r' → a = a' ∧ r = r'.
Proof.
  revert a'. induction a as [|x a IH]; intros [|y a'] Ha Ha'; simpl in *.
  - by intros [= ->].
  - rewrite app_nil_s, app_cons_s. intros [= <- _].
    by rewrite bool_decide_true in Ha'.
  - rewrite app_nil_s, app_cons_s. intros [= -> _].
    by rewrite bool_decide_true in Ha.
  - rewrite !app_cons_s. intros [= -> H].
    apply orb_false_iff in Ha as [_ Ha]. apply orb_false_iff in Ha' as [_ Ha'].
    destruct (IH a' Ha Ha' H) as [-> ->]. done.
Qed.

Lemma key_prefix k k' t :
  isKey k → isKey k' → String.prefix k (k' +:+ t) = true → k = k'.
Proof.
  intros (body & -> & _ & Hb) (body' & -> & _ & Hb') Hp.
  apply prefix_spec in Hp as [v Hv].
  rewrite !app_cons_s, !app_nil_s, !app_assoc_s, !app_cons_s, !app_nil_s in Hv.
  injection Hv as Hv. symmetry in Hv.
  by destruct (first_split _ _ _ _ _ Hb Hb' Hv) as [-> _].
Qed.

Lemma prefix_head_ne (c d : ascii) (a s : string) :
  c ≠ d → String.prefix (String c a) (String d s) = false.
Proof. intros Hne. simpl. by destruct (ascii_dec c d). Qed.

Section Keys.
Variables q o : string.
Hypothesis q_key : isKey q.

Lemma replaceAll_pass w t :
  occurs "[" w = false →
  replaceAll (w +:+ t) q o = w +:+ replaceAll t q o.
Proof.
  induction w as [|c w IH]; [done|]. simpl. intros Hw.
  apply orb_false_iff in Hw as [Hc Hw]. apply bool_decide_eq_false in Hc.
  rewrite !app_cons_s, replaceAll_miss, IH; [done.. | by apply isKey_nonempty |].
  destruct q_key as (body & -> & _). rewrite app_cons_s.
  by apply prefix_head_ne.
Qed.

Lemma replaceAll_key_same t :
  replaceAll (q +:+ t) q o = o +:+ replaceAll t q o.
Proof.
  rewrite replaceAll_hit; [| by apply isKey_nonempty |].
  - by rewrite dropS_app.
  - apply prefix_spec. by exists t.
Qed.

Lemma replaceAll_key_other k t :
  isKey k → k ≠ q →
  replaceAll (k +:+ t) q o = k +:+ replaceAll t q o.
Proof.
  intros Hk Hne.
  assert (String.prefix q (k +:+ t) = false) as Hp.
  { destruct (String.prefix q (k +:+ t)) eqn:Hp; [|done].
    destruct Hne. symmetry. by eapply key_prefix. }
  destruct Hk as (body & -> & Hb & _).
  rewrite !app_cons_s, !app_nil_s in *.
  rewrite replaceAll_miss; [| by apply isKey_nonempty | done].
  rewrite app_assoc_s, replaceAll_pass by done.
  rewrite !app_cons_s, !app_nil_s.
  rewrite replaceAll_miss; [by rewrite app_assoc_s | by apply isKey_nonempty |].
  destruct q_key as (qb & -> & _). rewrite app_cons_s.
  by apply prefix_head_ne.
Qed.

End Keys.

(** [shaped m t x]: the text [t] is [x] with some stretches replaced by
    keys of [m] that stand for them; everything else in [t] is free of
    opening brackets. *)
Inductive shaped (m : gmap string string) : string → string → Prop :=
| shaped_nil : shaped m "" ""
| shaped_byte c t x :
    c ≠ "["%char → shaped m t x → shaped m (String c t) (String c x)
| shaped_key k o t x :
    m !! k = Some o → isKey k → shaped m t x →
    shaped m (k +:+ t) (o +:+ x).

Lemma shaped_weaken m m' t x : m ⊆ m' → shaped m t x → shaped m' t x.
Proof.
  intros Hsub. induction 1; [constructor | by constructor |].
  constructor; [by eapply lookup_weaken | done..].
Qed.

Lemma shaped_app m t1 x1 t2 x2 :
  shaped m t1 x1 → shaped m t2 x2 → shaped m (t1 +:+ t2) (x1 +:+ x2).
Proof.
  induction 1; intros H2; [done | |].
  - rewrite !app_cons_s. constructor; auto.
  - rewrite !app_assoc_s. constructor; auto.
Qed.

Lemma shaped_plain m x : occurs "[" x = false → shaped m x x.
Proof.
  induction x as [|c x IH]; [constructor|]. simpl. intros H.
  apply orb_false_iff in H as [Hc Hx]. apply bool_decide_eq_false in Hc.
  constructor; [congruence | auto].
Qed.

Lemma shaped_empty t x : shaped ∅ t x → t = x.
Proof. induction 1; [done | congruence | by rewrite lookup_empty in *]. Qed.

Lemma shaped_inv_byte m c t x :
  c ≠ "["%char → shaped m (String c t) x →
  ∃ x', x = String c x' ∧ shaped m t x'.
Proof.
  intros Hc H. inversion H as [|c' t' x' Hc' H' | k o t' x' Hk Hkey H' Heq]; subst.
  - eauto.
  - destruct Hkey as (body & -> & _). rewrite app_cons_s in Heq.
    injection Heq as <- _. done.
Qed.

(** One round of [Restore]: the key [k] gives way to its original. *)
Lemma shaped_replaceAll m t x k o :
  (∀ k' o', m !! k' = Some o' → isKey k') →
  m !! k = Some o → occurs "[" o = false →
  shaped m t x → shaped (delete k m) (replaceAll t k o) x.
Proof.
  intros Hkeys Hk Ho. assert (isKey k) as Hkey by eauto.
  induction 1 as [|c t x Hc _ IH | k' o' t x Hk' Hkey' _ IH].
  - rewrite replaceAll_nil by (by apply isKey_nonempty). constructor.
  - rewrite replaceAll_miss; [by constructor | by apply isKey_nonempty |].
    destruct Hkey as (body & -> & _). rewrite app_cons_s.
    apply prefix_head_ne. congruence.
  - destruct (decide (k' = k)) as [->|Hne].
    + rewrite replaceAll_key_same by done.
      assert (o' = o) as -> by congruence.
      apply shaped_app; [by apply shaped_plain | done].
    + rewrite replaceAll_key_other by done.
      constructor; [by rewrite lookup_delete_ne | done..].
Qed.

Lemma restoreIn_shaped order : ∀ m t x,
  order ≡ₚ map_to_list m →
  (∀ k o, m !! k = Some o → isKey k ∧ occurs "[" o = false) →
  shaped m t x → restoreIn order t = x.
Proof.
  induction order as [|[k o] order IH]; intros m t x Hperm Hinv Hsh.
  - symmetry in Hperm. apply Permutation_nil_r in Hperm.
    apply map_to_list_empty_iff in Hperm as ->. by apply shaped_empty.
  - assert (m !! k = Some o) as Hk.
    { apply elem_of_map_to_list. rewrite <-Hperm. left. }
    unfold restoreIn. simpl. apply (IH (delete k m)).
    + apply (Permutation_cons_inv (a := (k, o))).
      rewrite Hperm. symmetry. by apply map_to_list_delete.
    + intros k' o' Hk'. apply lookup_delete_Some in Hk' as [_ Hk']. eauto.
    + apply shaped_replaceAll; [naive_solver | done | naive_solver | done].
Qed.

(** ** Cutting a text at a match *)

Definition inside (body h : string) : Prop := ∃ a c, body = a +:+ h +:+ c.

Lemma plain_prefix h : ∀ v b t,
  h +:+ v = b +:+ String "]" t → occurs "]" h = false → ∃ c, b = h +:+ c.
Proof.
  induction h as [|x h IH]; intros v b t Heq Hh; [by exists b|].
  simpl in Hh. apply orb_false_iff in Hh as [Hx Hh].
  apply bool_decide_eq_false in Hx.
  destruct b as [|y b].
  - rewrite app_nil_s, app_cons_s in Heq. injection Heq as -> _. done.
  - rewrite !app_cons_s in Heq. injection Heq as -> Heq.
    destruct (IH _ _ _ Heq Hh) as [c ->]. by exists c.
Qed.

Lemma body_or_beyond b : ∀ u h v t,
  u +:+ h +:+ v = b +:+ String "]" t →
  occurs "]" h = false → h ≠ "" →
  inside b h ∨ ∃ e, u = b +:+ String "]" e ∧ t = e +:+ h +:+ v.
Proof.
  induction b as [|d b IH]; intros u h v t Heq Hh Hne.
  - rewrite app_nil_s in Heq. destruct u as [|c u].
    + rewrite app_nil_s in Heq. destruct h as [|x h]; [done|].
      rewrite app_cons_s in Heq. injection Heq as -> _.
      occurs_head Hh.
    + rewrite app_cons_s in Heq. injection Heq as -> Heq.
      right. by exists u.
  - rewrite app_cons_s in Heq. destruct u as [|c u].
    + rewrite app_nil_s in Heq. left. exists "".
      destruct (plain_prefix h v (String d b) t) as [c Hc];
        [by rewrite app_cons_s | done |].
      exists c. by rewrite app_nil_s.
    + rewrite app_cons_s in Heq. injection Heq as -> Heq.
      destruct (IH _ _ _ _ Heq Hh Hne) as [(a & c & ->) | (e & -> & ->)].
      * left. exists (String d a), c. by rewrite app_cons_s.
      * right. exists e. by rewrite app_cons_s.
Qed.

Lemma shaped_plain_prefix m h : ∀ v x,
  occurs "[" h = false → shaped m (h +:+ v) x →
  ∃ x2, x = h +:+ x2 ∧ shaped m v x2.
Proof.
  induction h as [|c h IH]; intros v x Hh Hsh; [by exists x|].
  simpl in Hh. apply orb_false_iff in Hh as [Hc Hh].
  apply bool_decide_eq_false in Hc. rewrite app_cons_s in Hsh.
  apply shaped_inv_byte in Hsh as (x' & -> & Hsh); [|congruence].
  destruct (IH _ _ Hh Hsh) as (x2 & -> & Hv). by exists x2.
Qed.

(** A match that has no bracket in it and is not a part of any key's
    body lies in the untouched text between keys. *)
Lemma shaped_cut m h v : ∀ t x u,
  shaped m t x → t = u +:+ h +:+ v →
  occurs "[" h = false → occurs "]" h = false → h ≠ "" →
  (∀ k o body, m !! k = Some o → k = "[" +:+ body +:+ "]" → ¬ inside body h) →
  ∃ x1 x2, x = x1 +:+ h +:+ x2 ∧ shaped m u x1 ∧ shaped m v x2.
Proof.
  intros t x u Hsh. revert u.
  induction Hsh as [|c t x Hc Hsh IH | k o t x Hk Hkey Hsh IH];
    intros u Heq Hopen Hclose Hne Hout.
  - destruct u; [by destruct h | done].
  - destruct u as [|c' u].
    + rewrite app_nil_s in Heq.
      destruct (shaped_plain_prefix m h v (String c x)) as (x2 & Hx & Hv);
        [done | rewrite <-Heq; by constructor |].
      exists "", x2. split_and!; [done | constructor | done].
    + rewrite app_cons_s in Heq. injection Heq as <- Heq.
      destruct (IH u Heq Hopen Hclose Hne Hout) as (x1 & x2 & -> & Hu & Hv).
      exists (String c x1), x2. split_and!; [done | by constructor | done].
  - destruct Hkey as (body & Hbody & Hb1 & Hb2). pose proof Hbody as Hbody'.
    rewrite Hbody', !app_cons_s, !app_nil_s, app_assoc_s, app_cons_s,
      app_nil_s in Heq.
    destruct u as [|c' u].
    + rewrite app_nil_s in Heq. destruct h as [|y h]; [done|].
      rewrite app_cons_s in Heq. injection Heq as <- _.
      occurs_head Hopen.
    + rewrite app_cons_s in Heq. injection Heq as <- Heq. symmetry in Heq.
      destruct (body_or_beyond body u h v t Heq Hclose Hne)
        as [Hin | (e & -> & ->)].
      { by destruct (Hout k o body). }
      destruct (IH e eq_refl Hopen Hclose Hne Hout) as (x1 & x2 & -> & Hu & Hv).
      exists (o +:+ x1), x2. split_and!; [by rewrite app_assoc_s | | done].
      replace (String "[" (body +:+ String "]" e)) with (k +:+ e).
      * constructor; [done | by exists body | done].
      * by rewrite Hbody', !app_cons_s, app_nil_s, app_assoc_s.
Qed.

(** ** Placeholders: their shape and their numbering *)

Definition isDigit (c : ascii) : bool := inSet [range "0" "9"]%char c.
Definition isUpper (c : ascii) : bool := inSet [range "A" "Z"]%char c.
Definition isBody (c : ascii) : bool :=
  isUpper c || isDigit c || bool_decide (c = "_"%char).

Fixpoint allS (f : ascii → bool) (s : string) : bool :=
  match s with
  | EmptyString => true
  | String c s => f c && allS f s
  end.

Lemma allS_spec f s :
  allS f s = true ↔ ∀ c, occurs c s = true → f c = true.
Proof.
  induction s as [|d s IH]; simpl; [done|].
  rewrite andb_true_iff, IH. split.
  - intros [Hd Hs] c Hc. apply orb_true_iff in Hc as [Hc|Hc]; [|auto].
    by apply bool_decide_eq_true in Hc as ->.
  - intros H. split.
    + apply H. by rewrite bool_decide_true.
    + intros c Hc. apply H. rewrite Hc. apply orb_true_r.
Qed.

Lemma allS_app f a b : allS f (a +:+ b) = allS f a && allS f b.
Proof.
  induction a as [|c a IH]; [done|].
  rewrite app_cons_s. simpl. by rewrite IH, andb_assoc.
Qed.

Lemma allS_mono (f g : ascii → bool) s :
  (∀ c, f c = true → g c = true) → allS f s = true → allS g s = true.
Proof. rewrite !allS_spec. auto. Qed.

Lemma allS_occurs f s c :
  allS f s = true → f c = false → occurs c s = false.
Proof.
  rewrite allS_spec. intros H Hc.
  destruct (occurs c s) eqn:Ho; [|done]. apply H in Ho. congruence.
Qed.

(** Only capitals: what the prefixes of the filters are made of. *)
Definition upperOnly (P : string) : Prop := allS isUpper P = true.

Lemma pretty_N_char_digit y : isDigit (pretty_N_char y) = true.
Proof. unfold pretty_N_char. by repeat case_match. Qed.

Lemma pretty_N_go_digits x : ∀ s,
  allS isDigit s = true → allS isDigit (pretty_N_go x s) = true.
Proof.
  induction (N.lt_wf_0 x) as [x _ IH]; intros s Hs.
  assert (x = 0 ∨ 0 < x)%N as [->|?] by lia; [by rewrite pretty_N_go_0|].
  rewrite pretty_N_go_step by done. apply IH; [by apply N.div_lt|].
  simpl. by rewrite pretty_N_char_digit.
Qed.

Lemma pretty_N_go_length k : ∀ x s,
  (x < 10 ^ N.of_nat k)%N →
  (String.length (pretty_N_go x s) ≤ String.length s + k)%nat.
Proof.
  induction k as [|k IH]; intros x s Hx.
  - assert (x = 0)%N as -> by (simpl in Hx; lia).
    rewrite pretty_N_go_0. lia.
  - assert (x = 0 ∨ 0 < x)%N as [->|?] by lia.
    { rewrite pretty_N_go_0. lia. }
    rewrite pretty_N_go_step by done.
    etrans; [apply IH|simpl; lia].
    apply N.Div0.div_lt_upper_bound.
    replace (N.of_nat (S k)) with (N.succ (N.of_nat k)) in Hx by lia.
    by rewrite N.pow_succ_r' in Hx.
Qed.

Lemma pretty_Z_digits (n : Z) : 0 ≤ n → allS isDigit (pretty n) = true.
Proof.
  destruct n as [|p|p]; [done | | lia]. intros _.
  unfold pretty, pretty_Z, pretty, pretty_positive, pretty, pretty_N.
  case_decide; [done|]. by apply pretty_N_go_digits.
Qed.

Lemma pretty_Z_short (n : Z) :
  0 ≤ n < 10 ^ 7 → (String.length (pretty n) ≤ 7)%nat.
Proof.
  destruct n as [|p|p]; [simpl; lia | | lia]. intros [_ Hn].
  unfold pretty, pretty_Z, pretty, pretty_positive, pretty, pretty_N.
  case_decide; [simpl; lia|].
  apply (pretty_N_go_length 7 (N.pos p) ""). lia.
Qed.

Lemma placeholderFor_body P n :
  placeholderFor P n = "[" +:+ (P +:+ "_" +:+ pretty n) +:+ "]".
Proof. unfold placeholderFor. by rewrite !app_assoc_s. Qed.

Lemma body_allBody P n :
  upperOnly P → 0 ≤ n → allS isBody (P +:+ "_" +:+ pretty n) = true.
Proof.
  intros HP Hn. rewrite !allS_app.
  rewrite (allS_mono isUpper isBody P), (allS_mono isDigit isBody (pretty n));
    [done | | by apply pretty_Z_digits | | done].
  - intros c Hc. unfold isBody. by rewrite Hc, orb_true_r.
  - intros c Hc. unfold isBody. by rewrite Hc.
Qed.

Lemma placeholder_isKey P n :
  upperOnly P → 0 ≤ n → isKey (placeholderFor P n).
Proof.
  intros HP Hn. exists (P +:+ "_" +:+ pretty n).
  split; [apply placeholderFor_body|].
  split; by eapply allS_occurs; [apply body_allBody|].
Qed.

Lemma placeholder_inj P n Q m :
  upperOnly P → upperOnly Q → 0 ≤ n → 0 ≤ m →
  placeholderFor P n = placeholderFor Q m → P = Q ∧ n = m.
Proof.
  intros HP HQ Hn Hm Heq. unfold placeholderFor in Heq.
  rewrite !app_cons_s, !app_nil_s in Heq. injection Heq as Heq.
  apply first_split in Heq as [-> Heq];
    [| by eapply allS_occurs | by eapply allS_occurs].
  split; [done|].
  apply first_split in Heq as [Heq _].
  - by apply (inj pretty).
  - eapply allS_occurs; [by apply pretty_Z_digits | done].
  - eapply allS_occurs; [by apply pretty_Z_digits | done].
Qed.

(** What the checks on a pattern give for each of its matches: no
    bracket, at least one byte, and either a byte no placeholder body
    has, or eight digits and nothing else. *)
Definition clearHit (h : string) : Prop :=
  occurs "[" h = false ∧ occurs "]" h = false ∧ h ≠ "" ∧
  ((∃ c, occurs c h = true ∧ isBody c = false) ∨
   (allS isDigit h = true ∧ (8 ≤ String.length h)%nat)).

Lemma digit_run w : ∀ a h c D,
  a +:+ h +:+ c = w +:+ D →
  (∀ x, occurs x w = true → isDigit x = false) →
  allS isDigit h = true → h ≠ "" →
  (String.length h ≤ String.length D)%nat.
Proof.
  induction w as [|y w IH]; intros a h c D Heq Hw Hh Hne.
  - rewrite app_nil_s in Heq. apply (f_equal String.length) in Heq.
    rewrite !length_app_s in Heq. lia.
  - rewrite app_cons_s in Heq. destruct a as [|x a].
    + rewrite app_nil_s in Heq. destruct h as [|z h]; [done|].
      rewrite app_cons_s in Heq. injection Heq as -> _.
      simpl in Hh. apply andb_true_iff in Hh as [Hz _].
      rewrite Hw in Hz; [done|]. simpl. by rewrite bool_decide_true.
    + rewrite app_cons_s in Heq. injection Heq as -> Heq.
      eapply IH; [done | | done | done].
      intros z Hz. apply Hw. simpl. rewrite Hz. apply orb_true_r.
Qed.

Lemma placeholder_body_outside P n h :
  upperOnly P → 0 ≤ n < 10 ^ 7 → clearHit h →
  ¬ inside (P +:+ "_" +:+ pretty n) h.
Proof.
  intros HP Hn (_ & _ & Hne & [(c & Hc & Hbody) | [Hdig Hlen]]) (a & e & Heq).
  - assert (occurs c (P +:+ "_" +:+ pretty n) = false) as Hnot.
    { eapply allS_occurs; [apply body_allBody; [done | lia] | done]. }
    rewrite Heq, !occurs_app, Hc in Hnot. by rewrite orb_true_r in Hnot.
  - pose proof (pretty_Z_short n Hn).
    assert (String.length h ≤ String.length (pretty n))%nat; [|lia].
    apply (digit_run (P +:+ "_") a h e).
    + by rewrite <-Heq, app_assoc_s.
    + intros x Hx. apply occurs_app_true in Hx as [Hx|Hx].
      * apply allS_spec with (c := x) in HP; [|done].
        unfold isUpper, isDigit, inSet in *. simpl in *.
        rewrite orb_false_r in *. apply andb_true_iff in HP as [H1 H2].
        apply N.leb_le in H1, H2. apply andb_false_iff. right.
        apply N.leb_gt. lia.
      * simpl in Hx. rewrite orb_false_r in Hx.
        by apply bool_decide_eq_true in Hx as ->.
    + done.
    + done.
Qed.

(** ** The two maps of the sanitizer *)

Definition cntOf (cnt : gmap string Z) (P : string) : Z :=
  default 0 (cnt !! P).

(** What holds of the maps whenever the sanitizer is at rest: every key
    is the placeholder of a capital prefix and a number its counter has
    passed; no original has an opening bracket; no original is filed
    twice; no counter is negative, and none has outrun the number of
    entries. *)
Record stInv (m : gmap string string) (cnt : gmap string Z) : Prop := {
  inv_keys : ∀ k o, m !! k = Some o →
    ∃ P n, k = placeholderFor P n ∧ upperOnly P ∧ 0 < n ≤ cntOf cnt P;
  inv_orig : ∀ k o, m !! k = Some o → occurs "[" o = false;
  inv_uniq : ∀ k1 k2 o, m !! k1 = Some o → m !! k2 = Some o → k1 = k2;
  inv_cnt : ∀ P, 0 ≤ cntOf cnt P;
  inv_size : ∀ P, cntOf cnt P ≤ Z.of_nat (size m)
}.

Lemma stInv_empty : stInv ∅ ∅.
Proof.
  split; intros *; unfold cntOf; rewrite ?lookup_empty, ?map_size_empty;
    done.
Qed.

Lemma stInv_isKey m cnt k o : stInv m cnt → m !! k = Some o → isKey k.
Proof.
  intros Hinv Hk. destruct (inv_keys _ _ Hinv k o Hk) as (P & n & -> & HP & Hn).
  apply placeholder_isKey; [done | lia].
Qed.

Lemma find_original_Some (m : gmap string string) h e :
  find (λ e : string * string, bool_decide (e.2 = h)) (map_to_list m) = Some e →
  m !! e.1 = Some h.
Proof.
  intros H. apply find_some in H as [Hin Heq].
  apply bool_decide_eq_true in Heq as <-.
  apply list_elem_of_In in Hin. destruct e. by apply elem_of_map_to_list.
Qed.

Lemma find_original_None (m : gmap string string) h :
  find (λ e : string * string, bool_decide (e.2 = h)) (map_to_list m) = None →
  ∀ k, m !! k ≠ Some h.
Proof.
  intros H k Hk.
  pose proof (find_none _ _ H (k, h)) as Hn. simpl in Hn.
  rewrite bool_decide_true in Hn by done.
  discriminate Hn. by apply list_elem_of_In, elem_of_map_to_list.
Qed.

(** An original already on file is answered with its placeholder, and
    nothing changes. *)
Lemma replaceMatch_known P h m cnt k :
  stInv m cnt → m !! k = Some h →
  replaceMatch P h (m, cnt) = (k, (m, cnt)).
Proof.
  intros Hinv Hk. unfold replaceMatch. simpl.
  destruct (find _ (map_to_list m)) as [e|] eqn:Hfind.
  - apply find_original_Some in Hfind.
    by rewrite (inv_uniq _ _ Hinv _ _ _ Hfind Hk).
  - by destruct (find_original_None _ _ Hfind k).
Qed.

Lemma cntOf_insert cnt P n Q :
  cntOf (<[P := n]> cnt) Q = if decide (P = Q) then n else cntOf cnt Q.
Proof.
  unfold cntOf. case_decide as H.
  - subst. by rewrite lookup_insert_eq.
  - by rewrite lookup_insert_ne.
Qed.

Lemma replaceMatch_spec P h m cnt :
  stInv m cnt → upperOnly P → occurs "[" h = false →
  cntOf cnt P + 1 < 2 ^ 63 →
  ∃ k m' cnt',
    replaceMatch P h (m, cnt) = (k, (m', cnt')) ∧
    m' !! k = Some h ∧ m ⊆ m' ∧ stInv m' cnt' ∧
    (∀ Q, cntOf cnt Q ≤ cntOf cnt' Q ≤ cntOf cnt Q + 1).
Proof.
  intros Hinv HP Hh Hno. unfold replaceMatch. simpl.
  destruct (find _ (map_to_list m)) as [e|] eqn:Hfind.
  - apply find_original_Some in Hfind.
    exists e.1, m, cnt. split_and!; [done.. |]. intros Q. lia.
  - pose proof (find_original_None _ _ Hfind) as Hnew.
    pose proof (inv_cnt _ _ Hinv P) as HcP. fold (cntOf cnt P).
    unfold Go.int_add. rewrite Go.wrap64_small by lia.
    set (n := cntOf cnt P + 1). set (k := placeholderFor P n).
    assert (m !! k = None) as Hfresh.
    { destruct (m !! k) as [o|] eqn:Hk; [|done].
      destruct (inv_keys _ _ Hinv k o Hk) as (Q & j & Heq & HQ & Hj).
      apply placeholder_inj in Heq as [HPQ Hnj];
        [|done | done | unfold n; lia | lia].
      subst Q. unfold n in Hnj. lia. }
    exists k, (<[k := h]> m), (<[P := n]> cnt).
    split_and!; [done | by rewrite lookup_insert_eq | by apply insert_subseteq | |].
    + split.
      * intros k' o Hk'. apply lookup_insert_Some in Hk' as [[<- <-]|[_ Hk']].
        { exists P, n. split_and!; [done | done | unfold n; lia |].
          rewrite cntOf_insert. case_decide; [lia | done]. }
        destruct (inv_keys _ _ Hinv k' o Hk') as (Q & j & -> & HQ & Hj).
        exists Q, j. split_and!; [done | done | lia |].
        rewrite cntOf_insert. unfold n. case_decide; [subst; lia | lia].
      * intros k' o Hk'. apply lookup_insert_Some in Hk' as [[<- <-]|[_ Hk']];
          [done | by eapply inv_orig].
      * intros k1 k2 o H1 H2.
        apply lookup_insert_Some in H1 as [[<- <-]|[_ H1]];
          apply lookup_insert_Some in H2 as [[<- E2]|[_ H2]]; try done.
        -- by destruct (Hnew k2).
        -- subst. by destruct (Hnew k1).
        -- by eapply inv_uniq.
      * intros Q. rewrite cntOf_insert. case_decide; [unfold n; lia|].
        by apply (inv_cnt m).
      * intros Q. rewrite cntOf_insert, map_size_insert_None by done.
        pose proof (inv_size _ _ Hinv Q). case_decide; [subst; unfold n|]; lia.
    + intros Q. rewrite cntOf_insert. unfold n.
      case_decide; [subst; lia | lia].
Qed.

(** ** One filter at a time *)

(** The check a pattern has to pass: no class admits a bracket, no match
    is empty, and every match has a byte foreign to placeholder bodies, or
    else the pattern's body bytes are digits and it needs eight bytes. *)
Definition safePattern (r : regex) : bool :=
  negb (mayUse r "[") && negb (mayUse r "]") && (0 <? minlen r)%nat &&
  (needs (λ c, negb (isBody c)) r
   || (forallb (λ c, implb (mayUse r c && isBody c) (isDigit c)) allBytes
       && (8 <=? minlen r)%nat)).

Definition safeFilter (f : piiFilter) : Prop :=
  upperOnly (prefix f) ∧ safePattern (prog (pattern f)) = true.

Lemma safePattern_clearHit r h :
  safePattern r = true → lang r h → clearHit h.
Proof.
  unfold safePattern. intros Hsafe Hlang.
  apply andb_true_iff in Hsafe as [Hsafe Halt].
  apply andb_true_iff in Hsafe as [Hsafe Hmin].
  apply andb_true_iff in Hsafe as [Hopen Hclose].
  apply negb_true_iff in Hopen, Hclose. apply Nat.ltb_lt in Hmin.
  pose proof (lang_minlen _ _ Hlang) as Hlen.
  pose proof (lang_mayUse _ _ Hlang) as Huse.
  split_and!.
  - destruct (occurs "[" h) eqn:Ho; [|done]. apply Huse in Ho. congruence.
  - destruct (occurs "]" h) eqn:Ho; [|done]. apply Huse in Ho. congruence.
  - intros ->. simpl in Hlen. lia.
  - apply orb_true_iff in Halt as [Hneeds | Hdigits].
    + left. destruct (lang_needs _ _ _ Hlang Hneeds) as (c & Hc & Hout).
      exists c. split; [done|]. by apply negb_true_iff.
    + apply andb_true_iff in Hdigits as [Hdig H8]. apply Nat.leb_le in H8.
      destruct (allS isBody h) eqn:Hbody.
      * right. split; [|lia]. apply allS_spec. intros c Hc.
        rewrite forallb_forall in Hdig.
        specialize (Hdig c (proj1 (list_elem_of_In _ _) (in_allBytes c))).
        rewrite (Huse c Hc) in Hdig.
        rewrite (proj1 (allS_spec _ _) Hbody c Hc) in Hdig. done.
      * left. assert (¬ ∀ c, occurs c h = true → isBody c = true) as Hn.
        { rewrite <-allS_spec. congruence. }
        clear -Hn. induction h as [|d h IH]; [by destruct Hn|].
        destruct (isBody d) eqn:Hd.
        -- destruct IH as (c & Hc & Hb).
           { intros Hall. apply Hn. intros c Hc. simpl in Hc.
             apply orb_true_iff in Hc as [Hc|Hc]; [|auto].
             by apply bool_decide_eq_true in Hc as ->. }
           exists c. split; [|done]. simpl. rewrite Hc. apply orb_true_r.
        -- exists d. split; [|done]. simpl. by rewrite bool_decide_true.
Qed.

Lemma app_inv_tail_s (a b c : string) : a +:+ c = b +:+ c → a = b.
Proof.
  revert b. induction a as [|x a IH]; intros [|y b] Heq.
  - done.
  - apply (f_equal String.length) in Heq.
    rewrite app_nil_s, length_app_s in Heq. simpl in Heq. lia.
  - apply (f_equal String.length) in Heq.
    rewrite app_nil_s, length_app_s in Heq. simpl in Heq. lia.
  - rewrite !app_cons_s in Heq. injection Heq as -> Heq. f_equal. auto.
Qed.

Lemma stInv_outside m cnt h :
  stInv m cnt → (∀ Q, cntOf cnt Q < 10 ^ 7) → clearHit h →
  ∀ k o body, m !! k = Some o → k = "[" +:+ body +:+ "]" → ¬ inside body h.
Proof.
  intros Hinv Hbound Hh k o body Hk Hbody.
  destruct (inv_keys _ _ Hinv k o Hk) as (P & n & -> & HP & Hn).
  rewrite placeholderFor_body in Hbody.
  apply app_inv_head_s, app_inv_tail_s in Hbody as <-.
  apply placeholder_body_outside; [done | | done].
  specialize (Hbound P). lia.
Qed.

Lemma replacePieces_gap {S} (repl : string → S → string * S) text ps st :
  replacePieces repl (Gap text :: ps) st =
    (text +:+ (replacePieces repl ps st).1, (replacePieces repl ps st).2).
Proof. simpl. by destruct (replacePieces repl ps st). Qed.

Lemma replacePieces_hit {S} (repl : string → S → string * S) w c ps st :
  replacePieces repl (Hit w c :: ps) st =
    ((repl w st).1 +:+ (replacePieces repl ps (repl w st).2).1,
     (replacePieces repl ps (repl w st).2).2).
Proof.
  simpl. destruct (repl w st) as [new st1]. simpl.
  by destruct (replacePieces repl ps st1).
Qed.

Lemma piecesFrom_step fuel r prev s :
  piecesFrom (S fuel) r prev s =
    match search r prev s with
    | None => [Gap s]
    | Some f =>
        match whole f with
        | EmptyString =>
            match rest f with
            | EmptyString => [Gap s]
            | String c s' =>
                Gap (before f +:+ String c "") :: piecesFrom fuel r (Some c) s'
            end
        | _ => Gap (before f) :: Hit (whole f) (sub1 f)
               :: piecesFrom fuel r (last f) (rest f)
        end
    end.
Proof. done. Qed.

Lemma stage_pieces r P :
  safePattern r = true → upperOnly P →
  ∀ fuel prev t x m cnt,
    shaped m t x → stInv m cnt →
    (∀ Q, cntOf cnt Q + Z.of_nat (String.length x) < 10 ^ 7) →
    ∃ t' m' cnt',
      replacePieces (replaceMatch P) (piecesFrom fuel r prev t) (m, cnt)
        = (t', (m', cnt')) ∧
      shaped m' t' x ∧ m ⊆ m' ∧ stInv m' cnt' ∧
      ∀ Q, cntOf cnt' Q ≤ cntOf cnt Q + Z.of_nat (String.length x).
Proof.
  intros Hsafe HP.
  assert (∀ t x m cnt, shaped m t x →
            ∃ t' m' cnt',
              replacePieces (replaceMatch P) [Gap t] (m, cnt)
                = (t', (m', cnt')) ∧
              shaped m' t' x ∧ m ⊆ m' ∧ (stInv m cnt → stInv m' cnt') ∧
              ∀ Q, cntOf cnt' Q ≤ cntOf cnt Q + Z.of_nat (String.length x))
    as Hgap.
  { intros t x m cnt Hsh. exists t, m, cnt. simpl. rewrite app_nil_r_s.
    split_and!; [done.. |]. intros Q. lia. }
  induction fuel as [|fuel IH]; intros prev t x m cnt Hsh Hinv Hbound.
  { destruct (Hgap t x m cnt Hsh) as (t' & m' & cnt' & ? & ? & ? & ? & ?).
    exists t', m', cnt'. split_and!; auto. }
  rewrite piecesFrom_step.
  destruct (search r prev t) as [f|] eqn:Hsearch.
  2:{ destruct (Hgap t x m cnt Hsh) as (t' & m' & cnt' & ? & ? & ? & ? & ?).
      exists t', m', cnt'. split_and!; auto. }
  apply search_sound in Hsearch as [Ht Hlang].
  pose proof (safePattern_clearHit _ _ Hsafe Hlang) as Hclear.
  pose proof Hclear as (Hopen & Hclose & Hne & _).
  destruct (whole f) as [|c0 w0] eqn:Hwhole; [done|]. rewrite <-Hwhole in *.
  assert (∀ Q, cntOf cnt Q < 10 ^ 7) as Hbound'.
  { intros Q. specialize (Hbound Q). lia. }
  destruct (shaped_cut m (whole f) (rest f) t x (before f) Hsh Ht
              Hopen Hclose Hne (stInv_outside _ _ _ Hinv Hbound' Hclear))
    as (x1 & x2 & -> & Hsh1 & Hsh2).
  destruct (replaceMatch_spec P (whole f) m cnt Hinv HP Hopen)
    as (k & m1 & cnt1 & Hrepl & Hk & Hsub1 & Hinv1 & Hcnt1).
  { specialize (Hbound' P). lia. }
  assert (0 < String.length (whole f))%nat as Hpos
    by (rewrite Hwhole; simpl; lia).
  destruct (IH (last f) (rest f) x2 m1 cnt1)
    as (t2 & m' & cnt' & Hrest & Hsh' & Hsub' & Hinv' & Hcnt').
  { by eapply shaped_weaken. }
  { done. }
  { intros Q. specialize (Hbound Q). specialize (Hcnt1 Q).
    rewrite !length_app_s in Hbound. lia. }
  exists (before f +:+ k +:+ t2), m', cnt'.
  split_and!.
  - rewrite replacePieces_gap, replacePieces_hit, Hrepl. simpl.
    by rewrite Hrest.
  - apply shaped_app; [eapply shaped_weaken; [|done]; by etrans|].
    constructor;
      [by eapply lookup_weaken | by apply (stInv_isKey m1 cnt1 k (whole f)) | done].
  - by etrans.
  - done.
  - intros Q. specialize (Hcnt' Q). specialize (Hcnt1 Q).
    rewrite !length_app_s. lia.
Qed.

Lemma stages fs :
  Forall safeFilter fs →
  ∀ t x m cnt,
    shaped m t x → stInv m cnt →
    (∀ Q, cntOf cnt Q
          + Z.of_nat (length fs) * Z.of_nat (String.length x) < 10 ^ 7) →
    ∃ t' m' cnt',
      foldl (λ acc f,
               ReplaceAllStringFunc (pattern f) acc.1
                 (replaceMatch (prefix f)) acc.2)
            (t, (m, cnt)) fs = (t', (m', cnt')) ∧
      shaped m' t' x ∧ stInv m' cnt'.
Proof.
  induction 1 as [|f fs [HP Hsafe] _ IH]; intros t x m cnt Hsh Hinv Hbound.
  { by exists t, m, cnt. }
  destruct (stage_pieces _ _ Hsafe HP (S (String.length t)) None t x m cnt)
    as (t1 & m1 & cnt1 & Hstage & Hsh1 & _ & Hinv1 & Hcnt1); [done | done | |].
  { intros Q. specialize (Hbound Q). simpl length in Hbound. nia. }
  destruct (IH t1 x m1 cnt1 Hsh1 Hinv1) as (t' & m' & cnt' & Hrest & ? & ?).
  { intros Q. specialize (Hbound Q). specialize (Hcnt1 Q).
    simpl length in Hbound. nia. }
  exists t', m', cnt'. split; [|done].
  simpl. unfold ReplaceAllStringFunc at 2, pieces. simpl fst. simpl snd.
  by rewrite Hstage.
Qed.

(** ** The whole round trip *)

(** What holds of a sanitizer between calls. *)
Definition sanInv (s : Sanitizer) : Prop :=
  stInv (mappings s) (counter s) ∧ Forall safeFilter (filters s) ∧
  (length (filters s) ≤ length defaultFilters)%nat.

(** A text the round trip is proved for: no opening bracket in it, and
    fewer than a million bytes, which keeps every counter below the
    eight digits a phone or card pattern could take for a number. *)
Definition plainText (x : string) : Prop :=
  occurs "[" x = false ∧ Z.of_nat (String.length x) < 10 ^ 6.

(** The sanitizer after [NewSanitizer cfg] and one [Sanitize] call for
    each of [xs], in that order. *)
Definition chainOf (cfg : PIIFilterConfig) (xs : list string) : Sanitizer :=
  foldl (λ s x, (Sanitize x s).2) (NewSanitizer cfg) xs.

(** The sanitizer answers an original that is on file with the
    placeholder it is filed under, and changes nothing. *)
Definition reuses (s : Sanitizer) : Prop :=
  ∀ P k h, mappings s !! k = Some h →
    replaceMatch P h (mappings s, counter s) = (k, (mappings s, counter s)).

Lemma defaultFilters_safe : Forall safeFilter defaultFilters.
Proof. repeat constructor; vm_compute; reflexivity. Qed.

Lemma NewSanitizer_inv cfg : sanInv (NewSanitizer cfg).
Proof.
  split_and!; [apply stInv_empty | | apply length_filter]. simpl.
  apply Forall_forall. intros f Hf. apply list_elem_of_filter in Hf as [_ Hf].
  by apply (proj1 (Forall_forall _ _) defaultFilters_safe).
Qed.

Lemma Sanitize_shaped x s :
  sanInv s → plainText x →
  shaped (mappings (Sanitize x s).2) (Sanitize x s).1 x ∧
  sanInv (Sanitize x s).2.
Proof.
  intros (Hinv & Hsafe & Hfew) [Hx Hshort]. unfold Sanitize.
  destruct (negb (enabled s) || _) eqn:Hoff.
  { simpl. split; [by apply shaped_plain | done]. }
  assert (Z.of_nat (length (filters s)) ≤ 5) as Hfive.
  { change (length defaultFilters) with 5%nat in Hfew. lia. }
  assert (∀ st : gmap string string * gmap string Z,
            stInv st.1 st.2 → (∀ Q, cntOf st.2 Q < maxPIIMappings) →
            ∃ t' m' cnt',
              foldl (λ acc f,
                       ReplaceAllStringFunc (pattern f) acc.1
                         (replaceMatch (prefix f)) acc.2)
                    (x, st) (filters s) = (t', (m', cnt')) ∧
              shaped m' t' x ∧ stInv m' cnt') as Hrun.
  { intros [m0 cnt0] Hinv0 Hle.
    apply stages; [done | by apply shaped_plain | done |].
    intros Q. specialize (Hle Q). simpl in Hle.
    unfold maxPIIMappings in Hle. nia. }
  clear Hoff. case_bool_decide as Hfull; cbv iota.
  - destruct (Hrun (∅, ∅)) as (t' & m' & cnt' & -> & Hsh & Hinv').
    { apply stInv_empty. }
    { intros Q. simpl. unfold cntOf. by rewrite lookup_empty. }
    simpl. by split.
  - destruct (Hrun (mappings s, counter s))
      as (t' & m' & cnt' & -> & Hsh & Hinv'); [done | |].
    { intros Q. pose proof (inv_size _ _ Hinv Q). simpl. lia. }
    simpl. by split.
Qed.

Lemma chainOf_snoc cfg xs x :
  chainOf cfg (xs ++ [x]) = (Sanitize x (chainOf cfg xs)).2.
Proof. unfold chainOf. by rewrite foldl_app. Qed.

Lemma chainOf_inv cfg xs : Forall plainText xs → sanInv (chainOf cfg xs).
Proof.
  induction xs as [|x xs IH] using rev_ind; intros Hxs.
  { apply NewSanitizer_inv. }
  apply Forall_app in Hxs as [Hxs Hx%Forall_inv].
  rewrite chainOf_snoc.
  destruct (Sanitize_shaped x (chainOf cfg xs)) as [_ ?]; [|done..].
  by apply IH.
Qed.

Lemma Restore_shaped order t x s :
  stInv (mappings s) (counter s) → iterationOf order s →
  shaped (mappings s) t x → (enabled s = false → t = x) →
  Restore order t s = x.
Proof.
  intros Hinv Horder Hsh Hoff. unfold Restore.
  destruct (enabled s); simpl; [|by apply Hoff].
  apply (restoreIn_shaped order (mappings s)); [done | | done].
  intros k o Hk. split; [by eapply stInv_isKey | by eapply inv_orig].
Qed.

Lemma Sanitize_disabled x s :
  enabled (Sanitize x s).2 = false → (Sanitize x s).1 = x.
Proof.
  unfold Sanitize. destruct (enabled s) eqn:Hon; [|done].
  simpl. repeat case_match; simpl; congruence.
Qed.

(** C5.  The round trip, for the texts it holds for.  Take a sanitizer
    made by [NewSanitizer] from any configuration and used for any
    number of earlier [Sanitize] calls, and a text [x]; let none of the
    texts have an opening bracket or a million bytes.  Then [Restore],
    in whatever order it ranges over the map, turns [Sanitize x] back
    into [x]; and the sanitizer that call leaves behind answers every
    original it has on file with the placeholder it is filed under,
    without a new entry or a counter moved.  (A table that has reached
    [maxPIIMappings] entries is dropped at the start of the call and does
    not touch the round trip of that call.) *)
Theorem restore_undoes_sanitize cfg xs x order :
  Forall plainText xs → plainText x →
  iterationOf order (Sanitize x (chainOf cfg xs)).2 →
  Restore order (Sanitize x (chainOf cfg xs)).1 (Sanitize x (chainOf cfg xs)).2
    = x
  ∧ reuses (Sanitize x (chainOf cfg xs)).2.
Proof.
  intros Hxs Hx Horder.
  destruct (Sanitize_shaped x (chainOf cfg xs)) as [Hsh (Hinv & _ & _)];
    [by apply chainOf_inv | done |].
  split.
  - apply Restore_shaped; [done | done | done |].
    apply Sanitize_disabled.
  - intros P k h Hk. by apply replaceMatch_known.
Qed.

Lemma restore_undoes_sanitize_witness :
  let xs := ["write to a@b.com"; "card 4111 1111 1111 1111"] in
  let x := "a@b.com again, or call +1 555 123 4567" in
  let r := Sanitize x (chainOf defaultConfig xs) in
  r.1 = "[EMAIL_1] again, or call [PHONE_2]" ∧
  Restore (map_to_list (mappings r.2)) r.1 r.2 = x ∧ reuses r.2.
Proof.
  split; [vm_compute; reflexivity|].
  apply (restore_undoes_sanitize defaultConfig
           ["write to a@b.com"; "card 4111 1111 1111 1111"]
           "a@b.com again, or call +1 555 123 4567").
  - repeat constructor; vm_compute; reflexivity.
  - split; vm_compute; reflexivity.
  - unfold iterationOf. reflexivity.
Defined.

(** C5, as worded, fails on a text that already holds something shaped
    like a placeholder: one literal to replace, far from a thousand, and
    [Restore] of [Sanitize] puts the address where the bracketed word
    was. *)
Lemma bracketed_text_not_restored :
  let s := NewSanitizer emailsOnly in
  let x := "[EMAIL_1] a@b.com" in
  let r := Sanitize x s in
  r.1 = "[EMAIL_1] [EMAIL_1]" ∧
  map_to_list (mappings r.2) = [("[EMAIL_1]", "a@b.com")] ∧
  ∀ order, iterationOf order r.2 →
    Restore order r.1 r.2 = "a@b.com a@b.com" ∧ Restore order r.1 r.2 ≠ x.
Proof.
  split_and!; [vm_compute; reflexivity.. |].
  intros order Horder. unfold iterationOf in Horder.
  assert (order = [("[EMAIL_1]", "a@b.com")]) as ->.
  { apply Permutation_singleton_r. by rewrite Horder. }
  split; [vm_compute; reflexivity | vm_compute; discriminate].
Qed.

(** ** What a sanitizer keeps from call to call *)

Lemma Sanitize_keeps x s :
  filters (Sanitize x s).2 = filters s ∧ enabled (Sanitize x s).2 = enabled s.
Proof. unfold Sanitize. repeat case_match; simpl; done. Qed.

Lemma chainOf_keeps cfg xs :
  filters (chainOf cfg xs) = filters (NewSanitizer cfg) ∧
  enabled (chainOf cfg xs) = enabled (NewSanitizer cfg).
Proof.
  induction xs as [|x xs [IHf IHe]] using rev_ind; [done|].
  rewrite chainOf_snoc.
  destruct (Sanitize_keeps x (chainOf cfg xs)) as [-> ->]. done.
Qed.

(** X24.  [Reset] takes a sanitizer back to where [NewSanitizer] left
    it, however it has been used since: the filters and the switch are
    those of the configuration, both maps are empty, and [Restore] hands
    every text back unchanged, the placeholders of earlier calls
    included. *)
Theorem reset_forgets_everything cfg xs order text :
  iterationOf order (Reset (chainOf cfg xs)) →
  Reset (chainOf cfg xs) = NewSanitizer cfg ∧
  Restore order text (Reset (chainOf cfg xs)) = text.
Proof.
  intros Horder. destruct (chainOf_keeps cfg xs) as [Hf He].
  assert (Reset (chainOf cfg xs) = NewSanitizer cfg) as Hreset.
  { unfold Reset. rewrite Hf, He. done. }
  split; [done|]. unfold iterationOf in Horder. rewrite Hreset in *.
  simpl in Horder. rewrite map_to_list_empty in Horder.
  apply Permutation_nil_r in Horder as ->.
  unfold Restore, restoreIn. simpl. by destruct (Enabled cfg).
Qed.

Lemma reset_forgets_everything_witness :
  Reset (chainOf defaultConfig ["write to a@b.com"]) = NewSanitizer defaultConfig
  ∧ Restore [] "write to [EMAIL_1]"
      (Reset (chainOf defaultConfig ["write to a@b.com"]))
    = "write to [EMAIL_1]".
Proof.
  apply (reset_forgets_everything defaultConfig ["write to a@b.com"] []
           "write to [EMAIL_1]").
  vm_compute. reflexivity.
Defined.

(** X25.  A full table is thrown away.  When [Sanitize] is called on a
    working sanitizer whose map holds [maxPIIMappings] entries or more,
    the call goes as it would after [Reset]: the numbering starts again
    at one, and the placeholders handed out before are no longer in the
    map. *)
Theorem full_table_is_dropped x s :
  maxPIIMappings ≤ Z.of_nat (size (mappings s)) →
  enabled s = true → filters s ≠ [] →
  Sanitize x s = Sanitize x (Reset s).
Proof.
  intros Hfull Hon Hfs. unfold Sanitize, Reset. simpl. rewrite Hon. simpl.
  rewrite (bool_decide_false (length (filters s) = 0%nat))
    by (destruct (filters s); done).
  rewrite bool_decide_true by done.
  rewrite bool_decide_false; [done|].
  rewrite map_size_empty. unfold maxPIIMappings. lia.
Qed.

(** A sanitizer with a thousand addresses on file. *)
Definition crowded : Sanitizer :=
  {| filters := filters (NewSanitizer emailsOnly);
     mappings :=
       list_to_map
         ((λ n, (placeholderFor "EMAIL" (Z.of_nat n),
                 "u" +:+ pretty n +:+ "@b.com")) <$> List.seq 1 1000);
     counter := {["EMAIL" := 1000]};
     enabled := true |}.

Lemma full_table_is_dropped_witness :
  (Sanitize "a@b.com" crowded).1 = "[EMAIL_1]" ∧
  Sanitize "a@b.com" crowded = Sanitize "a@b.com" (Reset crowded).
Proof.
  split; [vm_compute; reflexivity|].
  apply (full_table_is_dropped "a@b.com" crowded).
  - vm_compute. discriminate.
  - reflexivity.
  - discriminate.
Defined.

(** X26.  The shape of the table.  In a sanitizer used only on texts
    without an opening bracket and shorter than a million bytes, every
    key of the map is a placeholder [[PREFIX_n]] whose number lies
    between one and the counter of its prefix, no original holds an
    opening bracket, no original is on file under two placeholders, and
    no counter is negative or exceeds the number of entries. *)
Theorem sanitizer_table_stays_well_formed cfg xs :
  Forall plainText xs →
  let s := chainOf cfg xs in
  (∀ k o, mappings s !! k = Some o →
     occurs "[" o = false ∧
     ∃ P n, k = placeholderFor P n ∧ upperOnly P ∧
            0 < n ≤ cntOf (counter s) P) ∧
  (∀ k1 k2 o, mappings s !! k1 = Some o → mappings s !! k2 = Some o →
     k1 = k2) ∧
  (∀ P, 0 ≤ cntOf (counter s) P ≤ Z.of_nat (size (mappings s))).
Proof.
  intros Hxs s. destruct (chainOf_inv cfg xs Hxs) as (Hinv & _ & _).
  fold s in Hinv. split_and!.
  - intros k o Hk. split; [by eapply inv_orig | by eapply inv_keys].
  - apply (inv_uniq _ _ Hinv).
  - intros P. split; [apply (inv_cnt _ _ Hinv) | apply (inv_size _ _ Hinv)].
Qed.

Lemma sanitizer_table_stays_well_formed_witness :
  let s := chainOf defaultConfig ["write to a@b.com"; "or to c@d.org"] in
  (∀ k o, mappings s !! k = Some o →
     occurs "[" o = false ∧
     ∃ P n, k = placeholderFor P n ∧ upperOnly P ∧
            0 < n ≤ cntOf (counter s) P) ∧
  (∀ k1 k2 o, mappings s !! k1 = Some o → mappings s !! k2 = Some o →
     k1 = k2) ∧
  (∀ P, 0 ≤ cntOf (counter s) P ≤ Z.of_nat (size (mappings s))).
Proof.
  apply (sanitizer_table_stays_well_formed defaultConfig
           ["write to a@b.com"; "or to c@d.org"]).
  repeat constructor; vm_compute; reflexivity.
Defined.

(** ** [indexOf] and [replaceAll] against their descriptions *)

Lemma dropS_add (a b : nat) (s : string) :
  dropS (a + b) s = dropS b (dropS a s).
Proof.
  revert s. induction a as [|a IH]; intros [|c s]; simpl; try done.
  by destruct b.
Qed.

Lemma length_takeS_le (n : nat) (s : string) :
  (n ≤ String.length s)%nat → String.length (takeS n s) = n.
Proof.
  revert s. induction n as [|n IH]; intros [|c s]; simpl; try lia.
  intros H. rewrite IH; lia.
Qed.

Lemma firstAt_Some s old : ∀ n,
  firstAt s old = Some n →
  (∃ v, s = takeS n s +:+ old +:+ v) ∧
  String.length (takeS n s) = n ∧
  ∀ u' v', s = u' +:+ old +:+ v' → (n ≤ String.length u')%nat.
Proof.
  induction s as [|c s IH]; intros n.
  - rewrite firstAt_nil. destruct (String.prefix old "") eqn:Hp; [|done].
    intros [= <-]. apply prefix_spec in Hp as [v Hv].
    split_and!; [by exists v | done | intros; lia].
  - rewrite firstAt_cons.
    destruct (String.prefix old (String c s)) eqn:Hp.
    + intros [= <-]. apply prefix_spec in Hp as [v Hv].
      split_and!; [by exists v | done | intros; lia].
    + destruct (firstAt s old) as [m|] eqn:Hm; [|done].
      intros [= <-]. destruct (IH m eq_refl) as ((v & Hv) & Hlen & Hmin).
      split_and!.
      * exists v. simpl. by rewrite app_cons_s, <-Hv.
      * simpl. by rewrite Hlen.
      * intros [|d u'] v' Huv.
        { rewrite app_nil_s in Huv.
          assert (String.prefix old (String c s) = true) as Hp'
            by (apply prefix_spec; by exists v').
          congruence. }
        rewrite app_cons_s in Huv. injection Huv as _ Huv.
        specialize (Hmin u' v' Huv). simpl. lia.
Qed.

Lemma firstAt_None s old :
  firstAt s old = None → ∀ u v, s ≠ u +:+ old +:+ v.
Proof.
  induction s as [|c s IH].
  - rewrite firstAt_nil. destruct (String.prefix old "") eqn:Hp; [done|].
    intros _ u v Huv. destruct u; [|done]. rewrite app_nil_s in Huv.
    assert (String.prefix old "" = true) as Hp'
      by (apply prefix_spec; by exists v).
    congruence.
  - rewrite firstAt_cons.
    destruct (String.prefix old (String c s)) eqn:Hp; [done|].
    destruct (firstAt s old) as [m|] eqn:Hm; [done|].
    intros _ [|d u] v Huv.
    + rewrite app_nil_s in Huv.
      assert (String.prefix old (String c s) = true) as Hp'
        by (apply prefix_spec; by exists v).
      congruence.
    + rewrite app_cons_s in Huv. injection Huv as _ Huv.
      by apply (IH eq_refl u v).
Qed.

(** The leftmost place where [old] occurs in [s]: [s] is [u], [old] and
    [v], and no shorter [u] will do. *)
Definition leftmost (s old u v : string) : Prop :=
  s = u +:+ old +:+ v ∧
  ∀ u' v', s = u' +:+ old +:+ v' → (String.length u ≤ String.length u')%nat.

Lemma leftmost_firstAt s old u v :
  leftmost s old u v →
  firstAt s old = Some (String.length u) ∧
  takeS (String.length u) s = u ∧
  dropS (String.length u + String.length old) s = v.
Proof.
  intros [Hs Hmin].
  destruct (firstAt s old) as [n|] eqn:Hn.
  2:{ by destruct (firstAt_None _ _ Hn u v). }
  destruct (firstAt_Some _ _ _ Hn) as ((v0 & Hv0) & Hlen & Hmin0).
  assert (n = String.length u) as ->.
  { apply Nat.le_antisymm; [by eapply Hmin0|].
    rewrite <-Hlen. by eapply Hmin. }
  split_and!; [done | |].
  - rewrite Hs. apply takeS_app.
  - rewrite Hs, dropS_add, dropS_app. apply dropS_app.
Qed.

(** X27.  [indexOf] returns the index of the leftmost occurrence of
    [substr] in [s], or [-1] when there is none; for the empty [substr]
    that is index zero. *)
Theorem indexOf_finds_leftmost s substr :
  (indexOf s substr = -1 ∧ ∀ u v, s ≠ u +:+ substr +:+ v) ∨
  (∃ u v, leftmost s substr u v ∧ indexOf s substr = Go.len u).
Proof.
  unfold indexOf. rewrite indexOfFrom_firstAt.
  destruct (firstAt s substr) as [n|] eqn:Hn.
  - right. destruct (firstAt_Some _ _ _ Hn) as ((v & Hv) & Hlen & Hmin).
    exists (takeS n s), v. split; [split|].
    + done.
    + intros u' v' Huv. rewrite Hlen. by eapply Hmin.
    + unfold Go.len. rewrite Hlen. lia.
  - left. split; [done | by apply firstAt_None].
Qed.

(** X28.  [replaceAll] is replacement from the left without overlap.
    An empty [old] changes nothing; a text in which [old] does not occur
    comes back as it is; and otherwise the text up to the leftmost
    occurrence is kept, [new] stands for that occurrence, and what
    follows it is treated the same way.  The loop always finishes. *)
Theorem replaceAll_replaces_leftmost s old new :
  (old = "" → replaceAll s old new = s) ∧
  (old ≠ "" → (∀ u v, s ≠ u +:+ old +:+ v) → replaceAll s old new = s) ∧
  (old ≠ "" → ∀ u v, leftmost s old u v →
     replaceAll s old new = u +:+ new +:+ replaceAll v old new).
Proof.
  split_and!.
  - intros ->. unfold replaceAll. by rewrite bool_decide_true.
  - intros Hold Hnone. unfold replaceAll. rewrite bool_decide_false by done.
    rewrite replaceLoop_step by done.
    destruct (firstAt s old) as [n|] eqn:Hn; [|done].
    destruct (firstAt_Some _ _ _ Hn) as ((v & Hv) & _). by destruct (Hnone _ _ Hv).
  - intros Hold u v Hleft.
    pose proof Hleft as (Hn & Htake & Hdrop)%leftmost_firstAt.
    destruct Hleft as [Hs _].
    unfold replaceAll. rewrite !bool_decide_false by done.
    rewrite replaceLoop_step, Hn, Htake, Hdrop by done.
    rewrite replaceLoop_result by done. rewrite app_nil_s, app_assoc_s.
    do 2 f_equal. apply replaceLoop_fuel; [done | | lia].
    assert (0 < String.length old)%nat by (destruct old; [done | simpl; lia]).
    rewrite Hs, !length_app_s. lia.
Qed.

Example hyphens_become_pluses :
  leftmost "a-b-c" "-" "a" "b-c" ∧ replaceAll "a-b-c" "-" "+" = "a+b+c".
Proof.
  split; [split; [done|] | vm_compute; reflexivity].
  intros [|c u'] v' H; [discriminate H | simpl; lia].
Qed.

(** ** Texts the patterns have nothing to say about *)

(** Every match of a default pattern holds an at sign or a digit. *)
Definition marked (c : ascii) : bool :=
  bool_decide (c = "@"%char) || isDigit c.

Lemma defaultFilters_marked :
  Forall (λ f, needs marked (prog (pattern f)) = true) defaultFilters.
Proof. repeat constructor; vm_compute; reflexivity. Qed.

Lemma search_unmarked r s :
  needs marked r = true → allS (λ c, negb (marked c)) s = true →
  ∀ prev, search r prev s = None.
Proof.
  intros Hneeds Hs prev.
  destruct (search r prev s) as [f|] eqn:Hsearch; [|done].
  apply search_sound in Hsearch as [Hcut Hlang].
  destruct (lang_needs _ _ _ Hlang Hneeds) as (c & Hc & Hmark).
  assert (occurs c s = true) as Hin.
  { rewrite Hcut. apply occurs_app_true. right.
    apply occurs_app_true. by left. }
  rewrite allS_spec in Hs. apply Hs in Hin. by rewrite Hmark in Hin.
Qed.

Lemma stage_unmarked {S} (f : piiFilter) (repl : string → S → string * S)
    x st :
  needs marked (prog (pattern f)) = true →
  allS (λ c, negb (marked c)) x = true →
  ReplaceAllStringFunc (pattern f) x repl st = (x, st).
Proof.
  intros Hneeds Hx. unfold ReplaceAllStringFunc, pieces. simpl.
  rewrite search_unmarked by done. simpl. by rewrite app_nil_r_s.
Qed.

(** X29.  A text with no at sign and no digit goes through [Sanitize]
    unchanged, whatever filters are switched on and however the
    sanitizer has been used; and unless the map had reached
    [maxPIIMappings] entries, the sanitizer is unchanged as well. *)
Theorem unmarked_text_passes cfg xs x :
  allS (λ c, negb (marked c)) x = true →
  (Sanitize x (chainOf cfg xs)).1 = x ∧
  (Z.of_nat (size (mappings (chainOf cfg xs))) < maxPIIMappings →
   (Sanitize x (chainOf cfg xs)).2 = chainOf cfg xs).
Proof.
  intros Hx. set (s := chainOf cfg xs).
  assert (Forall (λ f, needs marked (prog (pattern f)) = true) (filters s))
    as Hfs.
  { unfold s. rewrite (proj1 (chainOf_keeps cfg xs)). simpl.
    apply Forall_forall. intros f [_ Hf]%list_elem_of_filter.
    by apply (proj1 (Forall_forall _ _) defaultFilters_marked). }
  assert (∀ st : gmap string string * gmap string Z,
            foldl (λ acc f,
                     ReplaceAllStringFunc (pattern f) acc.1
                       (replaceMatch (prefix f)) acc.2)
                  (x, st) (filters s) = (x, st)) as Hrun.
  { induction Hfs as [|f fs Hf _ IH]; intros st; [done|].
    simpl. rewrite stage_unmarked by done. apply IH. }
  unfold Sanitize. destruct (negb (enabled s) || _); [done|].
  rewrite Hrun. simpl. split; [done|].
  intros Hroom. rewrite bool_decide_false by lia. simpl. by destruct s.
Qed.

Lemma unmarked_text_passes_witness :
  (Sanitize "see you on Monday"
     (chainOf defaultConfig ["write to a@b.com"])).1
    = "see you on Monday" ∧
  (Z.of_nat (size (mappings (chainOf defaultConfig ["write to a@b.com"])))
     < maxPIIMappings →
   (Sanitize "see you on Monday"
      (chainOf defaultConfig ["write to a@b.com"])).2
     = chainOf defaultConfig ["write to a@b.com"]).
Proof.
  apply (unmarked_text_passes defaultConfig ["write to a@b.com"]
           "see you on Monday").
  vm_compute. reflexivity.
Defined.

(** ** keyring.go: showing a key *)

(** [MaskKey]. *)
Definition MaskKey (key : string) : string :=
  if bool_decide (Go.len key ≤ 8) then "****"
  else takeS 3 key +:+ "..." +:+ dropS (String.length key - 4) key.

Lemma length_dropS_sub (n : nat) (s : string) :
  String.length (dropS n s) = (String.length s - n)%nat.
Proof.
  revert s. induction n as [|n IH]; intros [|c s]; simpl; try done.
Qed.

(** [MaskKey] shows at most seven bytes of a key: a key of eight
    bytes or fewer is shown as four stars, and of a longer key only the
    first three bytes and the last four are shown, around three dots, so
    that at least two bytes in the middle stay hidden and the result is
    ten bytes long. *)
Theorem masked_key_shows_seven_bytes key :
  (Go.len key ≤ 8 → MaskKey key = "****") ∧
  (8 < Go.len key →
   ∃ head middle tail,
     key = head +:+ middle +:+ tail ∧
     String.length head = 3%nat ∧ String.length tail = 4%nat ∧
     (2 ≤ String.length middle)%nat ∧
     MaskKey key = head +:+ "..." +:+ tail).
Proof.
  unfold MaskKey, Go.len. split; intros Hlen.
  - by rewrite bool_decide_true.
  - rewrite bool_decide_false by lia.
    exists (takeS 3 key), (takeS (String.length key - 7) (dropS 3 key)),
      (dropS (String.length key - 4) key).
    assert (String.length (dropS 3 key) = (String.length key - 3)%nat)
      as Hd3 by apply length_dropS_sub.
    split_and!.
    + replace (String.length key - 4)%nat
        with (3 + (String.length key - 7))%nat by lia.
      rewrite dropS_add. by rewrite !takeS_dropS.
    + apply length_takeS_le. lia.
    + rewrite length_dropS_sub. lia.
    + rewrite length_takeS_le; lia.
    + done.
Qed.

End Security.

(* ================================================================== *)
(** * app.go: the GUI entry point, and the two ways into the agent     *)
(* ================================================================== *)

Module App.
Import LLM Go.

Section App.
Context {M W : Type} `{Mem : Memory.Memory M}.

(** The fields of [App] that [SendMessage] reads: the agent, nil until
    setup is complete, and the sanitizer, which [Sanitize] updates in
    place. *)
Record App := {
  agent : option (Agent.Agent (W := W));
  sanitizer : Security.Sanitizer
}.

(** [SendMessage]; [order] is the order in which [Restore] happens to
    range over the placeholder map. The result carries the sanitizer as
    the call leaves it. *)
Definition SendMessage (fuel : nat)
    (order : Security.Sanitizer → list (string * string))
    (a : App) (text : string)
  : Run (Agent.State M W) (string * Security.Sanitizer) :=
  match agent a with
  | None =>
      ret ("Agent not initialized. Please complete setup first.",
           sanitizer a)
  | Some ag =>
      let '(sanitized, san) := Security.Sanitize text (sanitizer a) in
      let* (response, err) :=
        Agent.HandleDirectMessage fuel ag "gui" sanitized in
      match err with
      | Some err => ret ("Error: " +:+ Error err, san)
      | None => ret (Security.Restore (order san) response san, san)
      end
  end.

End App.

(** ** The same message through the GUI and through a channel *)

#[local] Existing Instance Agent.scenarioMemory.

(** The requests a run sent to the provider, as the texts of their
    messages. *)
Definition requestTexts (tr : list Agent.Effect) : list (list string) :=
  omap (λ e, match e with
             | Agent.ChatCall req => Some (Content <$> req_Messages req)
             | _ => None
             end) tr.

(** What a run sent out through a channel. *)
Definition sentTexts (tr : list Agent.Effect) : list string :=
  omap (λ e, match e with
             | Agent.SendCall _ m => Some (Channel.out_Text m)
             | _ => None
             end) tr.

Definition telegram : Channel.Channel Agent.Stage :=
  {| Channel.Name := "telegram"; Channel.Send := λ _ w, (None, w) |}.

Definition assistant : Agent.Agent (W := Agent.Stage) :=
  Agent.New Agent.defaults
    (Agent.scriptedProvider
       [(Some (textResponse "Okay, I will email [EMAIL_1] later."), None)])
    Agent.workspaceTools {["telegram" := telegram]}.

Definition desktop : App (W := Agent.Stage) :=
  {| agent := Some assistant;
     sanitizer := Security.NewSanitizer Security.defaultConfig |}.

Definition fromTelegram : Channel.InboundMessage :=
  {| Channel.ChannelName := "telegram"; Channel.SenderID := "7";
     Channel.SenderName := "dan"; Channel.ChatID := "tg-7";
     Channel.Text := "email me at a@b.com"; Channel.Timestamp := 0 |}.

Definition mapOrder (s : Security.Sanitizer) : list (string * string) :=
  map_to_list (Security.mappings s).

(** Scenario 6: through [SendMessage] the provider sees the placeholder
    and the caller gets the address back. *)
Example gui_message_is_sanitized_and_restored :
  let run := SendMessage 3 mapOrder desktop "email me at a@b.com"
               Agent.start in
  match run.1 with Done r => r.1 | _ => "" end
    = "Okay, I will email a@b.com later." ∧
  requestTexts (Agent.trace run.2) = [["email me at [EMAIL_1]"]].
Proof. split; vm_compute; reflexivity. Qed.

(** C8 fails on the channel path. An inbound message from a channel goes
    from [handleMessage] straight to [processMessage]: the provider is sent
    the address itself, and the reply goes out with its placeholder
    unrestored. (The [Agent] has no sanitizer; only [App.SendMessage]
    wraps the turn.) *)
Theorem channel_message_reaches_provider_unsanitized :
  let run := Agent.onMessage 3 assistant fromTelegram Agent.start in
  run.1 = Done () ∧
  requestTexts (Agent.trace run.2) = [["email me at a@b.com"]] ∧
  sentTexts (Agent.trace run.2) = ["Okay, I will email [EMAIL_1] later."].
Proof. split_and!; vm_compute; reflexivity. Qed.

(** ** What a GUI turn hands on *)

Section Gui.
Context {M W : Type} `{Mem : Memory.Memory M}.

(** X30.  Through [SendMessage] only the sanitized text travels.  With
    an agent in place, the turn is run for the chat "gui" on the text as
    [Sanitize] returns it: that is the user message saved, and the
    assistant message saved after it is the response as the provider
    gave it, placeholders and all; [Restore] is applied only to what the
    caller gets back, and not at all when the turn failed, where the
    caller gets "Error: " and the error's text.  The sanitizer the call
    leaves behind is the one [Sanitize] left. *)
Theorem gui_turn_hands_on_sanitized_text fuel order (a : App (W := W))
    ag text (s s' : Agent.State M W) out san :
  agent a = Some ag →
  SendMessage fuel order a text s = (Done (out, san), s') →
  let sanitized := (Security.Sanitize text (sanitizer a)).1 in
  san = (Security.Sanitize text (sanitizer a)).2 ∧
  ∃ response err,
    Agent.processMessage fuel ag "gui" sanitized s
      = (Done (response, err), s') ∧
    out = match err with
          | Some e => "Error: " +:+ Error e
          | None => Security.Restore (order san) response san
          end ∧
    Agent.saved (Agent.since s s')
    = ("gui", msg "user" sanitized)
      :: match err with
         | None => [("gui", msg "assistant" response)]
         | Some _ => []
         end.
Proof.
  intros Hag. unfold SendMessage, Agent.HandleDirectMessage. rewrite Hag.
  destruct (Security.Sanitize text (sanitizer a)) as [sanitized san0].
  simpl. intros H.
  apply Agent.bind_Done_inv in H as ([response err] & s1 & Hrun & H).
  pose proof (Agent.processMessage_saved _ _ _ _ _ _ _ _ Hrun) as Hsaved.
  destruct err as [e|]; apply Agent.ret_Done_inv in H as [[= <- <-] <-];
    (split; [done|]); eexists _, _;
    (split_and!; [exact Hrun | done | exact Hsaved]).
Qed.

End Gui.

Lemma gui_turn_hands_on_sanitized_text_witness :
  let run := SendMessage 3 mapOrder desktop "email me at a@b.com"
               Agent.start in
  let sanitized :=
    (Security.Sanitize "email me at a@b.com" (sanitizer desktop)).1 in
  (Security.Sanitize "email me at a@b.com" (sanitizer desktop)).2
    = (Security.Sanitize "email me at a@b.com" (sanitizer desktop)).2 ∧
  ∃ response err,
    Agent.processMessage 3 assistant "gui" sanitized Agent.start
      = (Done (response, err), run.2) ∧
    "Okay, I will email a@b.com later."
    = match err with
      | Some e => "Error: " +:+ Error e
      | None =>
          Security.Restore
            (mapOrder (Security.Sanitize "email me at a@b.com"
                         (sanitizer desktop)).2)
            response
            (Security.Sanitize "email me at a@b.com" (sanitizer desktop)).2
      end ∧
    Agent.saved (Agent.since Agent.start run.2)
    = ("gui", msg "user" sanitized)
      :: match err with
         | None => [("gui", msg "assistant" response)]
         | Some _ => []
         end.
Proof.
  apply (gui_turn_hands_on_sanitized_text 3 mapOrder desktop assistant
           "email me at a@b.com" Agent.start).
  - reflexivity.
  - vm_compute. reflexivity.
Defined.

End App.
